(** * skykit: block-decomposed 2-D sliding-window median filter

    A shallow embedding of [src/filter.cc] and the verification of its
    bit-packed window, block geometry, rank table and traversal.

    Conventions of the embedding.
    - C++ [int] values are mathematical integers ([Z]); signed overflow is
      undefined behaviour in C++ and lies outside the embedding.  [/] on
      [int] is [Z.quot] (truncation), [>>] and [&] are [Z.shiftr] and
      [Z.land] (two's complement).
    - [uint64_t] values are integers in [0, 2^64) with the wrap-around
      written out ([wrap64]).
    - Arrays are lists; every read or write outside the allocated range
      is the fault [OutOfBounds].
    - A failed [assert] is the fault [AssertionFailed], unless the build
      defines [NDEBUG]; the preprocessor symbols the source tests
      ([NDEBUG], [NAIVE], [__AVX2__]) are the fields of [Build].
    - [while] loops run on fuel; running out of it is the fault
      [OutOfFuel].
    - The OpenMP region is executed by one thread that takes the blocks
      in loop order. *)

From Stdlib Require Import ZArith Lia Bool QArith.
From stdpp Require Import base tactics option list sorting.

Local Open Scope Z_scope.

(** ** Outcomes of a computation *)

Inductive fault : Type :=
  | AssertionFailed
  | OutOfBounds
  | Undefined
  | OutOfFuel.

Inductive result (A : Type) : Type :=
  | Ok (a : A)
  | Fault (f : fault).
Arguments Ok {A} a.
Arguments Fault {A} f.

#[global] Instance result_ret : MRet result := fun A a => Ok a.
#[global] Instance result_bind : MBind result := fun A B k m =>
  match m with
  | Ok a => k a
  | Fault f => Fault f
  end.

(** The preprocessor symbols that select code in [filter.cc]. *)
Record Build : Type := {
  NDEBUG : bool;
  NAIVE : bool;
  AVX2 : bool
}.

(** [assert(c)] *)
Definition assert (cfg : Build) (c : bool) : result unit :=
  if c then Ok tt else if NDEBUG cfg then Ok tt else Fault AssertionFailed.

(** Array read [a[i]] and write [a[i] = v] with an [int] index. *)
Definition rd {A : Type} (a : list A) (i : Z) : result A :=
  if (0 <=? i) && (i <? Z.of_nat (length a)) then
    match a !! Z.to_nat i with
    | Some v => Ok v
    | None => Fault OutOfBounds
    end
  else Fault OutOfBounds.

Definition wr_at {A : Type} (a : list A) (i : Z) (v : A) : result (list A) :=
  if (0 <=? i) && (i <? Z.of_nat (length a)) then Ok (<[Z.to_nat i := v]> a)
  else Fault OutOfBounds.

(** ** 64-bit words *)

Definition ONE64 : Z := 1.

Definition wrap64 (x : Z) : Z := x mod 2 ^ 64.

Definition is_u64 (x : Z) : Prop := 0 <= x < 2 ^ 64.

(** Number of set bits among the [n] low bit positions of [x]. *)
Fixpoint count_bits (x : Z) (n : nat) : Z :=
  match n with
  | O => 0
  | S n' => count_bits x n' + Z.b2z (Z.testbit x (Z.of_nat n'))
  end.

(** [__builtin_popcountll]: the number of 1 bits of a 64-bit word. *)
Definition popcnt64 (x : Z) : Z := count_bits x 64.

(** [__builtin_ctzll]: the number of trailing 0 bits, that is the index
    of the least significant 1 bit; the result is undefined for 0. *)
Fixpoint ctz_from (n : nat) (i : Z) (x : Z) : Z :=
  match n with
  | O => i
  | S n' => if Z.testbit x i then i else ctz_from n' (i + 1) x
  end.

Definition ctzll (x : Z) : result Z :=
  if x =? 0 then Fault Undefined else Ok (ctz_from 64 0 x).

(** [_pdep_u64(src, mask)] as in the instruction reference: the low bits
    of [src] are deposited, in order, at the positions of the 1 bits of
    [mask]; [m] walks the 64 positions and [k] counts the bits used. *)
Fixpoint pdep_loop (n : nat) (m k : Z) (src mask dest : Z) : Z :=
  match n with
  | O => dest
  | S n' =>
      if Z.testbit mask m then
        pdep_loop n' (m + 1) (k + 1) src mask
          (if Z.testbit src k then Z.setbit dest m else dest)
      else pdep_loop n' (m + 1) k src mask dest
  end.

Definition pdep_u64 (src mask : Z) : Z := pdep_loop 64 0 0 src mask 0.

(** [x &= x - 1], [n] times. *)
Definition clear_lowest (x : Z) : Z := Z.land x (wrap64 (x - 1)).

(** [findnth64] *)
Definition findnth64 (cfg : Build) (x : Z) (n : Z) : result Z :=
  let x' :=
    if AVX2 cfg then pdep_u64 (wrap64 (Z.shiftl ONE64 n)) x
    else Nat.iter (Z.to_nat n) clear_lowest x in
  ctzll x'.

Definition choose_blocksize_1d (h : Z) : Z := 8 * (h + 2).
Definition choose_blocksize_2d (h : Z) : Z := 4 * (h + 2).


(** ** Loops *)

(** [for (int i = lo; i < hi; ++i) body]: the body is run on the
    successive values of [i] and stops at the first fault. *)
Fixpoint for_each {S : Type} (l : list Z) (body : Z -> S -> result S) (s : S)
  : result S :=
  match l with
  | [] => Ok s
  | i :: l' => s' ← body i s; for_each l' body s'
  end.

Definition for_range {S : Type} (lo hi : Z) (body : Z -> S -> result S) (s : S)
  : result S :=
  for_each (seqZ lo (hi - lo)) body s.

(** ** The element type

    [filter.cc] is a template over [T], instantiated at [float] and
    [double].  The operations it uses on [T] are [std::isnan],
    [operator<] (inside [std::sort] on pairs), [+=], [/= 2],
    [quiet_NaN()] and value-initialisation. *)
Class FloatT (T : Type) : Type := {
  isnan : T -> bool;
  flt : T -> T -> bool;
  fadd : T -> T -> T;
  fdiv2 : T -> T;
  quiet_NaN : T;
  fzero : T
}.

(** [operator<] of [std::pair<T,int>]: lexicographic. *)
Definition pair_lt {T : Type} `{FloatT T} (a b : T * Z) : bool :=
  flt (fst a) (fst b) || (negb (flt (fst b) (fst a)) && (snd a <? snd b)).

(** ** Grid dimensions: [class Dim] *)

Module Dim.

Record t : Type := {
  size : Z;
  h : Z;
  step : Z;
  count : Z
}.

Definition calc_step (b h : Z) : Z := b - 2 * h.

Definition calc_count (b size h : Z) : Z :=
  if size <=? b then 1
  else
    let interior := size - 2 * h in
    let step := calc_step b h in
    Z.quot (interior + step - 1) step.

(** The constructor [Dim(b_, size_, h_)] with its four assertions. *)
Definition make (cfg : Build) (b_ size_ h_ : Z) : result t :=
  let d := {| size := size_; h := h_;
              step := calc_step b_ h_; count := calc_count b_ size_ h_ |} in
  _ ← assert cfg (2 * h d + 1 <? b_);
  _ ← assert cfg (count d >=? 1);
  _ ← assert cfg (2 * h d + count d * step d >=? size d);
  _ ← assert cfg ((2 * h d + (count d - 1) * step d <? size d) || (count d =? 1));
  mret d.

End Dim.

(** ** Slot [i] in the grid: [struct BDim]

    The fields [coords] and [radius] are stored by the constructor and
    never read; they are left out. *)

Module BDim.

Record t : Type := {
  dim : Dim.t;
  start : Z;
  size : Z;
  b0 : Z;
  b1 : Z
}.

Definition set (i : Z) (bd : t) : t :=
  let d := dim bd in
  let is_first := (i =? 0) in
  let is_last := (i + 1 =? Dim.count d) in
  let start := Dim.step d * i in
  let end_ := if is_last then Dim.size d else 2 * Dim.h d + (i + 1) * Dim.step d in
  let size := end_ - start in
  {| dim := d; start := start; size := size;
     b0 := if is_first then 0 else Dim.h d;
     b1 := if is_last then size else size - Dim.h d |}.

Definition make (dim_ : Dim.t) : t :=
  set 0 {| dim := dim_; start := 0; size := 0; b0 := 0; b1 := 0 |}.

Definition w0 (cfg : Build) (v : Z) (bd : t) : result Z :=
  _ ← assert cfg (b0 bd <=? v);
  _ ← assert cfg (v <? b1 bd);
  mret (Z.max 0 (v - Dim.h (dim bd))).

Definition w1 (cfg : Build) (v : Z) (bd : t) : result Z :=
  _ ← assert cfg (b0 bd <=? v);
  _ ← assert cfg (v <? b1 bd);
  mret (Z.min (v + 1 + Dim.h (dim bd)) (size bd)).

End BDim.

(** ** The sliding window: [class Window] *)

Module Window.

Definition WORD_SHIFT : Z := 6.
Definition WORD_SIZE : Z := Z.shiftl 1 WORD_SHIFT.
Definition WORD_MASK : Z := WORD_SIZE - 1.

(** [half[0]] and [half[1]] are the fields [half0] and [half1]. *)
Record t : Type := {
  words : Z;
  buf : list Z;
  half0 : Z;
  half1 : Z;
  p : Z
}.

Definition get_words (cfg : Build) (bb : Z) : result Z :=
  _ ← assert cfg (bb >=? 1);
  mret (Z.quot (bb + WORD_SIZE - 1) WORD_SIZE).

(** The constructor allocates [buf]; its contents, [half] and [p] are
    indeterminate until [clear] and are taken to be zero here. *)
Definition make (cfg : Build) (bb : Z) : result t :=
  n ← get_words cfg bb;
  mret {| words := n; buf := replicate (Z.to_nat n) 0; half0 := 0; half1 := 0; p := 0 |}.

Definition clear (w : t) : result t :=
  buf' ← for_range 0 (words w) (fun i b => wr_at b i 0) (buf w);
  mret {| words := words w; buf := buf'; half0 := 0; half1 := 0;
          p := Z.quot (words w) 2 |}.

(** [half[i >= p] += op] *)
Definition add_half (right : bool) (op : Z) (w : t) (buf' : list Z) : t :=
  if right then
    {| words := words w; buf := buf'; half0 := half0 w; half1 := half1 w + op; p := p w |}
  else
    {| words := words w; buf := buf'; half0 := half0 w + op; half1 := half1 w; p := p w |}.

Definition update (cfg : Build) (op s : Z) (w : t) : result t :=
  _ ← assert cfg ((op =? -1) || (op =? 1));
  let i := Z.shiftr s WORD_SHIFT in
  let j := Z.land s WORD_MASK in
  x ← rd (buf w) i;
  let m := wrap64 (Z.shiftl ONE64 j) in
  _ ← assert cfg (if op =? 1 then Z.land x m =? 0 else negb (Z.land x m =? 0));
  buf' ← wr_at (buf w) i (Z.lxor x m);
  mret (add_half (i >=? p w) op w buf').

Definition size (w : t) : Z := half0 w + half1 w.

(** First loop of [find]: [while (half[0] > goal)]. *)
Fixpoint find_down (fuel : nat) (goal : Z) (w : t) : result t :=
  if half0 w >? goal then
    match fuel with
    | O => Fault OutOfFuel
    | S fuel' =>
        let p' := p w - 1 in
        x ← rd (buf w) p';
        find_down fuel' goal
          {| words := words w; buf := buf w;
             half0 := half0 w - popcnt64 x; half1 := half1 w + popcnt64 x;
             p := p' |}
    end
  else Ok w.

(** Second loop of [find]: [while (half[0] + popcnt64(buf[p]) <= goal)]. *)
Fixpoint find_up (fuel : nat) (goal : Z) (w : t) : result t :=
  x ← rd (buf w) (p w);
  if half0 w + popcnt64 x <=? goal then
    match fuel with
    | O => Fault OutOfFuel
    | S fuel' =>
        find_up fuel' goal
          {| words := words w; buf := buf w;
             half0 := half0 w + popcnt64 x; half1 := half1 w - popcnt64 x;
             p := p w + 1 |}
    end
  else Ok w.

Definition find (cfg : Build) (fuel : nat) (goal : Z) (w : t) : result (Z * t) :=
  w ← find_down fuel goal w;
  w ← find_up fuel goal w;
  let n := goal - half0 w in
  x ← rd (buf w) (p w);
  _ ← assert cfg ((0 <=? n) && (n <? popcnt64 x));
  j ← findnth64 cfg x n;
  mret (Z.lor (Z.shiftl (p w) WORD_SHIFT) j, w).

End Window.

(** ** Ranks of the cells of a block: [class WindowRank<T>]

    [std::sort] is a parameter [std_sort] of the embedding: the
    verification assumes of it only what the C++ standard promises. *)

Module WindowRank.
Section WithT.
Context {T : Type} `{FloatT T}.
Variable std_sort : list (T * Z) -> list (T * Z).

Record t : Type := {
  sorted : list (T * Z);
  rank : list Z;
  window : Window.t;
  bb : Z;
  size : Z
}.

Definition NAN_MARKER : Z := -1.

(** The constructor: [sorted] is value-initialised, the contents of
    [rank] and [size] are indeterminate and taken to be zero. *)
Definition make (cfg : Build) (bb_ : Z) : result t :=
  w ← Window.make cfg bb_;
  mret {| sorted := replicate (Z.to_nat bb_) (fzero, 0);
          rank := replicate (Z.to_nat bb_) 0;
          window := w; bb := bb_; size := 0 |}.

Definition init_start (r : t) : t :=
  {| sorted := sorted r; rank := rank r; window := window r; bb := bb r; size := 0 |}.

Definition init_feed (value : T) (slot : Z) (r : t) : result t :=
  if isnan value then
    rank' ← wr_at (rank r) slot NAN_MARKER;
    mret {| sorted := sorted r; rank := rank'; window := window r; bb := bb r;
            size := size r |}
  else
    sorted' ← wr_at (sorted r) (size r) (value, slot);
    mret {| sorted := sorted'; rank := rank r; window := window r; bb := bb r;
            size := size r + 1 |}.

(** [std::sort(sorted, sorted + size)] *)
Definition sort_prefix (n : Z) (a : list (T * Z)) : result (list (T * Z)) :=
  if (0 <=? n) && (n <=? Z.of_nat (length a)) then
    Ok (std_sort (take (Z.to_nat n) a) ++ drop (Z.to_nat n) a)
  else Fault OutOfBounds.

Definition init_finish (r : t) : result t :=
  sorted' ← sort_prefix (size r) (sorted r);
  rank' ← for_range 0 (size r)
             (fun i rk => e ← rd sorted' i; wr_at rk (snd e) i) (rank r);
  mret {| sorted := sorted'; rank := rank'; window := window r; bb := bb r;
          size := size r |}.

Definition set_window (r : t) (w : Window.t) : t :=
  {| sorted := sorted r; rank := rank r; window := w; bb := bb r; size := size r |}.

Definition clear (r : t) : result t :=
  w ← Window.clear (window r);
  mret (set_window r w).

Definition update (cfg : Build) (op slot : Z) (r : t) : result t :=
  s ← rd (rank r) slot;
  if s =? NAN_MARKER then Ok r
  else
    w ← Window.update cfg op s (window r);
    mret (set_window r w).

Definition get_med (cfg : Build) (fuel : nat) (r : t) : result (T * t) :=
  let total := Window.size (window r) in
  if total =? 0 then Ok (quiet_NaN, r)
  else
    let goal1 := Z.quot (total - 1) 2 in
    let goal2 := Z.quot (total - 0) 2 in
    '(med1, w) ← Window.find cfg fuel goal1 (window r);
    e1 ← rd (sorted r) med1;
    let value := fst e1 in
    if negb (goal2 =? goal1) then
      '(med2, w) ← Window.find cfg fuel goal2 w;
      _ ← assert cfg (med2 >? med1);
      e2 ← rd (sorted r) med2;
      let value := fadd value (fst e2) in
      let value := fdiv2 value in
      mret (value, set_window r w)
    else mret (value, set_window r w).

End WithT.
Arguments t T : clear implicits.
End WindowRank.

(** ** Medians of one block: [class MedCalc2D<T>]

    [inp] is the image read through the pointer [in]; [out] is the
    contents of the buffer written through the pointer [out]. *)

Module MedCalc2D.
Section WithT.
Context {T : Type} `{FloatT T}.
Variable std_sort : list (T * Z) -> list (T * Z).
Variable cfg : Build.

Record t : Type := {
  wr : WindowRank.t T;
  bx : BDim.t;
  by_ : BDim.t;
  inp : list T;
  out : list T
}.

Definition make (b_ : Z) (dimx_ dimy_ : Dim.t) (in_ out_ : list T) : result t :=
  r ← WindowRank.make cfg (b_ * b_);
  mret {| wr := r; bx := BDim.make dimx_; by_ := BDim.make dimy_;
          inp := in_; out := out_ |}.

Definition set_wr (mc : t) (r : WindowRank.t T) : t :=
  {| wr := r; bx := bx mc; by_ := by_ mc; inp := inp mc; out := out mc |}.

Definition pack (mc : t) (x y : Z) : Z := y * BDim.size (bx mc) + x.

Definition coord (mc : t) (x y : Z) : Z :=
  (y + BDim.start (by_ mc)) * Dim.size (BDim.dim (bx mc)) + (x + BDim.start (bx mc)).

Definition calc_rank (mc : t) : result t :=
  let r := WindowRank.init_start (wr mc) in
  r ← for_range 0 (BDim.size (by_ mc)) (fun y r =>
         for_range 0 (BDim.size (bx mc)) (fun x r =>
           v ← rd (inp mc) (coord mc x y);
           WindowRank.init_feed v (pack mc x y) r) r) r;
  r ← WindowRank.init_finish std_sort r;
  mret (set_wr mc r).

Definition update_block (op x0 x1 y0 y1 : Z) (mc : t) : result t :=
  r ← for_range y0 y1 (fun y r =>
         for_range x0 x1 (fun x r => WindowRank.update cfg op (pack mc x y) r) r)
       (wr mc);
  mret (set_wr mc r).

Definition set_med (fuel : nat) (x y : Z) (mc : t) : result t :=
  '(v, r) ← WindowRank.get_med cfg fuel (wr mc);
  out' ← wr_at (out mc) (coord mc x y) v;
  mret {| wr := r; bx := bx mc; by_ := by_ mc; inp := inp mc; out := out' |}.

(** [update_block(op, bx.wa(xa), bx.wb(xb), by.wc(yc), by.wd(yd))] *)
Definition update_window (op : Z)
    (wa : Build -> Z -> BDim.t -> result Z) (xa : Z)
    (wb : Build -> Z -> BDim.t -> result Z) (xb : Z)
    (wc : Build -> Z -> BDim.t -> result Z) (yc : Z)
    (wd : Build -> Z -> BDim.t -> result Z) (yd : Z) (mc : t) : result t :=
  x0 ← wa cfg xa (bx mc);
  x1 ← wb cfg xb (bx mc);
  y0 ← wc cfg yc (by_ mc);
  y1 ← wd cfg yd (by_ mc);
  update_block op x0 x1 y0 y1 mc.

Definition clear_wr (mc : t) : result t :=
  r ← WindowRank.clear (wr mc);
  mret (set_wr mc r).

(** [medians] under [#ifdef NAIVE] *)
Definition medians_naive (fuel : nat) (mc : t) : result t :=
  for_range (BDim.b0 (by_ mc)) (BDim.b1 (by_ mc)) (fun y mc =>
    for_range (BDim.b0 (bx mc)) (BDim.b1 (bx mc)) (fun x mc =>
      mc ← clear_wr mc;
      mc ← update_window 1 BDim.w0 x BDim.w1 x BDim.w0 y BDim.w1 y mc;
      set_med fuel x y mc) mc) mc.

(** The [while (true)] loop of [medians]; [Ok] is its [break].  [ffuel]
    is the fuel handed to [find], [fuel] that of this loop. *)
Fixpoint snake (ffuel fuel : nat) (x y : Z) (down : bool) (mc : t) : result t :=
  match fuel with
  | O => Fault OutOfFuel
  | S fuel' =>
      let right :=
        if down then (y + 1 =? BDim.b1 (by_ mc)) else (y =? BDim.b0 (by_ mc)) in
      let down := if right then negb down else down in
      if right && (x + 1 =? BDim.b1 (bx mc)) then Ok mc
      else if right then
        mc ← update_window (-1) BDim.w0 x BDim.w0 (x + 1) BDim.w0 y BDim.w1 y mc;
        let x := x + 1 in
        mc ← update_window 1 BDim.w1 (x - 1) BDim.w1 x BDim.w0 y BDim.w1 y mc;
        mc ← set_med ffuel x y mc;
        snake ffuel fuel' x y down mc
      else if down then
        mc ← update_window (-1) BDim.w0 x BDim.w1 x BDim.w0 y BDim.w0 (y + 1) mc;
        let y := y + 1 in
        mc ← update_window 1 BDim.w0 x BDim.w1 x BDim.w1 (y - 1) BDim.w1 y mc;
        mc ← set_med ffuel x y mc;
        snake ffuel fuel' x y down mc
      else
        mc ← update_window (-1) BDim.w0 x BDim.w1 x BDim.w1 (y - 1) BDim.w1 y mc;
        let y := y - 1 in
        mc ← update_window 1 BDim.w0 x BDim.w1 x BDim.w0 y BDim.w0 (y + 1) mc;
        mc ← set_med ffuel x y mc;
        snake ffuel fuel' x y down mc
  end.

(** [medians] without [NAIVE] *)
Definition medians_snake (fuel : nat) (mc : t) : result t :=
  mc ← clear_wr mc;
  let x := BDim.b0 (bx mc) in
  let y := BDim.b0 (by_ mc) in
  mc ← update_window 1 BDim.w0 x BDim.w1 x BDim.w0 y BDim.w1 y mc;
  mc ← set_med fuel x y mc;
  snake fuel fuel x y true mc.

Definition medians (fuel : nat) (mc : t) : result t :=
  if NAIVE cfg then medians_naive fuel mc else medians_snake fuel mc.

Definition run (fuel : nat) (bx_ by__ : Z) (mc : t) : result t :=
  let mc := {| wr := wr mc; bx := BDim.set bx_ (bx mc); by_ := BDim.set by__ (by_ mc);
               inp := inp mc; out := out mc |} in
  mc ← calc_rank mc;
  medians fuel mc.

End WithT.
Arguments t T : clear implicits.
End MedCalc2D.

(** ** The driver *)

(** The one exception of the program:
    [std::invalid_argument("window too large for this block size")]. *)
Inductive exn : Type := invalid_argument.

(** What a call of the driver leaves behind: a normal return or an
    exception, each with the contents of the output buffer, or an
    abnormal end of the process. *)
Inductive outcome (T : Type) : Type :=
  | Returned (out : list T)
  | Thrown (e : exn) (out : list T)
  | Aborted (f : fault).
Arguments Returned {T} out.
Arguments Thrown {T} e out.
Arguments Aborted {T} f.

Section Driver.
Context {T : Type} `{FloatT T}.
Variable std_sort : list (T * Z) -> list (T * Z).
Variable cfg : Build.

Definition run_blocks (fuel : nat) (x y hx hy b : Z) (in_ out_ : list T)
  : result (list T) :=
  dimx ← Dim.make cfg b x hx;
  dimy ← Dim.make cfg b y hy;
  mc ← MedCalc2D.make cfg b dimx dimy in_ out_;
  mc ← for_range 0 (Dim.count dimy) (fun by__ mc =>
          for_range 0 (Dim.count dimx) (fun bx_ mc =>
            MedCalc2D.run std_sort cfg fuel bx_ by__ mc) mc) mc;
  mret (MedCalc2D.out mc).

Definition median_filter_impl_2d (fuel : nat) (x y hx hy b : Z) (in_ out_ : list T)
  : outcome T :=
  if (2 * hx + 1 >? b) || (2 * hy + 1 >? b) then Thrown invalid_argument out_
  else
    match run_blocks fuel x y hx hy b in_ out_ with
    | Ok out' => Returned out'
    | Fault f => Aborted f
    end.

Definition median_filter_2d (fuel : nat) (x y hx hy blockhint : Z) (in_ out_ : list T)
  : outcome T :=
  let h := Z.max hx hy in
  let blocksize := if blockhint =? 0 then choose_blocksize_2d h else blockhint in
  median_filter_impl_2d fuel x y hx hy blocksize in_ out_.

End Driver.

(** * Specification-level notions *)

(** ** Bits of a word *)

(** [nth_set_bit x n j]: bit [j] of [x] is set and exactly [n] set bits
    lie strictly below it. *)
Definition nth_set_bit (x n j : Z) : Prop :=
  0 <= j /\ Z.testbit x j = true /\ count_bits x (Z.to_nat j) = n.

(** ** The bit buffer of the window *)

(** The number of set bits of a range of words. *)
Definition popsum (l : list Z) : Z := foldr (fun x a => popcnt64 x + a) 0 l.

(** Bit [s] of a buffer of 64-bit words. *)
Definition bit_at (b : list Z) (s : Z) : bool :=
  (0 <=? s) && match b !! Z.to_nat (s / 64) with
               | Some x => Z.testbit x (s mod 64)
               | None => false
               end.

(** The number of set bits of the buffer at the indices below [n]. *)
Fixpoint count_set (b : list Z) (n : nat) : Z :=
  match n with
  | O => 0
  | S n' => count_set b n' + Z.b2z (bit_at b (Z.of_nat n'))
  end.

(** Index [i] holds the [(g+1)]-th set bit of the buffer in ascending
    order: bit [i] is set and exactly [g] set bits lie strictly below. *)
Definition nth_set (b : list Z) (g i : Z) : Prop :=
  0 <= i /\ bit_at b i = true /\ count_set b (Z.to_nat i) = g.

(** The invariant stated in the comments of [class Window]:
    [half[0]] is the popcount of [buf[0] ... buf[p-1]], [half[1]] that
    of [buf[p] ... buf[words-1]]; [buf] has [words] words and [p] is
    the index of one of them. *)
Definition Window_inv (w : Window.t) : Prop :=
  Z.of_nat (length (Window.buf w)) = Window.words w /\
  Forall is_u64 (Window.buf w) /\
  0 <= Window.p w < Window.words w /\
  Window.half0 w = popsum (take (Z.to_nat (Window.p w)) (Window.buf w)) /\
  Window.half1 w = popsum (drop (Z.to_nat (Window.p w)) (Window.buf w)).

(** An update the caller may make: an insertion where the bit is clear,
    a removal where it is set. *)
Definition valid_update (op s : Z) (w : Window.t) : Prop :=
  (op = 1 /\ bit_at (Window.buf w) s = false) \/
  (op = -1 /\ bit_at (Window.buf w) s = true).

(** The states of a window in use: constructed for [bb >= 1] slots,
    cleared, and then updated, searched and cleared again. *)
Inductive Window_reachable (cfg : Build) : Window.t -> Prop :=
  | reach_clear bb w0 w :
      1 <= bb -> Window.make cfg bb = Ok w0 -> Window.clear w0 = Ok w ->
      Window_reachable cfg w
  | reach_clear_again w w' :
      Window_reachable cfg w -> Window.clear w = Ok w' ->
      Window_reachable cfg w'
  | reach_update w op s w' :
      Window_reachable cfg w -> valid_update op s w ->
      Window.update cfg op s w = Ok w' -> Window_reachable cfg w'
  | reach_find w fuel goal i w' :
      Window_reachable cfg w -> 0 <= goal < Window.size w ->
      (Z.to_nat (Window.words w) <= fuel)%nat ->
      Window.find cfg fuel goal w = Ok (i, w') -> Window_reachable cfg w'.

(** ** Block geometry *)

(** The relations the constructor of [Dim] asserts, together with the
    domain of its arguments. *)
Definition Dim_valid (b : Z) (d : Dim.t) : Prop :=
  1 <= Dim.size d /\ 0 <= Dim.h d /\ 2 * Dim.h d + 1 < b /\
  Dim.step d = b - 2 * Dim.h d /\
  1 <= Dim.count d /\
  Dim.size d <= 2 * Dim.h d + Dim.count d * Dim.step d /\
  (2 * Dim.h d + (Dim.count d - 1) * Dim.step d < Dim.size d \/ Dim.count d = 1).

(** The cells of the image, along one axis, whose median tile [i]
    computes: [[start + b0, start + b1)]. *)
Definition interior (d : Dim.t) (i v : Z) : Prop :=
  let bd := BDim.set i (BDim.make d) in
  BDim.start bd + BDim.b0 bd <= v < BDim.start bd + BDim.b1 bd.

(** The interiors of the tiles of one axis partition [[0, size)]. *)
Definition axis_partition (d : Dim.t) : Prop :=
  (forall v, 0 <= v < Dim.size d <->
             exists i, 0 <= i < Dim.count d /\ interior d i v) /\
  (forall i j v, 0 <= i < Dim.count d -> 0 <= j < Dim.count d ->
                 interior d i v -> interior d j v -> i = j).


(** ** The driver's outcome *)

Definition raised {T : Type} (o : outcome T) : option exn :=
  match o with
  | Thrown e _ => Some e
  | _ => None
  end.

(** ** The reference median

    The median of a list of samples: NaNs are dropped, the rest is
    sorted, and the middle element, or the mean of the two middle
    elements, is taken.  The sort is a stable insertion sort, so that
    samples that compare equal (as [+0.0] and [-0.0] do) keep the
    row-major order of the cells they come from. *)

Section Reference.
Context {T : Type} `{FloatT T}.

Fixpoint insert_sorted (a : T) (l : list T) : list T :=
  match l with
  | [] => [a]
  | b :: l' => if flt b a then b :: insert_sorted a l' else a :: l
  end.

Definition sort_ref (l : list T) : list T := foldr insert_sorted [] l.

(** The middle of a sorted list: its middle element, the mean of its
    two middle elements, or NaN when it is empty. *)
Definition middle (s : list T) : T :=
  let n := Z.of_nat (length s) in
  if n =? 0 then quiet_NaN
  else
    let lo := nth (Z.to_nat ((n - 1) / 2)) s quiet_NaN in
    let hi := nth (Z.to_nat (n / 2)) s quiet_NaN in
    if Z.even n then fdiv2 (fadd lo hi) else lo.

Definition median_of (l : list T) : T :=
  middle (sort_ref (filter (fun v => isnan v = false) l)).

(** The samples of the clipped window
    [[max(0,x-hx), min(X,x+hx+1)) x [max(0,y-hy), min(Y,y+hy+1))]
    around cell [(x, y)] of an [X] by [Y] image stored row by row, in
    row-major order: cell [c] of the image is in column [c mod X] of
    row [c / X]. *)
Definition window_values (X Y hx hy : Z) (in_ : list T) (x y : Z) : list T :=
  (fun c => nth (Z.to_nat c) in_ quiet_NaN) <$>
    filter (fun c => (Z.max 0 (x - hx) <= c mod X < Z.min X (x + hx + 1)) /\
                     (Z.max 0 (y - hy) <= c / X < Z.min Y (y + hy + 1)))
           (seqZ 0 (X * Y)).

(** The filtered image. *)
Definition median_filter_ref (X Y hx hy : Z) (in_ : list T) : list T :=
  (fun c => median_of (window_values X Y hx hy in_ (c mod X) (c / X)))
    <$> seqZ 0 (X * Y).

(** An insertion sort of (value, slot) pairs by [pair_lt]: one
    function that meets the contract of [std::sort]. *)
Fixpoint insert_pair (a : T * Z) (l : list (T * Z)) : list (T * Z) :=
  match l with
  | [] => [a]
  | b :: l' => if pair_lt b a then b :: insert_pair a l' else a :: l
  end.

Definition sort_pairs (l : list (T * Z)) : list (T * Z) := foldr insert_pair [] l.

End Reference.

(** ** What the verification assumes of [T] and of [std::sort]

    On the values that are not NaN, [operator<] is a strict weak
    order: irreflexive, transitive, and such that incomparability is
    transitive.  This is what IEEE 754 gives, and what [std::sort]
    requires of the comparison. *)
Definition strict_weak_order (T : Type) `{FloatT T} : Prop :=
  (forall a, isnan a = false -> flt a a = false) /\
  (forall a b c, isnan a = false -> isnan b = false -> isnan c = false ->
     flt a b = true -> flt b c = true -> flt a c = true) /\
  (forall a b c, isnan a = false -> isnan b = false -> isnan c = false ->
     flt a c = true -> flt a b = true \/ flt b c = true).

(** The contract of [std::sort] on a range free of NaN: the result is
    a permutation of the range in which no element is smaller than an
    element before it. *)
Definition sort_contract {T : Type} `{FloatT T}
    (std_sort : list (T * Z) -> list (T * Z)) : Prop :=
  forall l, Forall (fun e => isnan (fst e) = false) l ->
    Permutation (std_sort l) l /\
    StronglySorted (fun a b => pair_lt b a = false) (std_sort l).

(** ** The rank table of a block

    [feeds] is the list of (value, slot) pairs handed to [init_feed],
    [win] the set of slots that are in the window. *)

Section RankSpec.
Context {T : Type} `{FloatT T}.

Fixpoint feed_list (l : list (T * Z)) (r : WindowRank.t T)
  : result (WindowRank.t T) :=
  match l with
  | [] => Ok r
  | e :: l' => r' ← WindowRank.init_feed (fst e) (snd e) r; feed_list l' r'
  end.

(** Every slot is fed at most once and is one of the [bb] slots. *)
Definition valid_feeds (bb : Z) (feeds : list (T * Z)) : Prop :=
  NoDup (snd <$> feeds) /\ Forall (fun e => 0 <= snd e < bb) feeds.

(** The samples in the window that are not NaN. *)
Definition window_samples (feeds : list (T * Z)) (win : Z -> bool)
  : list (T * Z) :=
  filter (fun e => win (snd e) = true /\ isnan (fst e) = false) feeds.

Definition toggle (win : Z -> bool) (slot : Z) : Z -> bool :=
  fun s => if s =? slot then negb (win s) else win s.

(** The sizes of the arrays of a [WindowRank] of [bb] slots. *)
Definition shape (r : WindowRank.t T) : Prop :=
  1 <= WindowRank.bb r /\
  Z.of_nat (length (WindowRank.sorted r)) = WindowRank.bb r /\
  Z.of_nat (length (WindowRank.rank r)) = WindowRank.bb r /\
  Z.of_nat (length (Window.buf (WindowRank.window r)))
    = Window.words (WindowRank.window r) /\
  1 <= Window.words (WindowRank.window r) /\
  WindowRank.bb r <= 64 * Window.words (WindowRank.window r).

(** Between [init_start] and [init_finish], after the pairs [pre] have
    been fed to [r0]: [sorted[0..size)] holds the samples that are not
    NaN, in the order they came, and the slots of the others are
    marked. *)
Definition fed (pre : list (T * Z)) (r0 r : WindowRank.t T) : Prop :=
  WindowRank.bb r = WindowRank.bb r0 /\
  WindowRank.window r = WindowRank.window r0 /\
  length (WindowRank.sorted r) = length (WindowRank.sorted r0) /\
  length (WindowRank.rank r) = length (WindowRank.rank r0) /\
  WindowRank.size r
    = Z.of_nat (length (filter (fun e => isnan (fst e) = false) pre)) /\
  take (Z.to_nat (WindowRank.size r)) (WindowRank.sorted r)
    = filter (fun e => isnan (fst e) = false) pre /\
  (forall v s, (v, s) ∈ pre -> isnan v = true ->
     WindowRank.rank r !! Z.to_nat s = Some WindowRank.NAN_MARKER).

(** After [init_finish]: [sorted[0..size)] holds the samples that are
    not NaN in ascending order, [rank] maps the slot of each to its
    index in [sorted], and the slot of each NaN to [NAN_MARKER]. *)
Definition ranked (feeds : list (T * Z)) (r : WindowRank.t T) : Prop :=
  valid_feeds (WindowRank.bb r) feeds /\
  0 <= WindowRank.size r <= WindowRank.bb r /\
  (forall v s, (v, s) ∈ feeds -> isnan v = true ->
     WindowRank.rank r !! Z.to_nat s = Some WindowRank.NAN_MARKER) /\
  (forall v s, (v, s) ∈ feeds -> isnan v = false ->
     exists i, WindowRank.rank r !! Z.to_nat s = Some i /\
       0 <= i < WindowRank.size r /\
       WindowRank.sorted r !! Z.to_nat i = Some (v, s)) /\
  (forall i, 0 <= i < WindowRank.size r ->
     exists v s, WindowRank.sorted r !! Z.to_nat i = Some (v, s) /\
       (v, s) ∈ feeds /\ isnan v = false /\
       WindowRank.rank r !! Z.to_nat s = Some i) /\
  (forall i j e1 e2, 0 <= i < j -> j < WindowRank.size r ->
     WindowRank.sorted r !! Z.to_nat i = Some e1 ->
     WindowRank.sorted r !! Z.to_nat j = Some e2 -> pair_lt e1 e2 = true).

(** The bits of the window are the ranks of the samples in the window
    that are not NaN. *)
Definition tracks (feeds : list (T * Z)) (win : Z -> bool)
    (r : WindowRank.t T) : Prop :=
  Window_inv (WindowRank.window r) /\
  forall i, bit_at (Window.buf (WindowRank.window r)) i = true <->
    exists v s, (v, s) ∈ feeds /\ win s = true /\ isnan v = false /\
      WindowRank.rank r !! Z.to_nat s = Some i.

(** [r'] differs from [r] in its window only, which keeps its size. *)
Definition same_table (r r' : WindowRank.t T) : Prop :=
  WindowRank.sorted r' = WindowRank.sorted r /\
  WindowRank.rank r' = WindowRank.rank r /\
  WindowRank.bb r' = WindowRank.bb r /\
  WindowRank.size r' = WindowRank.size r /\
  Window.words (WindowRank.window r') = Window.words (WindowRank.window r) /\
  length (Window.buf (WindowRank.window r'))
    = length (Window.buf (WindowRank.window r)).

(** The indices of the set bits of the buffer below [n], ascending. *)
Definition set_bits (b : list Z) (n : nat) : list Z :=
  filter (fun i => bit_at b i = true) (seqZ 0 (Z.of_nat n)).

(** The entries of [sorted] at the set bits of the window. *)
Definition selected (r : WindowRank.t T) : list (T * Z) :=
  (fun i => nth (Z.to_nat i) (WindowRank.sorted r) (quiet_NaN, 0)) <$>
    set_bits (Window.buf (WindowRank.window r))
             (64 * length (Window.buf (WindowRank.window r))).


End RankSpec.

(** ** One block

    A tile of one axis as [MedCalc2D] uses it: it lies in the image, is
    at most [b] long, its interior is not empty, and the window of an
    interior coordinate is the clipped window of the image. *)
Definition tile_ok (b N h : Z) (bd : BDim.t) : Prop :=
  Dim.size (BDim.dim bd) = N /\ Dim.h (BDim.dim bd) = h /\ 0 <= h /\
  0 <= BDim.start bd /\ 0 < BDim.size bd <= b /\
  BDim.start bd + BDim.size bd <= N /\
  0 <= BDim.b0 bd < BDim.b1 bd /\ BDim.b1 bd <= BDim.size bd /\
  forall v, BDim.b0 bd <= v < BDim.b1 bd ->
    BDim.start bd + Z.max 0 (v - h) = Z.max 0 (BDim.start bd + v - h) /\
    BDim.start bd + Z.min (v + 1 + h) (BDim.size bd)
      = Z.min N (BDim.start bd + v + h + 1).

Section BlockSpec.
Context {T : Type} `{FloatT T}.

(** The pairs that [calc_rank] feeds: slot [s] of the block is the cell
    in column [s mod size_x] of row [s / size_x] of the block. *)
Definition feed_of (mc : MedCalc2D.t T) (s : Z) : T * Z :=
  (nth (Z.to_nat (MedCalc2D.coord mc (s mod BDim.size (MedCalc2D.bx mc))
                                     (s / BDim.size (MedCalc2D.bx mc))))
       (MedCalc2D.inp mc) quiet_NaN, s).

Definition block_feeds (mc : MedCalc2D.t T) : list (T * Z) :=
  feed_of mc <$>
    seqZ 0 (BDim.size (MedCalc2D.bx mc) * BDim.size (MedCalc2D.by_ mc)).

(** [mc] is set to a block of the [X] by [Y] image [inp]. *)
Definition at_block (b X Y hx hy : Z) (inp : list T) (mc : MedCalc2D.t T)
  : Prop :=
  tile_ok b X hx (MedCalc2D.bx mc) /\ tile_ok b Y hy (MedCalc2D.by_ mc) /\
  MedCalc2D.inp mc = inp /\ Z.of_nat (length inp) = X * Y /\
  Z.of_nat (length (MedCalc2D.out mc)) = X * Y /\
  shape (MedCalc2D.wr mc) /\ WindowRank.bb (MedCalc2D.wr mc) = b * b.

(** The slots of the cells [[x0, x1) x [y0, y1)] of a block [sx] wide. *)
Definition rect_win (sx x0 x1 y0 y1 : Z) : Z -> bool :=
  fun s => (x0 <=? s mod sx) && (s mod sx <? x1) &&
           (y0 <=? s / sx) && (s / sx <? y1).

(** The reference median of cell [c] of the image. *)
Definition median_at (X Y hx hy : Z) (in_ : list T) (c : Z) : T :=
  median_of (window_values X Y hx hy in_ (c mod X) (c / X)).

(** The window of cell [(x, y)] of the block. *)
Definition cell_win (mc : MedCalc2D.t T) (hx hy x y : Z) : Z -> bool :=
  rect_win (BDim.size (MedCalc2D.bx mc))
    (Z.max 0 (x - hx)) (Z.min (x + 1 + hx) (BDim.size (MedCalc2D.bx mc)))
    (Z.max 0 (y - hy)) (Z.min (y + 1 + hy) (BDim.size (MedCalc2D.by_ mc))).

(** [mc] is at work on the block that [mc0] was set to and ranked
    for: only the window and the output have changed. *)
Definition in_block (mc0 mc : MedCalc2D.t T) : Prop :=
  MedCalc2D.bx mc = MedCalc2D.bx mc0 /\
  MedCalc2D.by_ mc = MedCalc2D.by_ mc0 /\
  MedCalc2D.inp mc = MedCalc2D.inp mc0 /\
  same_table (MedCalc2D.wr mc0) (MedCalc2D.wr mc) /\
  length (MedCalc2D.out mc) = length (MedCalc2D.out mc0).

(** The cells of the block in [P] (in coordinates of the block that
    starts at [(ox, oy)]) hold their medians, the other cells of the
    image are as in [out0]. *)
Definition out_done (X Y hx hy : Z) (inp : list T) (ox oy : Z)
    (P : Z -> Z -> Prop) (out0 out : list T) : Prop :=
  forall c, 0 <= c < X * Y ->
    (P (c mod X - ox) (c / X - oy) ->
       out !! Z.to_nat c = Some (median_at X Y hx hy inp c)) /\
    (~ P (c mod X - ox) (c / X - oy) ->
       out !! Z.to_nat c = out0 !! Z.to_nat c).

(** The calculator between two blocks of the image with the axes [dx]
    and [dy]: the buffers have the size of the image and the rank table
    that of a block. *)
Definition between_blocks (b : Z) (dx dy : Dim.t) (inp : list T)
    (mc : MedCalc2D.t T) : Prop :=
  BDim.dim (MedCalc2D.bx mc) = dx /\ BDim.dim (MedCalc2D.by_ mc) = dy /\
  MedCalc2D.inp mc = inp /\
  Z.of_nat (length inp) = Dim.size dx * Dim.size dy /\
  Z.of_nat (length (MedCalc2D.out mc)) = Dim.size dx * Dim.size dy /\
  shape (MedCalc2D.wr mc) /\ WindowRank.bb (MedCalc2D.wr mc) = b * b /\
  Window.words (WindowRank.window (MedCalc2D.wr mc)) <= b * b.

(** Cell [c] of the image lies in the interior of a block that comes
    before block [(i, j)] in the order of the driver's loops. *)
Definition covered (dx dy : Dim.t) (i j c : Z) : Prop :=
  exists i' j', 0 <= i' < Dim.count dx /\ 0 <= j' < Dim.count dy /\
    (j' < j \/ (j' = j /\ i' < i)) /\
    interior dx i' (c mod Dim.size dx) /\ interior dy j' (c / Dim.size dx).

End BlockSpec.

(** ** An instance of the element type

    Rationals with one extra value for NaN.  Fractions are not
    normalised by the comparison, so that distinct representations of
    one number compare equal, as the two zeros of a floating-point
    type do. *)

Module Example.

Definition qlt (a b : Q) : bool := negb (Qle_bool b a).

#[global] Instance optQ_float : FloatT (option Q) := {|
  isnan := fun v => match v with None => true | Some _ => false end;
  flt := fun a b => match a, b with Some x, Some y => qlt x y | _, _ => false end;
  fadd := fun a b =>
    match a, b with Some x, Some y => Some (Qred (x + y)) | _, _ => None end;
  fdiv2 := fun a => match a with Some x => Some (Qred (x / 2)) | None => None end;
  quiet_NaN := None;
  fzero := Some 0%Q
|}.

Definition q (z : Z) : option Q := Some (inject_Z z).

Definition debug : Build := {| NDEBUG := false; NAIVE := false; AVX2 := false |}.
Definition release : Build := {| NDEBUG := true; NAIVE := false; AVX2 := true |}.

(** A window of 130 slots that holds the slots 5, 64, 70 and 129. *)
Definition window4 : Window.t :=
  {| Window.words := 3; Window.buf := [32; 65; 2];
     Window.half0 := 1; Window.half1 := 3; Window.p := 1 |}.

(** A rank table of four slots fed with 3, NaN, 1 and 2, whose window
    holds the slots 0, 1 and 2. *)
Definition feeds4 : list (option Q * Z) := [(q 3, 0); (None, 1); (q 1, 2); (q 2, 3)].




(** [median_filter_2d] on a fresh output buffer of NaNs. *)
Definition filter2d (cfg : Build) (X Y hx hy blockhint : Z) (inp : list (option Q))
  : outcome (option Q) :=
  median_filter_2d sort_pairs cfg 100 X Y hx hy blockhint inp
    (replicate (length inp) None).

End Example.
(** *** Properties of the bit primitives *)

Lemma count_bits_nonneg x n : 0 <= count_bits x n.
Proof. induction n; simpl; [lia|]. destruct (Z.testbit _ _); simpl; lia. Qed.

Lemma count_bits_le x n : count_bits x n <= Z.of_nat n.
Proof. induction n; simpl; [lia|]. destruct (Z.testbit _ _); simpl; lia. Qed.

Lemma count_bits_mono x n m : (n <= m)%nat -> count_bits x n <= count_bits x m.
Proof.
  induction 1; [lia|]. simpl. destruct (Z.testbit _ _); simpl; lia.
Qed.

Lemma count_bits_ext x y n :
  (forall i, 0 <= i < Z.of_nat n -> Z.testbit x i = Z.testbit y i) ->
  count_bits x n = count_bits y n.
Proof.
  induction n; intros H; simpl; [done|].
  rewrite IHn by (intros; apply H; lia). rewrite H by lia. done.
Qed.

Lemma count_bits_0 n : count_bits 0 n = 0.
Proof. induction n; simpl; [done|]. rewrite IHn, Z.bits_0. done. Qed.

(** A strictly larger count means a set bit in between. *)
Lemma count_bits_lt_set x n m :
  (n <= m)%nat -> count_bits x n < count_bits x m ->
  exists i, (n <= i < m)%nat /\ Z.testbit x (Z.of_nat i) = true.
Proof.
  induction 1 as [|m Hle IH]; [lia|]. simpl. intros Hlt.
  destruct (Z.testbit x (Z.of_nat m)) eqn:E.
  - exists m. split; [lia|done].
  - simpl in Hlt. destruct IH as (i & ? & ?); [lia|]. exists i. split; [lia|done].
Qed.

Lemma nth_set_bit_unique x n j1 j2 :
  nth_set_bit x n j1 -> nth_set_bit x n j2 -> j1 = j2.
Proof.
  intros (H1 & T1 & C1) (H2 & T2 & C2).
  destruct (Z.lt_trichotomy j1 j2) as [Hlt|[->|Hlt]]; [|done|]; exfalso.
  - pose proof (count_bits_mono x (S (Z.to_nat j1)) (Z.to_nat j2) ltac:(lia)) as Hm.
    simpl in Hm. rewrite Z2Nat.id, T1 in Hm by lia. simpl in Hm. lia.
  - pose proof (count_bits_mono x (S (Z.to_nat j2)) (Z.to_nat j1) ltac:(lia)) as Hm.
    simpl in Hm. rewrite Z2Nat.id, T2 in Hm by lia. simpl in Hm. lia.
Qed.

Lemma nth_set_bit_exists x n m :
  0 <= n < count_bits x m ->
  exists j, 0 <= j < Z.of_nat m /\ nth_set_bit x n j.
Proof.
  induction m as [|m IH]; simpl; [lia|]. intros Hn.
  destruct (Z.testbit x (Z.of_nat m)) eqn:E; simpl in Hn.
  - destruct (Z.eq_dec n (count_bits x m)) as [->|Hne].
    + exists (Z.of_nat m). split; [lia|]. repeat split; [lia|done|].
      by rewrite Nat2Z.id.
    + destruct IH as (j & ? & ?); [lia|]. exists j. split; [lia|done].
  - destruct IH as (j & ? & ?); [lia|]. exists j. split; [lia|done].
Qed.

Lemma nth_set_bit_lt_count x n j m :
  nth_set_bit x n j -> j < Z.of_nat m -> 0 <= n < count_bits x m.
Proof.
  intros (Hj & Tj & Cj) Hm. split; [subst; apply count_bits_nonneg|].
  pose proof (count_bits_mono x (S (Z.to_nat j)) m ltac:(lia)) as Hmono.
  simpl in Hmono. rewrite Z2Nat.id, Tj in Hmono by lia. simpl in Hmono. lia.
Qed.

(** Set bits are strictly ordered by the number of set bits below them. *)
Lemma nth_set_bit_mono x n1 n2 j1 j2 :
  nth_set_bit x n1 j1 -> nth_set_bit x n2 j2 -> n1 < n2 -> j1 < j2.
Proof.
  intros (H1 & T1 & C1) (H2 & T2 & C2) Hn.
  destruct (Z_lt_le_dec j1 j2) as [|Hle]; [done|exfalso].
  pose proof (count_bits_mono x (Z.to_nat j2) (Z.to_nat j1) ltac:(lia)). lia.
Qed.

Lemma ctz_from_spec n i x :
  (exists k, i <= k < i + Z.of_nat n /\ Z.testbit x k = true) ->
  i <= ctz_from n i x < i + Z.of_nat n /\
  Z.testbit x (ctz_from n i x) = true /\
  forall k, i <= k < ctz_from n i x -> Z.testbit x k = false.
Proof.
  revert i. induction n as [|n IH]; intros i (k & Hk & Tk); [lia|].
  simpl. destruct (Z.testbit x i) eqn:E.
  - repeat split; [lia|lia|done|lia].
  - destruct (IH (i + 1)) as (Hr & Ht & Hl).
    { exists k. split; [|done]. destruct (Z.eq_dec k i); [congruence|lia]. }
    repeat split; [lia|lia|done|].
    intros k' Hk'. destruct (Z.eq_dec k' i) as [->|]; [done|]. apply Hl. lia.
Qed.

(** The least significant set bit is the one with no set bit below it. *)
Lemma nth_set_bit_0 x j :
  nth_set_bit x 0 j <->
  0 <= j /\ Z.testbit x j = true /\ forall k, 0 <= k < j -> Z.testbit x k = false.
Proof.
  split.
  - intros (Hj & Tj & Cj). repeat split; [done..|]. intros k Hk.
    destruct (Z.testbit x k) eqn:E; [exfalso|done].
    pose proof (count_bits_mono x (S (Z.to_nat k)) (Z.to_nat j) ltac:(lia)) as Hm.
    simpl in Hm. rewrite Z2Nat.id, E in Hm by lia.
    pose proof (count_bits_nonneg x (Z.to_nat k)). simpl in Hm. lia.
  - intros (Hj & Tj & Hl). repeat split; [done..|].
    rewrite <- (count_bits_0 (Z.to_nat j)). apply count_bits_ext.
    intros i Hi. rewrite Z.bits_0. apply Hl. lia.
Qed.

Lemma ctzll_spec x j :
  0 <= j < 64 -> nth_set_bit x 0 j -> ctzll x = Ok j.
Proof.
  intros Hj Hn. apply nth_set_bit_0 in Hn as (_ & Tj & Hl). unfold ctzll.
  destruct (Z.eqb_spec x 0) as [->|_]; [by rewrite Z.bits_0 in Tj|].
  f_equal. destruct (ctz_from_spec 64 0 x) as (Hr & Ht & Hm).
  { exists j. split; [lia|done]. }
  destruct (Z.lt_trichotomy (ctz_from 64 0 x) j) as [Hlt|[Heq|Hgt]]; [|done|].
  - rewrite Hl in Ht by lia. done.
  - rewrite Hm in Tj by lia. done.
Qed.

(** [x & (x - 1)] clears the least significant set bit. *)
Lemma land_pred_testbit (k : nat) : forall x i,
  Z.testbit x (Z.of_nat k) = true ->
  (forall i, 0 <= i < Z.of_nat k -> Z.testbit x i = false) ->
  0 <= i ->
  Z.testbit (Z.land x (x - 1)) i = Z.testbit x i && negb (i =? Z.of_nat k).
Proof.
  induction k as [|k IH]; intros x i Tk Hl Hi.
  - change (Z.of_nat 0) with 0 in *. rewrite Z.bit0_odd in Tk.
    rewrite (Z.div2_odd x) at 1 2 3. rewrite Tk. simpl Z.b2z.
    replace (2 * Z.div2 x + 1 - 1) with (2 * Z.div2 x) by lia.
    rewrite Z.land_spec.
    destruct (Z.eqb_spec i 0) as [->|Hne].
    + rewrite Z.testbit_even_0. simpl. by rewrite !andb_false_r.
    + replace i with (Z.succ (i - 1)) by lia.
      rewrite Z.testbit_odd_succ, Z.testbit_even_succ by lia.
      simpl. by rewrite andb_diag, andb_true_r.
  - assert (Hodd : Z.odd x = false).
    { rewrite <- Z.bit0_odd. apply Hl. lia. }
    assert (Hx : x = 2 * Z.div2 x).
    { rewrite (Z.div2_odd x) at 1. rewrite Hodd. simpl. lia. }
    set (a := Z.div2 x) in *.
    assert (Ta : Z.testbit a (Z.of_nat k) = true).
    { rewrite <- Tk, Hx, Nat2Z.inj_succ. symmetry. apply Z.testbit_even_succ. lia. }
    assert (Hla : forall i, 0 <= i < Z.of_nat k -> Z.testbit a i = false).
    { intros i' Hi'. rewrite <- (Hl (Z.succ i')) by lia.
      rewrite Hx. symmetry. apply Z.testbit_even_succ. lia. }
    rewrite Hx. replace (2 * a - 1) with (2 * (a - 1) + 1) by lia.
    rewrite Z.land_spec.
    destruct (Z.eqb_spec i 0) as [->|Hne].
    + by rewrite Z.testbit_even_0.
    + replace i with (Z.succ (i - 1)) at 1 2 3 by lia.
      rewrite Z.testbit_odd_succ, Z.testbit_even_succ by lia.
      rewrite <- Z.land_spec, IH by (done || lia). f_equal. f_equal.
      apply eq_true_iff_eq. rewrite !Z.eqb_eq. lia.
Qed.

Lemma clear_lowest_testbit x j i :
  is_u64 x -> nth_set_bit x 0 j -> 0 <= i ->
  Z.testbit (clear_lowest x) i = Z.testbit x i && negb (i =? j).
Proof.
  intros Hx Hn Hi. apply nth_set_bit_0 in Hn as (Hj & Tj & Hl).
  unfold clear_lowest, wrap64. unfold is_u64 in Hx.
  assert (x <> 0) by (intros ->; by rewrite Z.bits_0 in Tj).
  rewrite Z.mod_small by lia.
  rewrite <- (Z2Nat.id j) in Tj, Hl |- * by lia.
  by apply land_pred_testbit.
Qed.

Lemma log2_u64 x : is_u64 x -> Z.log2 x < 64.
Proof.
  intros Hx. unfold is_u64 in Hx.
  destruct (Z.eq_dec x 0) as [->|]; [simpl; lia|]. apply Z.log2_lt_pow2; lia.
Qed.

Lemma u64_log2 x : 0 <= x -> Z.log2 x < 64 -> is_u64 x.
Proof.
  intros Hx Hl. split; [done|].
  destruct (Z.eq_dec x 0) as [->|]; [lia|]. apply Z.log2_lt_pow2; lia.
Qed.

Lemma land_u64 x y : is_u64 x -> 0 <= y -> is_u64 (Z.land x y).
Proof.
  intros Hx Hy. pose proof (log2_u64 x Hx). unfold is_u64 in Hx.
  apply u64_log2; [apply Z.land_nonneg; lia|].
  pose proof (Z.log2_land x y ltac:(lia) Hy). lia.
Qed.

Lemma lxor_u64 x y : is_u64 x -> is_u64 y -> is_u64 (Z.lxor x y).
Proof.
  intros Hx Hy. pose proof (log2_u64 x Hx). pose proof (log2_u64 y Hy).
  unfold is_u64 in Hx, Hy.
  apply u64_log2; [apply Z.lxor_nonneg; lia|].
  pose proof (Z.log2_lxor x y ltac:(lia) ltac:(lia)). lia.
Qed.

Lemma clear_lowest_u64 x : is_u64 x -> is_u64 (clear_lowest x).
Proof.
  intros Hx. apply land_u64; [done|].
  apply Z.mod_pos_bound. lia.
Qed.

Lemma count_bits_clear_lowest x j n :
  is_u64 x -> nth_set_bit x 0 j ->
  count_bits (clear_lowest x) n = count_bits x n - (if j <? Z.of_nat n then 1 else 0).
Proof.
  intros Hx Hn. pose proof Hn as (Hj & Tj & _).
  induction n as [|n IH]; cbn [count_bits].
  - destruct (Z.ltb_spec j (Z.of_nat 0)); lia.
  - rewrite IH, (clear_lowest_testbit x j) by (done || lia).
    destruct (Z.eqb_spec (Z.of_nat n) j) as [Heq|Hne].
    + rewrite Heq, Tj. cbn [negb andb Z.b2z].
      destruct (Z.ltb_spec j (Z.of_nat n)),
               (Z.ltb_spec j (Z.of_nat (S n))); rewrite ?Z.ltb_irrefl; lia.
    + cbn [negb]. rewrite andb_true_r.
      destruct (Z.ltb_spec j (Z.of_nat n)), (Z.ltb_spec j (Z.of_nat (S n))); lia.
Qed.

Lemma nth_set_bit_clear_lowest x n j :
  is_u64 x -> 0 <= n -> nth_set_bit x (n + 1) j -> nth_set_bit (clear_lowest x) n j.
Proof.
  intros Hx Hn (Hj & Tj & Cj).
  destruct (nth_set_bit_exists x 0 (Z.to_nat j)) as (l & Hl & Hl0); [lia|].
  repeat split; [done| |].
  - rewrite (clear_lowest_testbit x l) by done. rewrite Tj. simpl.
    destruct (Z.eqb_spec j l); [lia|done].
  - rewrite (count_bits_clear_lowest x l) by done.
    destruct (Z.ltb_spec l (Z.of_nat (Z.to_nat j))); lia.
Qed.

Lemma findnth64_portable x : forall n j,
  is_u64 x -> 0 <= j < 64 -> nth_set_bit x (Z.of_nat n) j ->
  ctzll (Nat.iter n clear_lowest x) = Ok j.
Proof.
  intros n. revert x. induction n as [|n IH]; intros x j Hx Hj Hn.
  - simpl. by apply ctzll_spec.
  - rewrite Nat.iter_succ_r. apply IH; [by apply clear_lowest_u64|done|].
    apply nth_set_bit_clear_lowest; [done|lia|].
    by replace (Z.of_nat n + 1) with (Z.of_nat (S n)) by lia.
Qed.

(** Bit [i] of the deposit: bit [i] of the mask, and the source bit
    numbered by the set mask bits below [i]. *)
Lemma pdep_loop_testbit src mask : forall (r m : nat) dest i,
  0 <= i ->
  (forall i', Z.of_nat m <= i' -> Z.testbit dest i' = false) ->
  Z.testbit (pdep_loop r (Z.of_nat m) (count_bits mask m) src mask dest) i =
  if (Z.of_nat m <=? i) && (i <? Z.of_nat m + Z.of_nat r) then
    Z.testbit mask i && Z.testbit src (count_bits mask (Z.to_nat i))
  else Z.testbit dest i.
Proof.
  induction r as [|r IH]; intros m dest i Hi Hd; simpl pdep_loop.
  - destruct (Z.leb_spec (Z.of_nat m) i), (Z.ltb_spec i (Z.of_nat m + Z.of_nat 0));
      simpl; (done || lia).
  - replace (Z.of_nat m + 1) with (Z.of_nat (S m)) by lia.
    assert (Hstep : forall k dest',
      (forall i', Z.of_nat (S m) <= i' -> Z.testbit dest' i' = false) ->
      Z.testbit dest' (Z.of_nat m) =
        Z.testbit mask (Z.of_nat m) && Z.testbit src (count_bits mask m) ->
      (forall i', 0 <= i' < Z.of_nat m -> Z.testbit dest' i' = Z.testbit dest i') ->
      k = count_bits mask (S m) ->
      Z.testbit (pdep_loop r (Z.of_nat (S m)) k src mask dest') i =
      (if (Z.of_nat m <=? i) && (i <? Z.of_nat m + Z.of_nat (S r))
       then Z.testbit mask i && Z.testbit src (count_bits mask (Z.to_nat i))
       else Z.testbit dest i)).
    { intros k dest' Hd' Hm Hlow ->. rewrite IH by done.
      destruct (Z.leb_spec (Z.of_nat (S m)) i), (Z.leb_spec (Z.of_nat m) i),
        (Z.ltb_spec i (Z.of_nat (S m) + Z.of_nat r)),
        (Z.ltb_spec i (Z.of_nat m + Z.of_nat (S r))); simpl; try lia; try done.
      - rewrite Hd', Hd by lia. done.
      - assert (i = Z.of_nat m) as -> by lia. by rewrite Nat2Z.id.
      - apply Hlow. lia. }
    destruct (Z.testbit mask (Z.of_nat m)) eqn:E.
    + apply Hstep.
      * intros i' Hi'. destruct (Z.testbit src (count_bits mask m)).
        -- rewrite Z.setbit_neq by lia. apply Hd. lia.
        -- apply Hd. lia.
      * destruct (Z.testbit src (count_bits mask m)).
        -- by rewrite Z.setbit_eq by lia.
        -- apply Hd. lia.
      * intros i' Hi'. destruct (Z.testbit src (count_bits mask m)); [|done].
        rewrite Z.setbit_neq by lia. done.
      * simpl. by rewrite E.
    + apply Hstep.
      * intros i' Hi'. apply Hd. lia.
      * apply Hd. lia.
      * done.
      * simpl. rewrite E. simpl. lia.
Qed.

Lemma pdep_u64_testbit src mask i :
  0 <= i ->
  Z.testbit (pdep_u64 src mask) i =
  (i <? 64) && Z.testbit mask i && Z.testbit src (count_bits mask (Z.to_nat i)).
Proof.
  intros Hi. unfold pdep_u64.
  change (pdep_loop 64 0 0 src mask 0)
    with (pdep_loop 64 (Z.of_nat 0) (count_bits mask 0) src mask 0).
  rewrite pdep_loop_testbit; [|done|intros; apply Z.bits_0].
  change (Z.of_nat 0 + Z.of_nat 64) with 64. change (Z.of_nat 0) with 0.
  destruct (Z.leb_spec 0 i); [|lia].
  destruct (Z.ltb_spec i 64); cbn [andb]; [done|apply Z.bits_0].
Qed.

Lemma findnth64_pdep x n j :
  0 <= n < 64 -> 0 <= j < 64 -> nth_set_bit x n j ->
  ctzll (pdep_u64 (wrap64 (Z.shiftl ONE64 n)) x) = Ok j.
Proof.
  intros Hn Hj (_ & Tj & Cj). unfold ONE64, wrap64.
  rewrite Z.shiftl_1_l, Z.mod_small
    by (split; [apply Z.pow_nonneg; lia | apply Z.pow_lt_mono_r; lia]).
  apply ctzll_spec; [done|]. apply nth_set_bit_0. repeat split; [lia| |].
  - rewrite pdep_u64_testbit, Tj, Cj, Z.pow2_bits_eqb, Z.eqb_refl by lia.
    destruct (Z.ltb_spec j 64); [done|lia].
  - intros k Hk. rewrite pdep_u64_testbit, Z.pow2_bits_eqb by lia.
    destruct (Z.testbit x k) eqn:E; [|by rewrite andb_false_r].
    destruct (Z.eqb_spec n (count_bits x (Z.to_nat k))) as [Heq|]; [|by rewrite andb_false_r].
    exfalso. assert (k = j); [|lia].
    apply (nth_set_bit_unique x n); repeat split; (done || lia).
Qed.

Lemma popcnt64_bounds x : 0 <= popcnt64 x <= 64.
Proof.
  unfold popcnt64. split; [apply count_bits_nonneg|]. exact (count_bits_le x 64).
Qed.

Lemma nth_set_bit_exists64 x n :
  0 <= n < popcnt64 x -> exists j, 0 <= j < 64 /\ nth_set_bit x n j.
Proof. exact (nth_set_bit_exists x n 64). Qed.

(** [findnth64] is exact on both of its code paths. *)
Lemma findnth64_spec cfg x n :
  is_u64 x -> 0 <= n < popcnt64 x ->
  exists j, findnth64 cfg x n = Ok j /\ 0 <= j < 64 /\ nth_set_bit x n j.
Proof.
  intros Hx Hn. pose proof (popcnt64_bounds x) as Hb.
  destruct (nth_set_bit_exists64 x n Hn) as (j & Hj & Hnth).
  exists j. split; [|split; assumption].
  unfold findnth64. destruct (AVX2 cfg).
  - apply findnth64_pdep; [lia|assumption|assumption].
  - apply findnth64_portable; [assumption|assumption|].
    rewrite Z2Nat.id by lia. assumption.
Qed.

(** *** Block geometry: [Dim] and [BDim] *)

Lemma calc_count_spec b size h :
  2 * h + 1 < b -> b < size ->
  (Dim.calc_count b size h - 1) * (b - 2 * h) < size - 2 * h
    <= Dim.calc_count b size h * (b - 2 * h).
Proof.
  intros Hb Hs. unfold Dim.calc_count, Dim.calc_step.
  destruct (Z.leb_spec size b); [lia|]. cbv zeta.
  rewrite Z.quot_div_nonneg by lia.
  set (st := b - 2 * h). set (a := size - 2 * h + st - 1).
  pose proof (Z.div_mod a st ltac:(lia)).
  pose proof (Z.mod_pos_bound a st ltac:(lia)). nia.
Qed.

Lemma calc_count_small b size h : size <= b -> Dim.calc_count b size h = 1.
Proof. intros. unfold Dim.calc_count. destruct (Z.leb_spec size b); [done|lia]. Qed.

Lemma assert_true cfg c : c = true -> assert cfg c = Ok tt.
Proof. by intros ->. Qed.

Lemma Dim_make_ok cfg b size h :
  2 * h + 1 < b -> 1 <= size ->
  Dim.make cfg b size h =
    Ok {| Dim.size := size; Dim.h := h; Dim.step := Dim.calc_step b h;
          Dim.count := Dim.calc_count b size h |} /\
  1 <= Dim.calc_count b size h /\
  size <= 2 * h + Dim.calc_count b size h * (b - 2 * h) /\
  (2 * h + (Dim.calc_count b size h - 1) * (b - 2 * h) < size \/
   Dim.calc_count b size h = 1).
Proof.
  intros Hb Hs.
  assert (Hc : 1 <= Dim.calc_count b size h /\
    size <= 2 * h + Dim.calc_count b size h * (b - 2 * h) /\
    (2 * h + (Dim.calc_count b size h - 1) * (b - 2 * h) < size \/
     Dim.calc_count b size h = 1)).
  { destruct (Z_le_gt_dec size b) as [Hle|Hgt].
    - rewrite calc_count_small by done. lia.
    - pose proof (calc_count_spec b size h Hb ltac:(lia)). nia. }
  split; [|exact Hc]. destruct Hc as (H1 & H2 & H3).
  unfold Dim.make. cbn [Dim.size Dim.h Dim.step Dim.count]. unfold Dim.calc_step.
  rewrite (assert_true _ (2 * h + 1 <? b)) by lia. cbn [mbind result_bind].
  rewrite (assert_true _ (_ >=? 1)) by lia. cbn [mbind result_bind].
  rewrite (assert_true _ (_ >=? size)) by lia. cbn [mbind result_bind].
  rewrite (assert_true _ (_ || _)); [done|].
  apply orb_true_iff. destruct H3 as [H3|H3]; [left|right]; lia.
Qed.

Lemma Dim_make_valid cfg b size h d :
  2 * h + 1 < b -> 1 <= size -> 0 <= h ->
  Dim.make cfg b size h = Ok d ->
  Dim_valid b d /\ Dim.size d = size /\ Dim.h d = h.
Proof.
  intros Hb Hs Hh Hmk.
  destruct (Dim_make_ok cfg b size h Hb Hs) as (Heq & H1 & H2 & H3).
  rewrite Heq in Hmk. injection Hmk as <-.
  unfold Dim_valid. cbn [Dim.size Dim.h Dim.step Dim.count]. unfold Dim.calc_step.
  repeat split; (done || lia).
Qed.

(** The fields of tile [i]. *)
Lemma BDim_set_fields i bd :
  let bd' := BDim.set i bd in
  let d := BDim.dim bd in
  BDim.dim bd' = d /\
  BDim.start bd' = Dim.step d * i /\
  BDim.size bd' = (if i + 1 =? Dim.count d then Dim.size d
                   else 2 * Dim.h d + (i + 1) * Dim.step d) - Dim.step d * i /\
  BDim.b0 bd' = (if i =? 0 then 0 else Dim.h d) /\
  BDim.b1 bd' = (if i + 1 =? Dim.count d then BDim.size bd'
                 else BDim.size bd' - Dim.h d).
Proof. done. Qed.

(** Tile [i] of a valid axis: its extent lies in the image, is at most
    [b] long, and its interior is not empty. *)
Lemma BDim_set_bounds b d i bd :
  Dim_valid b d -> BDim.dim bd = d -> 0 <= i < Dim.count d ->
  let bd' := BDim.set i bd in
  0 <= BDim.start bd' /\
  0 < BDim.size bd' <= b /\
  BDim.start bd' + BDim.size bd' <= Dim.size d /\
  0 <= BDim.b0 bd' < BDim.b1 bd' /\ BDim.b1 bd' <= BDim.size bd'.
Proof.
  intros (Hs & Hh & Hb & Hst & Hc & Hcov & Hlast) Hd Hi bd'.
  destruct (BDim_set_fields i bd) as (_ & E1 & E2 & E3 & E4).
  fold bd' in E1, E2, E3, E4. rewrite Hd in E1, E2, E3, E4.
  rewrite E4, E3, E2, E1. clear E1 E2 E3 E4. rewrite Hst in *.
  destruct (Z.eqb_spec (i + 1) (Dim.count d)) as [El|El],
           (Z.eqb_spec i 0) as [Ef|Ef]; nia.
Qed.

(** The window of an interior coordinate, in image coordinates, is the
    clipped window of the image. *)
Lemma BDim_window_clip cfg b d i bd v :
  Dim_valid b d -> BDim.dim bd = d -> 0 <= i < Dim.count d ->
  let bd' := BDim.set i bd in
  BDim.b0 bd' <= v < BDim.b1 bd' ->
  exists lo hi,
    BDim.w0 cfg v bd' = Ok lo /\ BDim.w1 cfg v bd' = Ok hi /\
    0 <= lo <= v /\ v < hi <= BDim.size bd' /\
    BDim.start bd' + lo = Z.max 0 (BDim.start bd' + v - Dim.h d) /\
    BDim.start bd' + hi = Z.min (Dim.size d) (BDim.start bd' + v + Dim.h d + 1).
Proof.
  intros Hv Hd Hi bd' Hin.
  pose proof (BDim_set_bounds b d i bd Hv Hd Hi) as Hbd. fold bd' in Hbd.
  destruct Hv as (Hs & Hh & Hb & Hst & Hc & Hcov & Hlast).
  destruct (BDim_set_fields i bd) as (E0 & E1 & E2 & E3 & E4).
  fold bd' in E0, E1, E2, E3, E4. rewrite Hd in E0, E1, E2, E3, E4.
  unfold BDim.w0, BDim.w1.
  rewrite (assert_true _ (_ <=? _)), (assert_true _ (_ <? _)) by lia.
  cbn [mbind result_bind mret result_ret]. rewrite E0.
  eexists _, _. split; [done|]. split; [done|].
  rewrite E4, E3 in Hin. rewrite E2 in Hin |- *. rewrite E1 in *. rewrite Hst in *.
  destruct (Z.eqb_spec (i + 1) (Dim.count d)) as [El|El],
           (Z.eqb_spec i 0) as [Ef|Ef]; nia.
Qed.

Lemma interior_unfold d i v :
  interior d i v <->
  Dim.step d * i + (if i =? 0 then 0 else Dim.h d) <= v /\
  v < (if i + 1 =? Dim.count d then Dim.size d
       else Dim.h d + (i + 1) * Dim.step d).
Proof.
  unfold interior. cbv zeta.
  destruct (BDim_set_fields i (BDim.make d)) as (_ & E1 & E2 & E3 & E4).
  change (BDim.dim (BDim.make d)) with d in *.
  rewrite E4, E3, E2, E1.
  destruct (Z.eqb_spec (i + 1) (Dim.count d)), (Z.eqb_spec i 0); lia.
Qed.

Lemma axis_partition_valid b d : Dim_valid b d -> axis_partition d.
Proof.
  intros (Hs & Hh & Hb & Hst & Hc & Hcov & Hlast). split.
  - intros v. split.
    + intros Hv.
      (* the tile of [v]: [(v - h) / step], clipped to [[0, count)] *)
      set (k := Z.max 0 (Z.min (Dim.count d - 1) ((v - Dim.h d) / Dim.step d))).
      exists k. split; [lia|]. apply interior_unfold.
      pose proof (Z.div_mod (v - Dim.h d) (Dim.step d) ltac:(lia)) as Hdm.
      pose proof (Z.mod_pos_bound (v - Dim.h d) (Dim.step d) ltac:(lia)) as Hmb.
      set (q := (v - Dim.h d) / Dim.step d) in *.
      destruct (Z.eqb_spec (k + 1) (Dim.count d)), (Z.eqb_spec k 0); nia.
    + intros (i & Hi & Hin). apply interior_unfold in Hin.
      destruct (Z.eqb_spec (i + 1) (Dim.count d)), (Z.eqb_spec i 0); nia.
  - intros i j v Hi Hj Hin1 Hin2.
    apply interior_unfold in Hin1. apply interior_unfold in Hin2.
    destruct (Z.eqb_spec (i + 1) (Dim.count d)), (Z.eqb_spec i 0),
             (Z.eqb_spec (j + 1) (Dim.count d)), (Z.eqb_spec j 0); nia.
Qed.

(** C7: for every [b], [size], [h] with [2h + 1 < b] and [size >= 1],
    the constructor of [Dim] passes its four assertions, in every
    build; the [Dim] it constructs has [step = b - 2h] and [count = 1]
    if [size <= b], else the ceiling of [(size - 2h) / step], and
    satisfies [count >= 1], [2h + count * step >= size] and
    [2h + (count - 1) * step < size] or [count = 1]. *)
Theorem Dim_constructor_assertions cfg b size h :
  2 * h + 1 < b -> 1 <= size ->
  exists d, Dim.make cfg b size h = Ok d /\
    Dim.size d = size /\ Dim.h d = h /\ Dim.step d = b - 2 * h /\
    (if size <=? b then Dim.count d = 1
     else (Dim.count d - 1) * Dim.step d < size - 2 * h
            <= Dim.count d * Dim.step d) /\
    1 <= Dim.count d /\
    size <= 2 * h + Dim.count d * Dim.step d /\
    (2 * h + (Dim.count d - 1) * Dim.step d < size \/ Dim.count d = 1).
Proof.
  intros Hb Hs.
  destruct (Dim_make_ok cfg b size h Hb Hs) as (Heq & H1 & H2 & H3).
  eexists. split; [exact Heq|].
  cbn [Dim.size Dim.h Dim.step Dim.count]. unfold Dim.calc_step.
  repeat split; try done.
  destruct (Z.leb_spec size b).
  - by apply calc_count_small.
  - apply calc_count_spec; lia.
Qed.

Lemma Dim_constructor_assertions_witness :
  exists d, Dim.make Example.debug 8 20 1 = Ok d /\
    Dim.size d = 20 /\ Dim.h d = 1 /\ Dim.step d = 8 - 2 * 1 /\
    (if 20 <=? 8 then Dim.count d = 1
     else (Dim.count d - 1) * Dim.step d < 20 - 2 * 1
            <= Dim.count d * Dim.step d) /\
    1 <= Dim.count d /\
    20 <= 2 * 1 + Dim.count d * Dim.step d /\
    (2 * 1 + (Dim.count d - 1) * Dim.step d < 20 \/ Dim.count d = 1).
Proof. apply (Dim_constructor_assertions Example.debug 8 20 1); lia. Defined.

(** C8: for an axis with [size >= 1], radius [h >= 0] and [2h + 1 < b],
    the interiors [[start + b0, start + b1)] of the tiles
    [0 <= i < count] are pairwise disjoint and cover exactly
    [[0, size)]; hence every cell of the image lies in the interior of
    exactly one block. *)
Theorem block_interiors_partition cfg b X Y hx hy dx dy :
  1 <= X -> 1 <= Y -> 0 <= hx -> 0 <= hy ->
  2 * hx + 1 < b -> 2 * hy + 1 < b ->
  Dim.make cfg b X hx = Ok dx -> Dim.make cfg b Y hy = Ok dy ->
  axis_partition dx /\ axis_partition dy /\
  (forall x y, 0 <= x < X /\ 0 <= y < Y <->
     exists i j, (0 <= i < Dim.count dx /\ 0 <= j < Dim.count dy) /\
                 interior dx i x /\ interior dy j y) /\
  (forall i j i' j' x y,
     0 <= i < Dim.count dx -> 0 <= j < Dim.count dy ->
     0 <= i' < Dim.count dx -> 0 <= j' < Dim.count dy ->
     interior dx i x /\ interior dy j y ->
     interior dx i' x /\ interior dy j' y -> i = i' /\ j = j').
Proof.
  intros HX HY Hhx Hhy Hbx Hby Hdx Hdy.
  destruct (Dim_make_valid cfg b X hx dx Hbx HX Hhx Hdx) as (Vx & Sx & _).
  destruct (Dim_make_valid cfg b Y hy dy Hby HY Hhy Hdy) as (Vy & Sy & _).
  pose proof (axis_partition_valid b dx Vx) as Px.
  pose proof (axis_partition_valid b dy Vy) as Py.
  split; [exact Px|]. split; [exact Py|].
  destruct Px as (Cx & Ux), Py as (Cy & Uy). rewrite Sx in Cx. rewrite Sy in Cy.
  split.
  - intros x y. split.
    + intros (Hx & Hy). apply Cx in Hx as (i & Hi & Hix).
      apply Cy in Hy as (j & Hj & Hjy). by exists i, j.
    + intros (i & j & (Hi & Hj) & Hix & Hjy). split.
      * apply Cx. by exists i.
      * apply Cy. by exists j.
  - intros i j i' j' x y Hi Hj Hi' Hj' (H1 & H2) (H3 & H4). split.
    + by apply (Ux i i' x).
    + by apply (Uy j j' y).
Qed.

Lemma block_interiors_partition_witness :
  let dx := {| Dim.size := 20; Dim.h := 1; Dim.step := 6; Dim.count := 3 |} in
  let dy := {| Dim.size := 9; Dim.h := 2; Dim.step := 4; Dim.count := 2 |} in
  axis_partition dx /\ axis_partition dy /\
  (forall x y, 0 <= x < 20 /\ 0 <= y < 9 <->
     exists i j, (0 <= i < Dim.count dx /\ 0 <= j < Dim.count dy) /\
                 interior dx i x /\ interior dy j y) /\
  (forall i j i' j' x y,
     0 <= i < Dim.count dx -> 0 <= j < Dim.count dy ->
     0 <= i' < Dim.count dx -> 0 <= j' < Dim.count dy ->
     interior dx i x /\ interior dy j y ->
     interior dx i' x /\ interior dy j' y -> i = i' /\ j = j').
Proof.
  apply (block_interiors_partition Example.debug 8 20 9 1 2); (lia || reflexivity).
Defined.

(** *** Arrays *)

Lemma rd_Ok {A : Type} (a : list A) i v :
  rd a i = Ok v <-> 0 <= i /\ a !! Z.to_nat i = Some v.
Proof.
  unfold rd. split.
  - destruct (Z.leb_spec 0 i), (Z.ltb_spec i (Z.of_nat (length a))); cbn; try done.
    destruct (a !! Z.to_nat i); [|done]. by intros [= ->].
  - intros (Hi & Hl). pose proof (lookup_lt_Some _ _ _ Hl).
    destruct (Z.leb_spec 0 i), (Z.ltb_spec i (Z.of_nat (length a))); cbn; try lia.
    by rewrite Hl.
Qed.

Lemma rd_in_range {A : Type} (a : list A) i :
  0 <= i < Z.of_nat (length a) ->
  exists v, rd a i = Ok v /\ a !! Z.to_nat i = Some v.
Proof.
  intros Hi. destruct (lookup_lt_is_Some_2 a (Z.to_nat i)) as (v & Hv); [lia|].
  exists v. split; [|done]. apply rd_Ok. split; [lia|done].
Qed.

Lemma wr_at_Ok {A : Type} (a : list A) i v a' :
  wr_at a i v = Ok a' <->
  0 <= i < Z.of_nat (length a) /\ a' = <[Z.to_nat i := v]> a.
Proof.
  unfold wr_at.
  destruct (Z.leb_spec 0 i), (Z.ltb_spec i (Z.of_nat (length a))); cbn;
    (split; [intros [= <-]; (done || lia) | intros (? & ->); (done || lia)]).
Qed.

(** *** Loops *)

Lemma for_range_empty {St : Type} lo hi (body : Z -> St -> result St) s :
  hi <= lo -> for_range lo hi body s = Ok s.
Proof.
  intros Hle. unfold for_range, seqZ. by replace (Z.to_nat (hi - lo)) with 0%nat by lia.
Qed.

Lemma for_each_app {St : Type} l1 l2 (body : Z -> St -> result St) s :
  for_each (l1 ++ l2) body s = s' ← for_each l1 body s; for_each l2 body s'.
Proof.
  revert s. induction l1 as [|i l1 IH]; intros s; [done|]. cbn.
  destruct (body i s); cbn; [apply IH|done].
Qed.

(** A loop invariant [I k s], at the head of the iteration for [k]. *)
Lemma for_range_ind {St : Type} (I : Z -> St -> Prop) lo hi
    (body : Z -> St -> result St) s :
  lo <= hi -> I lo s ->
  (forall k s, lo <= k < hi -> I k s -> exists s', body k s = Ok s' /\ I (k + 1) s') ->
  exists s', for_range lo hi body s = Ok s' /\ I hi s'.
Proof.
  intros Hle H0 Hstep. unfold for_range.
  assert (Hgen : forall n k s, k = hi - Z.of_nat n -> lo <= k -> I k s ->
            exists s', for_each (seqZ k (Z.of_nat n)) body s = Ok s' /\ I hi s').
  { induction n as [|n IH]; intros k s0 Hk Hlo HI.
    - exists s0. split; [done|]. by replace hi with k by lia.
    - rewrite seqZ_cons by lia. cbn.
      destruct (Hstep k s0) as (s1 & -> & H1); [lia|done|]. cbn.
      replace (Z.pred (Z.of_nat (S n))) with (Z.of_nat n) by lia.
      replace (Z.succ k) with (k + 1) by lia. apply IH; [lia|lia|done]. }
  destruct (Hgen (Z.to_nat (hi - lo)) lo s) as (s' & Hs' & HI); [lia|lia|done|].
  rewrite Z2Nat.id in Hs' by lia. by exists s'.
Qed.

(** *** Sums of popcounts *)

Lemma popsum_app l1 l2 : popsum (l1 ++ l2) = popsum l1 + popsum l2.
Proof. unfold popsum. induction l1 as [|x l1 IH]; cbn [foldr app]; lia. Qed.

Lemma popsum_cons x l : popsum (x :: l) = popcnt64 x + popsum l.
Proof. done. Qed.

Lemma popsum_nonneg l : 0 <= popsum l.
Proof.
  induction l as [|x l IH]; [done|]. rewrite popsum_cons.
  pose proof (popcnt64_bounds x). lia.
Qed.

Lemma popsum_take_drop l n : popsum l = popsum (take n l) + popsum (drop n l).
Proof. by rewrite <- popsum_app, take_drop. Qed.

Lemma popsum_insert l k x y :
  l !! k = Some x -> popsum (<[k:=y]> l) = popsum l - popcnt64 x + popcnt64 y.
Proof.
  intros Hk. pose proof (lookup_lt_Some _ _ _ Hk).
  rewrite insert_take_drop by done.
  rewrite (popsum_take_drop l k), (drop_S l x k Hk).
  rewrite popsum_app, !popsum_cons. lia.
Qed.

Lemma popcnt64_0 : popcnt64 0 = 0.
Proof. unfold popcnt64. apply count_bits_0. Qed.

Lemma popsum_replicate_0 n : popsum (replicate n 0) = 0.
Proof.
  induction n as [|n IH]; [done|].
  rewrite replicate_S, popsum_cons, popcnt64_0, IH. done.
Qed.

(** *** Bits of the buffer *)

Lemma bit_at_neg b s : s < 0 -> bit_at b s = false.
Proof. intros Hs. unfold bit_at. destruct (Z.leb_spec 0 s); [lia|done]. Qed.

Lemma bit_at_word b (k : nat) x j :
  b !! k = Some x -> 0 <= j < 64 -> bit_at b (64 * Z.of_nat k + j) = Z.testbit x j.
Proof.
  intros Hk Hj. unfold bit_at.
  replace (64 * Z.of_nat k + j) with (j + Z.of_nat k * 64) by lia.
  rewrite Z.div_add, Z.mod_add, Z.div_small, Z.mod_small by lia.
  rewrite Z.add_0_l, Nat2Z.id, Hk.
  destruct (Z.leb_spec 0 (j + Z.of_nat k * 64)); [done|lia].
Qed.

Lemma bit_at_split b s :
  0 <= s ->
  bit_at b s = match b !! Z.to_nat (s / 64) with
               | Some x => Z.testbit x (s mod 64)
               | None => false
               end.
Proof. intros Hs. unfold bit_at. destruct (Z.leb_spec 0 s); [done|lia]. Qed.

Lemma bit_at_range b s : bit_at b s = true -> 0 <= s < 64 * Z.of_nat (length b).
Proof.
  intros Hb. destruct (Z_lt_le_dec s 0) as [Hn|Hn]; [by rewrite bit_at_neg in Hb|].
  rewrite bit_at_split in Hb by done.
  destruct (b !! Z.to_nat (s / 64)) eqn:E; [|done].
  apply lookup_lt_Some in E.
  pose proof (Z.div_mod s 64 ltac:(lia)). pose proof (Z.mod_pos_bound s 64 ltac:(lia)).
  pose proof (Z.div_pos s 64 ltac:(lia) ltac:(lia)). lia.
Qed.

Lemma count_set_nonneg b n : 0 <= count_set b n.
Proof. induction n; cbn [count_set]; [lia|]. destruct (bit_at _ _); cbn; lia. Qed.

Lemma count_set_mono b n m : (n <= m)%nat -> count_set b n <= count_set b m.
Proof.
  induction 1; [lia|]. cbn [count_set]. destruct (bit_at _ _); cbn; lia.
Qed.

Lemma count_set_ext b b' n :
  (forall i, 0 <= i < Z.of_nat n -> bit_at b i = bit_at b' i) ->
  count_set b n = count_set b' n.
Proof.
  induction n as [|n IH]; intros Hb; [done|]. cbn [count_set].
  rewrite IH by (intros; apply Hb; lia). rewrite Hb by lia. done.
Qed.

Lemma count_set_word b (k : nat) x : forall j : nat,
  b !! k = Some x -> (j <= 64)%nat ->
  count_set b (64 * k + j) = count_set b (64 * k) + count_bits x j.
Proof.
  intros j Hk. induction j as [|j IH]; intros Hj.
  - rewrite Nat.add_0_r. cbn [count_bits]. lia.
  - replace (64 * k + S j)%nat with (S (64 * k + j)) by lia.
    cbn [count_set count_bits]. rewrite IH by lia.
    replace (Z.of_nat (64 * k + j)) with (64 * Z.of_nat k + Z.of_nat j) by lia.
    rewrite (bit_at_word b k x) by (done || lia). lia.
Qed.

Lemma count_set_words b : forall k : nat,
  (k <= length b)%nat -> count_set b (64 * k) = popsum (take k b).
Proof.
  induction k as [|k IH]; intros Hk; [done|].
  destruct (lookup_lt_is_Some_2 b k) as (x & Hx); [lia|].
  replace (64 * S k)%nat with (64 * k + 64)%nat by lia.
  rewrite (count_set_word b k x 64 Hx) by lia. rewrite IH by lia.
  rewrite (take_S_r b k x Hx), popsum_app, popsum_cons. cbn [popsum foldr].
  unfold popcnt64. lia.
Qed.

Lemma count_set_all b : count_set b (64 * length b) = popsum b.
Proof. rewrite count_set_words by lia. by rewrite firstn_all. Qed.

Lemma nth_set_unique b g i1 i2 : nth_set b g i1 -> nth_set b g i2 -> i1 = i2.
Proof.
  intros (H1 & T1 & C1) (H2 & T2 & C2).
  destruct (Z.lt_trichotomy i1 i2) as [Hlt|[->|Hlt]]; [|done|]; exfalso.
  - pose proof (count_set_mono b (S (Z.to_nat i1)) (Z.to_nat i2) ltac:(lia)) as Hm.
    cbn [count_set] in Hm. rewrite Z2Nat.id, T1 in Hm by lia. cbn in Hm. lia.
  - pose proof (count_set_mono b (S (Z.to_nat i2)) (Z.to_nat i1) ltac:(lia)) as Hm.
    cbn [count_set] in Hm. rewrite Z2Nat.id, T2 in Hm by lia. cbn in Hm. lia.
Qed.

(** Set bits are strictly ordered by the number of set bits below them. *)
Lemma nth_set_mono b g1 g2 i1 i2 :
  nth_set b g1 i1 -> nth_set b g2 i2 -> g1 < g2 -> i1 < i2.
Proof.
  intros (H1 & T1 & C1) (H2 & T2 & C2) Hg.
  destruct (Z_lt_le_dec i1 i2) as [|Hle]; [done|exfalso].
  pose proof (count_set_mono b (Z.to_nat i2) (Z.to_nat i1) ltac:(lia)). lia.
Qed.

(** *** [Window::find] *)

Lemma Window_inv_size w : Window_inv w -> Window.size w = popsum (Window.buf w).
Proof.
  intros (_ & _ & _ & H0 & H1). unfold Window.size. rewrite H0, H1.
  symmetry. apply popsum_take_drop.
Qed.

Lemma find_down_spec goal : forall fuel w,
  Window_inv w -> 0 <= goal -> (Z.to_nat (Window.p w) <= fuel)%nat ->
  exists w', Window.find_down fuel goal w = Ok w' /\ Window_inv w' /\
    Window.buf w' = Window.buf w /\ Window.words w' = Window.words w /\
    Window.half0 w' <= goal.
Proof.
  induction fuel as [|fuel IH]; intros w Hinv Hg Hf; cbn [Window.find_down];
    destruct (Z.gtb_spec (Window.half0 w) goal) as [Hgt|Hle];
    try (by exists w); destruct Hinv as (Hlen & Hu & Hp & H0 & H1).
  - exfalso. replace (Z.to_nat (Window.p w)) with 0%nat in H0 by lia.
    rewrite take_0 in H0. change (popsum []) with 0 in H0. lia.
  - assert (0 < Window.p w) as Hpos.
    { destruct (Z.eq_dec (Window.p w) 0) as [E|]; [|lia].
      rewrite E in H0. change (popsum (take (Z.to_nat 0) (Window.buf w))) with 0 in H0.
      lia. }
    destruct (rd_in_range (Window.buf w) (Window.p w - 1)) as (x & Hrd & Hx); [lia|].
    rewrite Hrd. cbn [mbind result_bind].
    edestruct IH as (w' & Hfd & Hinv' & Hb & Hw & Hh); [|exact Hg| |].
    3: { exists w'. split; [exact Hfd|]. split; [exact Hinv'|].
         split; [exact Hb|]. split; [exact Hw|exact Hh]. }
    + unfold Window_inv. cbn [Window.buf Window.words Window.p Window.half0 Window.half1].
      replace (Z.to_nat (Window.p w)) with (S (Z.to_nat (Window.p w - 1))) in H0, H1 by lia.
      rewrite (take_S_r _ _ _ Hx), popsum_app, popsum_cons in H0.
      change (popsum []) with 0 in H0.
      rewrite (drop_S _ _ _ Hx), popsum_cons.
      repeat split; (done || lia).
    + cbn [Window.p]. lia.
Qed.

Lemma find_up_spec goal : forall fuel w,
  Window_inv w -> Window.half0 w <= goal < Window.size w ->
  (Z.to_nat (Window.words w - Window.p w) <= fuel)%nat ->
  exists w' x, Window.find_up fuel goal w = Ok w' /\ Window_inv w' /\
    Window.buf w' = Window.buf w /\ Window.words w' = Window.words w /\
    Window.buf w' !! Z.to_nat (Window.p w') = Some x /\
    Window.half0 w' <= goal < Window.half0 w' + popcnt64 x.
Proof.
  induction fuel as [|fuel IH]; intros w Hinv Hg Hf;
    pose proof Hinv as (Hlen & Hu & Hp & H0 & H1);
    destruct (rd_in_range (Window.buf w) (Window.p w)) as (x & Hrd & Hx); try lia.
  - cbn [Window.find_up]. rewrite Hrd. cbn [mbind result_bind].
    destruct (Z.leb_spec (Window.half0 w + popcnt64 x) goal) as [Hle|Hgt].
    + rewrite (drop_S _ _ _ Hx), popsum_cons in H1.
      assert (Window.p w + 1 < Window.words w) as Hp1.
      { destruct (Z_lt_le_dec (Window.p w + 1) (Window.words w)) as [|Hge]; [done|].
        rewrite drop_ge in H1 by lia. change (popsum []) with 0 in H1.
        unfold Window.size in Hg. lia. }
      edestruct IH as (w' & x' & Hfu & Hinv' & Hb & Hw & Hx' & Hh); [| | |].
      4: { exists w', x'. split; [exact Hfu|]. split; [exact Hinv'|].
           split; [exact Hb|]. split; [exact Hw|]. split; [exact Hx'|exact Hh]. }
      * unfold Window_inv.
        cbn [Window.buf Window.words Window.p Window.half0 Window.half1].
        replace (Z.to_nat (Window.p w + 1)) with (S (Z.to_nat (Window.p w))) by lia.
        rewrite (take_S_r _ _ _ Hx), popsum_app, popsum_cons.
        change (popsum []) with 0.
        repeat split; (done || lia).
      * unfold Window.size in *. cbn [Window.half0 Window.half1]. lia.
      * cbn [Window.words Window.p]. lia.
    + exists w, x. repeat split; (done || lia).
Qed.

Lemma lor_shiftl_add pw j :
  0 <= pw -> 0 <= j < 64 -> Z.lor (Z.shiftl pw Window.WORD_SHIFT) j = 64 * pw + j.
Proof.
  intros Hp Hj. unfold Window.WORD_SHIFT. rewrite Z.shiftl_mul_pow2 by lia.
  change (2 ^ 6) with 64. rewrite <- Z.add_nocarry_lor; [lia|].
  apply Z.bits_inj'. intros n Hn. rewrite Z.land_spec, Z.bits_0.
  destruct (Z_lt_le_dec n 6).
  - change 64 with (2 ^ 6). rewrite Z.mul_pow2_bits_low by lia. done.
  - rewrite (Z.bits_above_log2 j n), andb_false_r; [done|lia|].
    destruct (Z.eq_dec j 0) as [->|]; [cbn; lia|].
    assert (Z.log2 j < 6); [|lia]. apply Z.log2_lt_pow2; lia.
Qed.

Lemma find_spec cfg fuel goal w :
  Window_inv w -> 0 <= goal < Window.size w ->
  (Z.to_nat (Window.words w) <= fuel)%nat ->
  exists i w', Window.find cfg fuel goal w = Ok (i, w') /\ Window_inv w' /\
    Window.buf w' = Window.buf w /\ Window.words w' = Window.words w /\
    nth_set (Window.buf w) goal i /\ 0 <= i < 64 * Window.words w.
Proof.
  intros Hinv Hg Hf. pose proof (Window_inv_size w Hinv) as Hsz.
  pose proof Hinv as (_ & _ & Hp & _).
  destruct (find_down_spec goal fuel w Hinv) as (w1 & Hfd & Hinv1 & Hb1 & Hw1 & Hh1);
    [lia|lia|].
  pose proof (Window_inv_size w1 Hinv1) as Hsz1. rewrite Hb1 in Hsz1.
  pose proof Hinv1 as (_ & _ & Hp1 & _).
  destruct (find_up_spec goal fuel w1 Hinv1) as (w2 & x & Hfu & Hinv2 & Hb2 & Hw2 & Hx & Hh2);
    [lia|lia|].
  pose proof Hinv2 as (Hlen2 & Hu2 & Hp2 & H02 & _).
  unfold Window.find. rewrite Hfd. cbn [mbind result_bind]. rewrite Hfu.
  cbn [mbind result_bind].
  rewrite (proj2 (rd_Ok _ _ x)) by (split; [lia|done]). cbn [mbind result_bind].
  rewrite assert_true by lia. cbn [mbind result_bind].
  destruct (findnth64_spec cfg x (goal - Window.half0 w2)) as (j & Hj & Hjr & Hnth);
    [|lia|].
  { by eapply Forall_lookup_1. }
  rewrite Hj. cbn [mbind result_bind mret result_ret].
  rewrite lor_shiftl_add by lia.
  exists (64 * Window.p w2 + j), w2. split; [done|]. split; [done|].
  split; [congruence|]. split; [congruence|].
  rewrite Hb2, Hb1 in *. split; [|lia].
  destruct Hnth as (_ & Tj & Cj). repeat split; [lia| |].
  - replace (Window.p w2) with (Z.of_nat (Z.to_nat (Window.p w2))) at 1 by lia.
    by rewrite (bit_at_word _ _ x).
  - replace (Z.to_nat (64 * Window.p w2 + j))
      with (64 * Z.to_nat (Window.p w2) + Z.to_nat j)%nat by lia.
    rewrite (count_set_word _ _ x) by (done || lia).
    rewrite count_set_words by lia. lia.
Qed.

(** *** [Window::clear] *)

Lemma for_range_zero (b : list Z) : forall n,
  0 <= n <= Z.of_nat (length b) ->
  for_range 0 n (fun i b => wr_at b i 0) b
    = Ok (replicate (Z.to_nat n) 0 ++ drop (Z.to_nat n) b).
Proof.
  intros n Hn.
  destruct (for_range_ind
    (fun k b' => b' = replicate (Z.to_nat k) 0 ++ drop (Z.to_nat k) b)
    0 n (fun i b => wr_at b i 0) b) as (b' & Hb' & ->); [lia|done| |done].
  intros k s Hk ->. eexists. split.
  - apply wr_at_Ok. split; [|done].
    rewrite length_app, length_replicate, length_drop. lia.
  - replace (Z.to_nat (k + 1)) with (S (Z.to_nat k)) by lia.
    rewrite insert_app_r_alt by (rewrite length_replicate; lia).
    rewrite length_replicate, Nat.sub_diag.
    destruct (lookup_lt_is_Some_2 b (Z.to_nat k)) as (x & Hx); [lia|].
    rewrite (drop_S _ _ _ Hx). cbn [insert list_insert].
    rewrite replicate_S_end, <- app_assoc. done.
Qed.

Lemma clear_spec w :
  1 <= Window.words w -> Z.of_nat (length (Window.buf w)) = Window.words w ->
  exists w', Window.clear w = Ok w' /\ Window_inv w' /\
    Window.words w' = Window.words w /\
    Window.buf w' = replicate (Z.to_nat (Window.words w)) 0 /\
    Window.size w' = 0 /\
    forall s, bit_at (Window.buf w') s = false.
Proof.
  intros Hw Hlen. unfold Window.clear. rewrite for_range_zero by lia.
  cbn [mbind result_bind mret result_ret]. rewrite drop_ge, app_nil_r by lia.
  eexists. split; [done|].
  cbn [Window.buf Window.words Window.p Window.half0 Window.half1].
  assert (Hq : 0 <= Window.words w ÷ 2 < Window.words w).
  { rewrite Z.quot_div_nonneg by lia. split; [apply Z.div_pos; lia|].
    apply Z.div_lt_upper_bound; lia. }
  split; [|split; [done|split; [done|split; [done|]]]].
  - unfold Window_inv.
    cbn [Window.buf Window.words Window.p Window.half0 Window.half1].
    rewrite length_replicate, take_replicate, drop_replicate, !popsum_replicate_0.
    repeat split; try (done || lia). apply Forall_replicate. unfold is_u64. lia.
  - intros s. unfold bit_at. destruct (0 <=? s); [|done]. cbn [andb].
    destruct (replicate _ 0 !! _) eqn:E; [|done].
    apply lookup_replicate in E as (-> & _).
    apply Z.bits_0.
Qed.

(** *** [Window::update] *)

Lemma land_pow2_eqb x j :
  0 <= j -> (Z.land x (2 ^ j) =? 0) = negb (Z.testbit x j).
Proof.
  intros Hj. destruct (Z.testbit x j) eqn:E; cbn [negb].
  - apply Z.eqb_neq. intros H0.
    assert (Z.testbit (Z.land x (2 ^ j)) j = true) as Ht.
    { by rewrite Z.land_spec, E, Z.pow2_bits_true. }
    rewrite H0, Z.bits_0 in Ht. done.
  - apply Z.eqb_eq. apply Z.bits_inj'. intros n Hn.
    rewrite Z.land_spec, Z.bits_0, Z.pow2_bits_eqb by done.
    destruct (Z.eqb_spec j n) as [->|]; [by rewrite E|by rewrite andb_false_r].
Qed.

Lemma count_bits_flip x j : forall n : nat,
  0 <= j ->
  count_bits (Z.lxor x (2 ^ j)) n =
    count_bits x n +
    (if j <? Z.of_nat n then (if Z.testbit x j then -1 else 1) else 0).
Proof.
  intros n Hj. induction n as [|n IH]; cbn [count_bits].
  - destruct (Z.ltb_spec j (Z.of_nat 0)); lia.
  - rewrite IH, Z.lxor_spec, Z.pow2_bits_eqb by done.
    destruct (Z.eqb_spec j (Z.of_nat n)) as [Heq|Hne].
    + rewrite <- Heq.
      destruct (Z.ltb_spec j j), (Z.ltb_spec j (Z.of_nat (S n))); try lia.
      destruct (Z.testbit x j); cbn; lia.
    + rewrite xorb_false_r.
      destruct (Z.ltb_spec j (Z.of_nat n)), (Z.ltb_spec j (Z.of_nat (S n))); lia.
Qed.

Lemma popcnt64_flip x j :
  0 <= j < 64 ->
  popcnt64 (Z.lxor x (2 ^ j)) = popcnt64 x + (if Z.testbit x j then -1 else 1).
Proof.
  intros Hj. unfold popcnt64. rewrite count_bits_flip by lia.
  destruct (Z.ltb_spec j (Z.of_nat 64)); [done|lia].
Qed.

Lemma pow2_u64 j : 0 <= j < 64 -> is_u64 (2 ^ j).
Proof.
  intros Hj. split; [apply Z.pow_nonneg; lia|]. apply Z.pow_lt_mono_r; lia.
Qed.

Lemma update_spec cfg op s w :
  Window_inv w -> 0 <= s < 64 * Window.words w -> valid_update op s w ->
  exists w', Window.update cfg op s w = Ok w' /\ Window_inv w' /\
    Window.words w' = Window.words w /\
    Window.size w' = Window.size w + op /\
    forall s', bit_at (Window.buf w') s' =
               if s' =? s then negb (bit_at (Window.buf w) s)
               else bit_at (Window.buf w) s'.
Proof.
  intros Hinv Hs Hv. destruct Hinv as (Hlen & Hu & Hp & H0 & H1).
  pose proof (Z.div_mod s 64 ltac:(lia)) as Hdm.
  pose proof (Z.mod_pos_bound s 64 ltac:(lia)) as Hmb.
  assert (0 <= s / 64 < Window.words w) as Hi.
  { split; [apply Z.div_pos; lia|apply Z.div_lt_upper_bound; lia]. }
  destruct (rd_in_range (Window.buf w) (s / 64)) as (x & Hrd & Hx); [lia|].
  assert (Hbit : bit_at (Window.buf w) s = Z.testbit x (s mod 64)).
  { rewrite bit_at_split, Hx by lia. done. }
  assert (Hop : (op = 1 /\ Z.testbit x (s mod 64) = false) \/
                (op = -1 /\ Z.testbit x (s mod 64) = true)).
  { rewrite <- Hbit. exact Hv. }
  unfold Window.update.
  rewrite assert_true
    by (destruct Hop as [(-> & _)|(-> & _)]; done).
  cbn [mbind result_bind]. unfold Window.WORD_MASK, Window.WORD_SIZE, Window.WORD_SHIFT.
  rewrite Z.shiftr_div_pow2 by lia. change (2 ^ 6) with 64.
  change (Z.shiftl 1 6 - 1) with (Z.ones 6). rewrite Z.land_ones by lia.
  change (2 ^ 6) with 64. rewrite Hrd. cbn [mbind result_bind].
  unfold ONE64, wrap64. rewrite Z.shiftl_1_l.
  pose proof (pow2_u64 (s mod 64) ltac:(lia)) as Hpow.
  rewrite Z.mod_small by exact Hpow.
  rewrite land_pow2_eqb by lia.
  rewrite assert_true
    by (destruct Hop as [(-> & ->)|(-> & ->)]; done).
  cbn [mbind result_bind].
  set (y := Z.lxor x (2 ^ (s mod 64))).
  rewrite (proj2 (wr_at_Ok _ _ _ _)) by (split; [lia|done]).
  cbn [mbind result_bind mret result_ret].
  assert (Hpc : popcnt64 y = popcnt64 x + op).
  { unfold y. rewrite popcnt64_flip by lia.
    destruct Hop as [(-> & ->)|(-> & ->)]; lia. }
  pose proof (lookup_lt_Some _ _ _ Hx) as Hlt.
  eexists. split; [done|].
  assert (Hbits : forall s', bit_at (<[Z.to_nat (s / 64) := y]> (Window.buf w)) s' =
               if s' =? s then negb (bit_at (Window.buf w) s)
               else bit_at (Window.buf w) s').
  { intros s'. destruct (Z_lt_le_dec s' 0) as [Hn|Hn].
    - rewrite !(bit_at_neg _ s') by done. destruct (Z.eqb_spec s' s); [lia|done].
    - pose proof (Z.div_mod s' 64 ltac:(lia)).
      pose proof (Z.mod_pos_bound s' 64 ltac:(lia)).
      pose proof (Z.div_pos s' 64 ltac:(lia) ltac:(lia)).
      rewrite !(bit_at_split _ s') by done.
      destruct (Z.eq_dec (s' / 64) (s / 64)) as [Heq|Hne].
      + rewrite Heq, list_lookup_insert_eq, Hx by done.
        unfold y. rewrite Z.lxor_spec, Z.pow2_bits_eqb by lia.
        destruct (Z.eqb_spec s' s) as [->|Hd].
        * rewrite Z.eqb_refl, Hbit. by destruct (Z.testbit x (s mod 64)).
        * destruct (Z.eqb_spec (s mod 64) (s' mod 64)); [lia|].
          by rewrite xorb_false_r.
      + rewrite list_lookup_insert_ne by lia.
        destruct (Z.eqb_spec s' s) as [->|Hd]; [done|done]. }
  assert (Hu' : Forall is_u64 (<[Z.to_nat (s / 64) := y]> (Window.buf w))).
  { apply Forall_insert; [done|]. apply lxor_u64; [|done]. by eapply Forall_lookup_1. }
  unfold Window.add_half, Window_inv, Window.size.
  destruct (Z.geb_spec (s / 64) (Window.p w)) as [Hge|Hlt'];
    cbn [Window.buf Window.words Window.p Window.half0 Window.half1].
  - rewrite length_insert, take_insert_ge, drop_insert_ge by lia.
    rewrite (popsum_insert _ _ x) by (rewrite lookup_drop; rewrite <- Hx; f_equal; lia).
    repeat split; try (done || lia).
  - rewrite length_insert, take_insert_lt, drop_insert_lt by lia.
    rewrite (popsum_insert _ _ x) by (rewrite lookup_take_lt by lia; done).
    repeat split; try (done || lia).
Qed.

(** A successful update was at a slot of the buffer. *)
Lemma update_Ok_range cfg op s w w' :
  Z.of_nat (length (Window.buf w)) = Window.words w ->
  Window.update cfg op s w = Ok w' -> 0 <= s < 64 * Window.words w.
Proof.
  intros Hlen. unfold Window.update.
  destruct (assert cfg _); cbn [mbind result_bind]; [|done].
  destruct (rd (Window.buf w) _) as [x|] eqn:Hrd; [|done]. intros _.
  apply rd_Ok in Hrd as (Hi & Hx). apply lookup_lt_Some in Hx.
  unfold Window.WORD_SHIFT in *. rewrite Z.shiftr_div_pow2 in * by lia.
  change (2 ^ 6) with 64 in *.
  assert (0 <= s).
  { destruct (Z_lt_le_dec s 0); [|done].
    pose proof (Z.div_lt_upper_bound s 64 0 ltac:(lia) ltac:(lia)). lia. }
  pose proof (Z.div_mod s 64 ltac:(lia)). pose proof (Z.mod_pos_bound s 64 ltac:(lia)).
  lia.
Qed.

Lemma make_spec cfg bb w :
  1 <= bb -> Window.make cfg bb = Ok w ->
  Window.words w = (bb + 63) / 64 /\ 1 <= Window.words w /\
  bb <= 64 * Window.words w /\
  Window.buf w = replicate (Z.to_nat (Window.words w)) 0.
Proof.
  intros Hbb. unfold Window.make, Window.get_words.
  rewrite assert_true by lia. cbn [mbind result_bind mret result_ret].
  intros [= <-]. cbn [Window.words Window.buf].
  unfold Window.WORD_SIZE, Window.WORD_SHIFT. change (Z.shiftl 1 6) with 64.
  rewrite Z.quot_div_nonneg by lia. replace (bb + 64 - 1) with (bb + 63) by lia.
  pose proof (Z.div_mod (bb + 63) 64 ltac:(lia)).
  pose proof (Z.mod_pos_bound (bb + 63) 64 ltac:(lia)).
  repeat split; (done || lia).
Qed.

Lemma Window_reachable_inv cfg w : Window_reachable cfg w -> Window_inv w.
Proof.
  induction 1 as [bb w0 w Hbb Hmk Hcl|w w' _ IH Hcl|w op s w' _ IH Hv Hup
                 |w fuel goal i w' _ IH Hg Hfu Hf].
  - destruct (make_spec cfg bb w0 Hbb Hmk) as (_ & Hw & _ & Hb).
    destruct (clear_spec w0) as (w1 & Hcl' & Hinv & _); [done| |].
    { rewrite Hb, length_replicate. lia. }
    congruence.
  - destruct IH as (Hlen & _ & Hp & _).
    destruct (clear_spec w) as (w1 & Hcl' & Hinv & _); [lia|done|]. congruence.
  - pose proof IH as (Hlen & _).
    pose proof (update_Ok_range cfg op s w w' Hlen Hup) as Hs.
    destruct (update_spec cfg op s w IH Hs Hv) as (w1 & Hup' & Hinv & _). congruence.
  - destruct (find_spec cfg fuel goal w IH Hg Hfu) as (i' & w1 & Hf' & Hinv & _).
    congruence.
Qed.

Lemma window4_reachable cfg : Window_reachable cfg Example.window4.
Proof.
  eapply (reach_update cfg _ 1 64); [eapply (reach_update cfg _ 1 129);
    [eapply (reach_update cfg _ 1 70);
      [eapply (reach_update cfg _ 1 5); [eapply (reach_clear cfg 130)|..]|..]|..]|..].
  - lia.
  - unfold Window.make, Window.get_words. rewrite assert_true by done. reflexivity.
  - reflexivity.
  - left. split; reflexivity.
  - unfold Window.update. rewrite !assert_true by done. reflexivity.
  - left. split; reflexivity.
  - unfold Window.update. rewrite !assert_true by done. reflexivity.
  - left. split; reflexivity.
  - unfold Window.update. rewrite !assert_true by done. reflexivity.
  - left. split; reflexivity.
  - unfold Window.update. rewrite !assert_true by done. reflexivity.
Qed.

(** C6: in every state of a window reached from [clear] by valid
    updates (and searches), for every [goal] with
    [0 <= goal < size()], [find(goal)] returns the index of the
    [(goal+1)]-th set bit of the buffer: the bit at the returned index
    is set and exactly [goal] set bits lie strictly below it.
    [findnth64] is exact on both of its code paths: for a word [x] and
    [0 <= n < popcount x] it returns the index of a set bit of [x] with
    exactly [n] set bits below it. *)
Theorem find_returns_nth_set_bit cfg fuel goal w :
  Window_reachable cfg w -> 0 <= goal < Window.size w ->
  (Z.to_nat (Window.words w) <= fuel)%nat ->
  (exists i w', Window.find cfg fuel goal w = Ok (i, w') /\ 0 <= i /\
     bit_at (Window.buf w) i = true /\
     count_set (Window.buf w) (Z.to_nat i) = goal) /\
  (forall cfg' x n, is_u64 x -> 0 <= n < popcnt64 x ->
     exists j, findnth64 cfg' x n = Ok j /\ 0 <= j < 64 /\
       Z.testbit x j = true /\ count_bits x (Z.to_nat j) = n).
Proof.
  intros Hr Hg Hf. split.
  - apply Window_reachable_inv in Hr.
    destruct (find_spec cfg fuel goal w Hr Hg Hf)
      as (i & w' & Hfind & _ & _ & _ & (Hi & Hb & Hc) & _).
    by exists i, w'.
  - intros cfg' x n Hx Hn.
    destruct (findnth64_spec cfg' x n Hx Hn) as (j & Hj & Hjr & _ & Tj & Cj).
    by exists j.
Qed.

Lemma find_returns_nth_set_bit_witness :
  (exists i w', Window.find Example.debug 3 1 Example.window4 = Ok (i, w') /\ 0 <= i /\
     bit_at (Window.buf Example.window4) i = true /\
     count_set (Window.buf Example.window4) (Z.to_nat i) = 1) /\
  (forall cfg' x n, is_u64 x -> 0 <= n < popcnt64 x ->
     exists j, findnth64 cfg' x n = Ok j /\ 0 <= j < 64 /\
       Z.testbit x j = true /\ count_bits x (Z.to_nat j) = n).
Proof.
  apply (find_returns_nth_set_bit Example.debug 3 1 Example.window4).
  - apply window4_reachable.
  - unfold Window.size, Example.window4. cbn. lia.
  - cbn. lia.
Defined.

(** C9: in every reachable state of a window, for every [goal] with
    [0 <= goal < size()], [find(goal)] leaves [buf] unchanged, leaves
    [size() = half[0] + half[1]] unchanged, and on return [half[0]] is
    the popcount of [buf[0..p)] and [half[1]] that of [buf[p..words)]. *)
Theorem find_preserves_window cfg fuel goal w :
  Window_reachable cfg w -> 0 <= goal < Window.size w ->
  (Z.to_nat (Window.words w) <= fuel)%nat ->
  exists i w', Window.find cfg fuel goal w = Ok (i, w') /\
    Window.buf w' = Window.buf w /\ Window.words w' = Window.words w /\
    Window.size w' = Window.size w /\
    0 <= Window.p w' < Window.words w' /\
    Window.half0 w' = popsum (take (Z.to_nat (Window.p w')) (Window.buf w')) /\
    Window.half1 w' = popsum (drop (Z.to_nat (Window.p w')) (Window.buf w')).
Proof.
  intros Hr Hg Hf. apply Window_reachable_inv in Hr.
  destruct (find_spec cfg fuel goal w Hr Hg Hf)
    as (i & w' & Hfind & Hinv & Hb & Hw & _).
  exists i, w'. split; [done|]. split; [done|]. split; [done|].
  split; [by rewrite !Window_inv_size, Hb|].
  by destruct Hinv as (_ & _ & Hp & H0 & H1).
Qed.

Lemma find_preserves_window_witness :
  exists i w', Window.find Example.debug 3 2 Example.window4 = Ok (i, w') /\
    Window.buf w' = Window.buf Example.window4 /\
    Window.words w' = Window.words Example.window4 /\
    Window.size w' = Window.size Example.window4 /\
    0 <= Window.p w' < Window.words w' /\
    Window.half0 w' = popsum (take (Z.to_nat (Window.p w')) (Window.buf w')) /\
    Window.half1 w' = popsum (drop (Z.to_nat (Window.p w')) (Window.buf w')).
Proof.
  apply (find_preserves_window Example.debug 3 2 Example.window4).
  - apply window4_reachable.
  - unfold Window.size, Example.window4. cbn. lia.
  - cbn. lia.
Defined.

Lemma find_twice cfg fuel g1 g2 w :
  Window_inv w -> 0 <= g1 < g2 -> g2 < Window.size w ->
  (Z.to_nat (Window.words w) <= fuel)%nat ->
  exists i1 w1 i2 w2,
    Window.find cfg fuel g1 w = Ok (i1, w1) /\
    Window.find cfg fuel g2 w1 = Ok (i2, w2) /\ i1 < i2 /\
    Window_inv w2 /\ Window.buf w2 = Window.buf w /\
    Window.words w2 = Window.words w /\
    nth_set (Window.buf w) g1 i1 /\ nth_set (Window.buf w) g2 i2 /\
    0 <= i1 /\ i2 < 64 * Window.words w.
Proof.
  intros Hinv Hg1 Hg2 Hf.
  destruct (find_spec cfg fuel g1 w Hinv) as (i1 & w1 & Hf1 & Hinv1 & Hb1 & Hw1 & Hn1 & Hi1);
    [lia|done|].
  destruct (find_spec cfg fuel g2 w1 Hinv1) as (i2 & w2 & Hf2 & Hinv2 & Hb2 & Hw2 & Hn2 & Hi2).
  { rewrite (Window_inv_size w1), Hb1, <- (Window_inv_size w) by done. lia. }
  { by rewrite Hw1. }
  rewrite Hb1 in Hn2. exists i1, w1, i2, w2.
  split; [done|]. split; [done|].
  split; [apply (nth_set_mono (Window.buf w) g1 g2); [done|done|lia]|].
  split; [done|]. split; [congruence|]. split; [congruence|].
  split; [done|]. split; [done|]. rewrite Hw1 in Hi2. lia.
Qed.

Lemma median_goals n :
  2 <= n -> Z.even n = true ->
  0 <= Z.quot (n - 1) 2 < Z.quot (n - 0) 2 /\ Z.quot (n - 0) 2 < n.
Proof.
  intros Hn He. rewrite !Z.quot_div_nonneg by lia. rewrite Z.sub_0_r.
  apply Z.even_spec in He as (k & ->).
  replace (2 * k - 1) with (1 + (k - 1) * 2) by lia.
  rewrite Z.div_add by lia. change (1 / 2) with 0.
  rewrite (Z.mul_comm 2 k), Z.div_mul by lia. lia.
Qed.

(** C10: [find] is strictly monotone in its goal on a fixed window;
    hence in [get_med], whenever the window size [n] is even and not
    zero, [goal2 = n / 2] differs from [goal1 = (n - 1) / 2], the index
    [med2] returned by the second [find] is strictly greater than the
    index [med1] returned by the first, and [assert(med2 > med1)]
    holds. *)
Theorem get_med_second_find_greater cfg fuel w :
  Window_reachable cfg w -> (Z.to_nat (Window.words w) <= fuel)%nat ->
  (forall g1 g2, 0 <= g1 < g2 -> g2 < Window.size w ->
     exists i1 w1 i2 w2,
       Window.find cfg fuel g1 w = Ok (i1, w1) /\
       Window.find cfg fuel g2 w1 = Ok (i2, w2) /\ i1 < i2) /\
  (let total := Window.size w in
   let goal1 := Z.quot (total - 1) 2 in
   let goal2 := Z.quot (total - 0) 2 in
   total <> 0 -> Z.even total = true ->
   goal2 <> goal1 /\
   exists med1 w1 med2 w2,
     Window.find cfg fuel goal1 w = Ok (med1, w1) /\
     Window.find cfg fuel goal2 w1 = Ok (med2, w2) /\
     med2 > med1 /\ assert cfg (med2 >? med1) = Ok tt).
Proof.
  intros Hr Hf. apply Window_reachable_inv in Hr.
  assert (Hmono : forall g1 g2, 0 <= g1 < g2 -> g2 < Window.size w ->
     exists i1 w1 i2 w2,
       Window.find cfg fuel g1 w = Ok (i1, w1) /\
       Window.find cfg fuel g2 w1 = Ok (i2, w2) /\ i1 < i2).
  { intros g1 g2 Hg1 Hg2.
    destruct (find_twice cfg fuel g1 g2 w Hr Hg1 Hg2 Hf)
      as (i1 & w1 & i2 & w2 & H1 & H2 & Hlt & _).
    by exists i1, w1, i2, w2. }
  split; [exact Hmono|]. intros total goal1 goal2 Hne He.
  assert (2 <= total) as Hn.
  { pose proof (popsum_nonneg (Window.buf w)) as Hnn.
    rewrite <- (Window_inv_size w Hr) in Hnn. fold total in Hnn.
    destruct (Z.eq_dec total 1) as [E|]; [by rewrite E in He|lia]. }
  destruct (median_goals total Hn He) as (Hg1 & Hg2). fold goal1 goal2 in Hg1, Hg2.
  split; [lia|].
  destruct (Hmono goal1 goal2 Hg1 Hg2) as (i1 & w1 & i2 & w2 & H1 & H2 & Hlt).
  exists i1, w1, i2, w2. split; [done|]. split; [done|]. split; [lia|].
  apply assert_true. lia.
Qed.

Lemma get_med_second_find_greater_witness :
  (forall g1 g2, 0 <= g1 < g2 -> g2 < Window.size Example.window4 ->
     exists i1 w1 i2 w2,
       Window.find Example.debug 3 g1 Example.window4 = Ok (i1, w1) /\
       Window.find Example.debug 3 g2 w1 = Ok (i2, w2) /\ i1 < i2) /\
  (let total := Window.size Example.window4 in
   let goal1 := Z.quot (total - 1) 2 in
   let goal2 := Z.quot (total - 0) 2 in
   total <> 0 -> Z.even total = true ->
   goal2 <> goal1 /\
   exists med1 w1 med2 w2,
     Window.find Example.debug 3 goal1 Example.window4 = Ok (med1, w1) /\
     Window.find Example.debug 3 goal2 w1 = Ok (med2, w2) /\
     med2 > med1 /\ assert Example.debug (med2 >? med1) = Ok tt).
Proof.
  apply (get_med_second_find_greater Example.debug 3 Example.window4).
  - apply window4_reachable.
  - cbn. lia.
Defined.

(** *** The order of the (value, slot) pairs *)

Section Order.
Context {T : Type} `{FloatT T}.
Hypothesis SWO : strict_weak_order T.

Local Abbreviation nonnan := (fun e : T * Z => isnan (fst e) = false).
Local Abbreviation plt := (fun a b : T * Z => pair_lt a b = true).
Local Abbreviation ple := (fun a b : T * Z => pair_lt b a = false).

Lemma pair_lt_spec (a b : T * Z) :
  pair_lt a b = true <->
  flt (fst a) (fst b) = true \/ (flt (fst b) (fst a) = false /\ snd a < snd b).
Proof.
  unfold pair_lt. rewrite orb_true_iff, andb_true_iff, negb_true_iff, Z.ltb_lt. done.
Qed.

Lemma pair_lt_irrefl (a : T * Z) : nonnan a -> pair_lt a a = false.
Proof.
  intros Ha. destruct SWO as (Hirr & _). unfold pair_lt.
  by rewrite Hirr, Z.ltb_irrefl.
Qed.

Lemma pair_lt_trans (a b c : T * Z) :
  nonnan a -> nonnan b -> nonnan c ->
  pair_lt a b = true -> pair_lt b c = true -> pair_lt a c = true.
Proof.
  intros Ha Hb Hc. destruct SWO as (Hirr & Htr & Hco).
  rewrite !pair_lt_spec. intros [Hab|[Hba Hs1]] [Hbc|[Hcb Hs2]].
  - left. by apply (Htr _ (fst b)).
  - left. destruct (Hco (fst a) (fst c) (fst b)) as [?|?]; (done || congruence).
  - left. destruct (Hco (fst b) (fst a) (fst c)) as [?|?]; (done || congruence).
  - right. split; [|lia]. destruct (flt (fst c) (fst a)) eqn:E; [|done].
    destruct (Hco (fst c) (fst b) (fst a)) as [?|?]; (done || congruence).
Qed.

Lemma pair_lt_asym (a b : T * Z) :
  nonnan a -> nonnan b -> pair_lt a b = true -> pair_lt b a = false.
Proof.
  intros Ha Hb Hab. destruct (pair_lt b a) eqn:E; [|done].
  pose proof (pair_lt_trans a b a Ha Hb Ha Hab E) as Haa.
  by rewrite pair_lt_irrefl in Haa.
Qed.

Lemma pair_le_trans (a b c : T * Z) :
  nonnan a -> nonnan b -> nonnan c ->
  pair_lt b a = false -> pair_lt c b = false -> pair_lt c a = false.
Proof.
  intros Ha Hb Hc Hba Hcb. destruct SWO as (Hirr & Htr & Hco).
  destruct (pair_lt c a) eqn:Hca; [exfalso|done].
  apply not_true_iff_false in Hba, Hcb. rewrite pair_lt_spec in Hba, Hcb, Hca.
  destruct (flt (fst b) (fst a)) eqn:Eba; [tauto|].
  destruct (flt (fst c) (fst b)) eqn:Ecb; [tauto|].
  destruct Hca as [Hca|[Hac Hs]].
  - destruct (Hco (fst c) (fst b) (fst a)) as [?|?]; (done || congruence).
  - destruct (Z_lt_le_dec (snd b) (snd a)).
    + destruct (flt (fst a) (fst b)) eqn:Eab; [|tauto].
      destruct (Hco (fst a) (fst c) (fst b)) as [?|?]; (done || congruence).
    + destruct (flt (fst b) (fst c)) eqn:Ebc; [|apply Hcb; right; split; [done|lia]].
      destruct (Hco (fst b) (fst a) (fst c)) as [?|?]; (done || congruence).
Qed.

Lemma pair_lt_total (a b : T * Z) :
  snd a <> snd b -> pair_lt b a = false -> pair_lt a b = true.
Proof.
  intros Hs Hba. apply not_true_iff_false in Hba.
  rewrite pair_lt_spec in Hba. apply pair_lt_spec.
  destruct (flt (fst a) (fst b)) eqn:Eab; [by left|right].
  destruct (flt (fst b) (fst a)) eqn:Eba; [tauto|]. split; [done|].
  destruct (Z_lt_le_dec (snd a) (snd b)); [done|]. exfalso. apply Hba. right. lia.
Qed.

(** *** The insertion sort meets the contract of [std::sort] *)

Lemma insert_pair_perm (a : T * Z) l : Permutation (insert_pair a l) (a :: l).
Proof.
  induction l as [|b l IH]; cbn [insert_pair]; [done|].
  destruct (pair_lt b a); [|done]. rewrite IH. apply perm_swap.
Qed.

Lemma sort_pairs_perm (l : list (T * Z)) : Permutation (sort_pairs l) l.
Proof.
  induction l as [|a l IH]; [done|]. unfold sort_pairs in *. cbn [foldr].
  rewrite insert_pair_perm. by apply perm_skip.
Qed.

Lemma insert_pair_sorted (a : T * Z) l :
  nonnan a -> Forall nonnan l -> StronglySorted ple l ->
  StronglySorted ple (insert_pair a l).
Proof.
  intros Ha Hl Hs. induction l as [|b l IH]; cbn [insert_pair].
  - repeat constructor.
  - apply Forall_cons in Hl as (Hb & Hl).
    apply StronglySorted_inv in Hs as (Hs & Hbl).
    destruct (pair_lt b a) eqn:E.
    + constructor; [by apply IH|].
      rewrite insert_pair_perm. constructor; [|done]. by apply pair_lt_asym.
    + constructor; [by constructor|]. constructor; [done|].
      rewrite Forall_forall in Hbl, Hl |- *. intros c Hc.
      apply (pair_le_trans a b c); auto.
Qed.

Lemma sort_pairs_sorted (l : list (T * Z)) :
  Forall nonnan l -> StronglySorted ple (sort_pairs l).
Proof.
  induction l as [|a l IH]; intros Hl; [constructor|].
  apply Forall_cons in Hl as (Ha & Hl). unfold sort_pairs in *. cbn [foldr].
  apply insert_pair_sorted; [done| |by apply IH].
  fold (sort_pairs l). by rewrite sort_pairs_perm.
Qed.

Lemma sort_pairs_contract : sort_contract (T := T) sort_pairs.
Proof. intros l Hl. split; [apply sort_pairs_perm|by apply sort_pairs_sorted]. Qed.

(** *** Strictly sorted lists *)

Lemma injective_slots (l : list (T * Z)) e1 e2 :
  NoDup (snd <$> l) -> e1 ∈ l -> e2 ∈ l -> snd e1 = snd e2 -> e1 = e2.
Proof.
  induction l as [|a l IH]; intros Hnd H1 H2 Heq; [by apply elem_of_nil in H1|].
  rewrite fmap_cons in Hnd. apply NoDup_cons in Hnd as (Hna & Hnd).
  apply elem_of_cons in H1 as [->|H1], H2 as [->|H2]; try done.
  - exfalso. apply Hna. rewrite Heq. by apply list_elem_of_fmap_2.
  - exfalso. apply Hna. rewrite <- Heq. by apply list_elem_of_fmap_2.
  - by apply IH.
Qed.

Lemma sorted_strict (l : list (T * Z)) :
  NoDup (snd <$> l) -> StronglySorted ple l -> StronglySorted plt l.
Proof.
  induction l as [|a l IH]; intros Hnd Hs; [constructor|].
  rewrite fmap_cons in Hnd. apply NoDup_cons in Hnd as (Hna & Hnd).
  apply StronglySorted_inv in Hs as (Hs & Hal).
  constructor; [by apply IH|].
  rewrite Forall_forall in Hal |- *. intros c Hc.
  apply pair_lt_total; [|by apply Hal].
  intros Heq. apply Hna. rewrite Heq. by apply list_elem_of_fmap_2.
Qed.

Lemma sorted_unique (l1 : list (T * Z)) : forall l2,
  Forall nonnan l1 -> Forall nonnan l2 ->
  StronglySorted plt l1 -> StronglySorted plt l2 ->
  (forall e, e ∈ l1 <-> e ∈ l2) -> l1 = l2.
Proof.
  induction l1 as [|a l1 IH]; intros [|b l2] Hn1 Hn2 Hs1 Hs2 Hm.
  - done.
  - exfalso. eapply elem_of_nil, Hm. left.
  - exfalso. eapply elem_of_nil, Hm. left.
  - apply Forall_cons in Hn1 as (Ha & Hn1). apply Forall_cons in Hn2 as (Hb & Hn2).
    apply StronglySorted_inv in Hs1 as (Hs1 & Hal).
    apply StronglySorted_inv in Hs2 as (Hs2 & Hbl).
    rewrite Forall_forall in Hal, Hbl, Hn1, Hn2.
    assert (a = b) as <-.
    { assert (a ∈ b :: l2) as Hab by (apply Hm; left).
      assert (b ∈ a :: l1) as Hba by (apply Hm; left).
      apply elem_of_cons in Hab as [?|Hab]; [done|].
      apply elem_of_cons in Hba as [?|Hba]; [done|].
      pose proof (pair_lt_asym a b Ha Hb (Hal _ Hba)) as Hx.
      rewrite (Hbl _ Hab) in Hx. done. }
    f_equal. apply IH; try (done || by apply Forall_forall).
    intros e. split; intros He.
    + assert (e ∈ a :: l2) as He' by (apply Hm; by right).
      apply elem_of_cons in He' as [->|?]; [|done].
      pose proof (Hal _ He) as Hx. by rewrite pair_lt_irrefl in Hx.
    + assert (e ∈ a :: l1) as He' by (apply Hm; by right).
      apply elem_of_cons in He' as [->|?]; [|done].
      pose proof (Hbl _ He) as Hx. by rewrite pair_lt_irrefl in Hx.
Qed.

End Order.

(** *** Initialisation of the rank table *)

Lemma StronglySorted_lookup {A : Type} (R : A -> A -> Prop) l :
  StronglySorted R l ->
  forall i j a b, (i < j)%nat -> l !! i = Some a -> l !! j = Some b -> R a b.
Proof.
  induction 1 as [|x l Hs IH Hx]; intros i j a b Hij Hi Hj; [done|].
  destruct j as [|j]; [lia|]. cbn in Hj. destruct i as [|i].
  - cbn in Hi. injection Hi as <-. rewrite Forall_forall in Hx.
    apply Hx. by eapply list_elem_of_lookup_2.
  - cbn in Hi. apply (IH i j); (done || lia).
Qed.

Section RankInit.
Context {T : Type} `{FloatT T}.
Variable std_sort : list (T * Z) -> list (T * Z).
Hypothesis SWO : strict_weak_order T.
Hypothesis SORT : sort_contract std_sort.

Local Abbreviation nonnan := (fun e : T * Z => isnan (fst e) = false).

Lemma valid_feeds_length bb (l : list (T * Z)) :
  0 <= bb -> valid_feeds bb l -> Z.of_nat (length l) <= bb.
Proof.
  intros Hbb (Hnd & Hr).
  assert ((snd <$> l) ⊆+ seqZ 0 bb) as Hsub.
  { apply NoDup_submseteq; [done|]. intros s Hs.
    apply list_elem_of_fmap in Hs as (e & -> & He).
    rewrite Forall_forall in Hr. apply elem_of_seqZ. specialize (Hr e He). lia. }
  apply submseteq_length in Hsub. rewrite length_fmap, length_seqZ in Hsub.
  lia.
Qed.

Lemma valid_feeds_app_l bb (l1 l2 : list (T * Z)) :
  valid_feeds bb (l1 ++ l2) -> valid_feeds bb l1.
Proof.
  intros (Hnd & Hr). rewrite fmap_app in Hnd. apply NoDup_app in Hnd as (Hnd & _).
  apply Forall_app in Hr as (Hr & _). done.
Qed.

Lemma NoDup_slots_filter (P : T * Z -> Prop) `{!forall e, Decision (P e)} l :
  NoDup (snd <$> l) -> NoDup (snd <$> filter P l).
Proof.
  induction l as [|a l IH]; intros Hnd; [constructor|].
  rewrite fmap_cons in Hnd. apply NoDup_cons in Hnd as (Hna & Hnd).
  rewrite filter_cons. destruct (decide (P a)); [|by apply IH].
  rewrite fmap_cons. apply NoDup_cons. split; [|by apply IH].
  intros Hin. apply Hna. apply list_elem_of_fmap in Hin as (e & -> & He).
  apply list_elem_of_filter in He as (_ & He). by apply list_elem_of_fmap_2.
Qed.

Lemma init_start_fed (r : WindowRank.t T) :
  fed [] (WindowRank.init_start r) (WindowRank.init_start r).
Proof. unfold fed. cbn. repeat split; try done. intros v s Hin. by apply elem_of_nil in Hin. Qed.

Lemma init_feed_fed pre e (r0 r : WindowRank.t T) :
  shape r0 -> fed pre r0 r -> valid_feeds (WindowRank.bb r0) (pre ++ [e]) ->
  exists r', WindowRank.init_feed (fst e) (snd e) r = Ok r' /\ fed (pre ++ [e]) r0 r'.
Proof.
  destruct e as (v0 & s0). cbn [fst snd].
  intros (Hbb & Hls & Hlr & _) (Fbb & Fw & Fls & Flr & Fsz & Ftk & Fnan) Hv.
  pose proof (valid_feeds_length (WindowRank.bb r0) _ ltac:(lia) Hv) as Hlen. rewrite length_app in Hlen. cbn in Hlen.
  destruct Hv as (Hnd & Hr). apply Forall_app in Hr as (Hpre & He).
  apply Forall_cons in He as (He & _). cbn [fst snd] in He.
  rewrite Forall_forall in Hpre.
  pose proof (length_filter nonnan pre) as Hfl.
  unfold WindowRank.init_feed. destruct (isnan v0) eqn:En.
  - rewrite (proj2 (wr_at_Ok _ _ _ _)) by (split; [lia|done]).
    cbn [mbind result_bind mret result_ret]. eexists. split; [done|].
    unfold fed. cbn [WindowRank.bb WindowRank.window WindowRank.sorted
                     WindowRank.rank WindowRank.size].
    rewrite length_insert, filter_app, filter_cons_False, filter_nil, app_nil_r
      by (cbn; congruence).
    repeat split; try done. intros v s Hin Hnan.
    apply elem_of_app in Hin as [Hin|Hin].
    + pose proof (Hpre _ Hin) as Hs. cbn in Hs.
      destruct (Z.eq_dec s s0) as [->|Hne].
      * apply list_lookup_insert_eq. lia.
      * rewrite list_lookup_insert_ne by lia. by apply (Fnan v).
    + apply list_elem_of_singleton in Hin. injection Hin as -> ->.
      apply list_lookup_insert_eq. cbn in *. lia.
  - rewrite (proj2 (wr_at_Ok _ _ _ _)) by (split; [lia|done]).
    cbn [mbind result_bind mret result_ret]. eexists. split; [done|].
    unfold fed. cbn [WindowRank.bb WindowRank.window WindowRank.sorted
                     WindowRank.rank WindowRank.size].
    rewrite length_insert, filter_app, filter_cons_True, filter_nil by done.
    rewrite length_app. cbn [length].
    repeat split; try (done || lia).
    + replace (Z.to_nat (WindowRank.size r + 1))
        with (S (Z.to_nat (WindowRank.size r))) by lia.
      rewrite (take_S_r _ _ (v0, s0)) by (apply list_lookup_insert_eq; lia).
      rewrite take_insert_ge by lia. rewrite Ftk. done.
    + intros v s Hin Hnan.
      apply elem_of_app in Hin as [Hin|Hin]; [by apply (Fnan v)|].
      apply list_elem_of_singleton in Hin. injection Hin as -> ->. cbn in En. congruence.
Qed.

Lemma feed_list_fed (r0 : WindowRank.t T) : forall l pre r,
  shape r0 -> fed pre r0 r -> valid_feeds (WindowRank.bb r0) (pre ++ l) ->
  exists r', feed_list l r = Ok r' /\ fed (pre ++ l) r0 r'.
Proof.
  induction l as [|e l IH]; intros pre r Hsh Hfed Hv.
  - exists r. rewrite app_nil_r. done.
  - cbn [feed_list].
    destruct (init_feed_fed pre e r0 r Hsh Hfed) as (r1 & -> & Hfed1).
    { apply (valid_feeds_app_l _ _ l). by rewrite <- app_assoc. }
    cbn [mbind result_bind].
    destruct (IH (pre ++ [e]) r1 Hsh Hfed1) as (r2 & Hr2 & Hfed2).
    { by rewrite <- app_assoc. }
    exists r2. split; [done|]. by rewrite <- app_assoc in Hfed2.
Qed.

Lemma init_finish_ranked feeds (r0 r : WindowRank.t T) :
  shape r0 -> fed feeds r0 r -> valid_feeds (WindowRank.bb r0) feeds ->
  exists r2, WindowRank.init_finish std_sort r = Ok r2 /\ ranked feeds r2 /\
    shape r2 /\ WindowRank.window r2 = WindowRank.window r0 /\
    WindowRank.bb r2 = WindowRank.bb r0.
Proof.
  intros Hsh Hfed Hv. pose proof Hsh as (Hbb & Hls & Hlr & Hlb & Hw & Hcap).
  destruct Hfed as (Fbb & Fw & Fls & Flr & Fsz & Ftk & Fnan).
  pose proof Hv as (Hnd & Hr). rewrite Forall_forall in Hr.
  set (P := filter nonnan feeds) in *.
  assert (HPn : Forall nonnan P).
  { apply Forall_forall. intros e He. by apply list_elem_of_filter in He as (? & _). }
  destruct (SORT P HPn) as (Hperm & Hsorted).
  set (S := std_sort P) in *.
  assert (Hlen : length S = length P) by (by rewrite Hperm).
  pose proof (valid_feeds_length (WindowRank.bb r0) feeds ltac:(lia) Hv) as Hfl.
  pose proof (length_filter nonnan feeds) as Hfl2. fold P in Hfl2.
  assert (HSin : forall e, e ∈ S <-> e ∈ feeds /\ isnan (fst e) = false).
  { intros e. rewrite Hperm. unfold P. rewrite list_elem_of_filter. tauto. }
  assert (HndS : NoDup (snd <$> S)).
  { rewrite Hperm. by apply NoDup_slots_filter. }
  unfold WindowRank.init_finish, WindowRank.sort_prefix.
  rewrite Ftk. fold S.
  destruct (Z.leb_spec 0 (WindowRank.size r)),
    (Z.leb_spec (WindowRank.size r) (Z.of_nat (length (WindowRank.sorted r))));
    try lia.
  cbn [andb mbind result_bind].
  set (sorted' := S ++ drop (Z.to_nat (WindowRank.size r)) (WindowRank.sorted r)).
  destruct (for_range_ind (fun k rk =>
       length rk = length (WindowRank.rank r) /\
       (forall i e, (i < Z.to_nat k)%nat -> S !! i = Some e ->
          rk !! Z.to_nat (snd e) = Some (Z.of_nat i)) /\
       (forall s, 0 <= s ->
          (forall i e, (i < Z.to_nat k)%nat -> S !! i = Some e -> snd e <> s) ->
          rk !! Z.to_nat s = WindowRank.rank r !! Z.to_nat s))
     0 (WindowRank.size r) (fun i rk => e ← rd sorted' i; wr_at rk (snd e) i)
     (WindowRank.rank r)) as (rank' & Hloop & Hlen' & Hhit & Hframe).
  - lia.
  - split; [done|]. split; [intros; lia|done].
  - intros k rk Hk (Hl & Hh & Hf).
    destruct (lookup_lt_is_Some_2 S (Z.to_nat k)) as (e & He); [lia|].
    rewrite (proj2 (rd_Ok sorted' k e))
      by (split; [lia|]; unfold sorted'; by apply lookup_app_l_Some).
    cbn [mbind result_bind].
    assert (e ∈ feeds /\ isnan (fst e) = false) as (Hef & Hen)
      by (apply HSin; by eapply list_elem_of_lookup_2).
    pose proof (Hr e Hef) as Her. cbn beta in Her.
    eexists. split. { apply wr_at_Ok. split; [lia|done]. }
    split; [by rewrite length_insert|]. split.
    + intros i e' Hi He'. destruct (decide (i = Z.to_nat k)) as [->|Hne].
      * rewrite He in He'. injection He' as <-.
        rewrite list_lookup_insert_eq by lia. f_equal. lia.
      * assert (snd e' <> snd e) as Hslot.
        { intros Heq. apply Hne.
          apply (NoDup_lookup (snd <$> S) i (Z.to_nat k) (snd e)); [done| |].
          - rewrite list_lookup_fmap, He'. cbn. by rewrite Heq.
          - by rewrite list_lookup_fmap, He. }
        assert (e' ∈ feeds) as He'f
          by (apply HSin; by eapply list_elem_of_lookup_2).
        pose proof (Hr e' He'f) as Her'. cbn beta in Her'.
        rewrite list_lookup_insert_ne by lia. apply Hh; [lia|done].
    + intros s Hs Hno.
      assert (snd e <> s) by (apply (Hno (Z.to_nat k)); [lia|done]).
      rewrite list_lookup_insert_ne by lia. apply Hf; [done|].
      intros i e' Hi. apply Hno. lia.
  - rewrite Hloop. cbn [mbind result_bind mret result_ret].
    eexists. split; [done|].
    assert (Hl' : length sorted' = length (WindowRank.sorted r)).
    { unfold sorted'. rewrite length_app, length_drop. lia. }
    split; [|split; [|done]].
    + unfold ranked.
      cbn [WindowRank.bb WindowRank.window WindowRank.sorted WindowRank.rank
           WindowRank.size].
      split; [by rewrite Fbb|]. split; [lia|]. split; [|split; [|split]].
      * intros v s Hin Hnan. pose proof (Hr _ Hin) as Hs. cbn in Hs.
        rewrite Hframe; [by apply (Fnan v)|lia|].
        intros i e Hi He Heq.
        assert (e ∈ feeds /\ isnan (fst e) = false) as (Hef & Hen)
          by (apply HSin; by eapply list_elem_of_lookup_2).
        assert (e = (v, s)) as -> by (by apply (injective_slots feeds)).
        cbn in Hen. congruence.
      * intros v s Hin Hn. assert ((v, s) ∈ S) as HinS by (by apply HSin).
        apply list_elem_of_lookup_1 in HinS as (i & Hi).
        pose proof (lookup_lt_Some _ _ _ Hi) as Hilt. exists (Z.of_nat i).
        split; [apply (Hhit i (v, s)); [lia|done]|]. split; [lia|].
        rewrite Nat2Z.id. by apply lookup_app_l_Some.
      * intros i Hi.
        destruct (lookup_lt_is_Some_2 S (Z.to_nat i)) as ((v & s) & He); [lia|].
        exists v, s. split; [by apply lookup_app_l_Some|].
        assert ((v, s) ∈ feeds /\ isnan v = false) as (Hef & Hen)
          by (apply (HSin (v, s)); by eapply list_elem_of_lookup_2).
        split; [done|]. split; [done|].
        pose proof (Hhit (Z.to_nat i) (v, s) ltac:(lia) He) as Hrk. cbn [snd] in Hrk.
        rewrite Hrk. f_equal. lia.
      * intros i j e1 e2 Hij Hj Hi1 Hj2. unfold sorted' in Hi1, Hj2.
        rewrite lookup_app_l in Hi1, Hj2 by lia.
        apply (StronglySorted_lookup (fun a b => pair_lt a b = true) S
                 (sorted_strict S HndS Hsorted) (Z.to_nat i) (Z.to_nat j));
          (done || lia).
    + unfold shape.
      cbn [WindowRank.bb WindowRank.window WindowRank.sorted WindowRank.rank
           WindowRank.size].
      rewrite Fw, Fbb, Hl', Hlen', Fls, Flr. done.
Qed.

End RankInit.

(** *** Updates of the rank table's window *)

Section RankWindow.
Context {T : Type} `{FloatT T}.

Lemma same_table_refl (r : WindowRank.t T) : same_table r r.
Proof. done. Qed.

Lemma same_table_trans (r1 r2 r3 : WindowRank.t T) :
  same_table r1 r2 -> same_table r2 r3 -> same_table r1 r3.
Proof.
  intros (A1 & A2 & A3 & A4 & A5 & A6) (B1 & B2 & B3 & B4 & B5 & B6).
  unfold same_table. repeat split; congruence.
Qed.

Lemma same_table_shape (r r' : WindowRank.t T) :
  same_table r r' -> shape r -> shape r'.
Proof.
  intros (A1 & A2 & A3 & A4 & A5 & A6). unfold shape.
  rewrite A1, A2, A3, A5, A6. done.
Qed.

Lemma same_table_ranked feeds (r r' : WindowRank.t T) :
  same_table r r' -> ranked feeds r -> ranked feeds r'.
Proof.
  intros (A1 & A2 & A3 & A4 & _). unfold ranked. rewrite A1, A2, A3, A4. done.
Qed.

Lemma ranked_rank_inj feeds r v s v' s' i :
  ranked feeds r -> (v, s) ∈ feeds -> (v', s') ∈ feeds ->
  isnan v = false -> isnan v' = false ->
  WindowRank.rank r !! Z.to_nat s = Some i ->
  WindowRank.rank r !! Z.to_nat s' = Some i -> (v, s) = (v', s').
Proof.
  intros (_ & _ & _ & R2 & _) Hin Hin' Hn Hn' Hr Hr'.
  destruct (R2 v s Hin Hn) as (i1 & Hi1 & _ & Hs1).
  destruct (R2 v' s' Hin' Hn') as (i2 & Hi2 & _ & Hs2).
  congruence.
Qed.

Lemma clear_tracks feeds (r : WindowRank.t T) :
  shape r ->
  exists r', WindowRank.clear r = Ok r' /\ same_table r r' /\
    tracks feeds (fun _ => false) r' /\
    Window.size (WindowRank.window r') = 0.
Proof.
  intros (Hbb & Hls & Hlr & Hlb & Hw & Hcap). unfold WindowRank.clear.
  destruct (clear_spec (WindowRank.window r) Hw Hlb)
    as (w' & -> & Hinv & Hws & Hbuf & Hsz & Hbits).
  cbn [mbind result_bind mret result_ret]. eexists. split; [done|].
  split; [|split; [|done]].
  - unfold same_table. cbn. rewrite Hbuf, length_replicate.
    repeat split; (done || lia).
  - split; [done|]. cbn [WindowRank.window WindowRank.set_window]. intros i.
    rewrite Hbits. split; [done|]. by intros (v & s & _ & ? & _).
Qed.

Lemma update_tracks cfg feeds win (r : WindowRank.t T) op v slot :
  shape r -> ranked feeds r -> tracks feeds win r -> (v, slot) ∈ feeds ->
  (op = 1 /\ win slot = false) \/ (op = -1 /\ win slot = true) ->
  exists r', WindowRank.update cfg op slot r = Ok r' /\ same_table r r' /\
    tracks feeds (toggle win slot) r' /\
    Window.size (WindowRank.window r') =
      Window.size (WindowRank.window r) + (if isnan v then 0 else op).
Proof.
  intros Hsh Hrk (Hinv & Hbits) Hin Hop.
  pose proof Hsh as (Hbb & Hls & Hlr & Hlb & Hw & Hcap).
  pose proof Hrk as ((Hnd & Hr) & Hsz & R1 & R2 & R3 & R4).
  rewrite Forall_forall in Hr. pose proof (Hr _ Hin) as Hslot. cbn in Hslot.
  unfold WindowRank.update. destruct (isnan v) eqn:En.
  - rewrite (proj2 (rd_Ok _ _ _)) by (split; [lia|by apply (R1 v)]).
    cbn [mbind result_bind]. rewrite Z.eqb_refl.
    exists r. split; [done|]. split; [apply same_table_refl|]. split; [|lia].
    split; [done|]. intros i. rewrite Hbits.
    split; intros (v' & s' & Hin' & Hw' & Hn' & Hr'); exists v', s';
      (split; [done|]; split; [|done]); unfold toggle in *;
      (destruct (Z.eqb_spec s' slot) as [->|]; [|done]);
      assert ((v', slot) = (v, slot)) as [= ->]
        by (by apply (injective_slots feeds)); congruence.
  - destruct (R2 v slot Hin En) as (i0 & Hi0 & Hi0r & Hs0).
    rewrite (proj2 (rd_Ok _ _ _)) by (split; [lia|done]).
    cbn [mbind result_bind]. unfold WindowRank.NAN_MARKER.
    destruct (Z.eqb_spec i0 (-1)); [lia|].
    assert (Hsame : forall v' s', (v', s') ∈ feeds -> isnan v' = false ->
              WindowRank.rank r !! Z.to_nat s' = Some i0 -> s' = slot).
    { intros v' s' Hin' Hn' Hr'.
      by assert ((v', s') = (v, slot)) as [= -> ->]
        by (by apply (ranked_rank_inj feeds r _ _ _ _ i0)). }
    assert (Hb0 : bit_at (Window.buf (WindowRank.window r)) i0 = win slot).
    { apply eq_true_iff_eq. rewrite Hbits. split.
      - intros (v' & s' & Hin' & Hw' & Hn' & Hr').
        by rewrite <- (Hsame v' s').
      - intros Hws. by exists v, slot. }
    destruct (update_spec cfg op i0 (WindowRank.window r) Hinv)
      as (w' & -> & Hinv' & Hws' & Hsz' & Hbits'); [lia| |].
    { unfold valid_update. rewrite Hb0. exact Hop. }
    cbn [mbind result_bind mret result_ret]. eexists. split; [done|].
    split; [|split; [|done]].
    + unfold same_table. cbn. destruct Hinv' as (Hl' & _).
      repeat split; (done || lia).
    + split; [done|]. cbn [WindowRank.window WindowRank.set_window
                             WindowRank.rank]. intros i.
      rewrite Hbits', Hb0. destruct (Z.eqb_spec i i0) as [->|Hne].
      * split.
        -- intros Hneg. exists v, slot. unfold toggle. by rewrite Z.eqb_refl.
        -- intros (v' & s' & Hin' & Hw' & Hn' & Hr').
           rewrite (Hsame v' s') in Hw' by done.
           unfold toggle in Hw'. by rewrite Z.eqb_refl in Hw'.
      * rewrite Hbits.
        split; intros (v' & s' & Hin' & Hw' & Hn' & Hr'); exists v', s';
          (split; [done|]; split; [|done]); unfold toggle in *;
          (destruct (Z.eqb_spec s' slot) as [->|]; [|done]); congruence.
Qed.

End RankWindow.

(** *** The set bits of the window, in order *)

Lemma set_bits_S b n :
  set_bits b (S n) =
  set_bits b n ++ (if bit_at b (Z.of_nat n) then [Z.of_nat n] else []).
Proof.
  unfold set_bits. rewrite seqZ_S, filter_app, Z.add_0_l. f_equal.
  rewrite filter_cons, filter_nil.
  destruct (bit_at b (Z.of_nat n)); by destruct (decide _).
Qed.

Lemma length_set_bits b n : Z.of_nat (length (set_bits b n)) = count_set b n.
Proof.
  induction n as [|n IH]; [done|]. rewrite set_bits_S, length_app.
  cbn [count_set]. destruct (bit_at b (Z.of_nat n)); cbn [length Z.b2z]; lia.
Qed.

Lemma elem_of_set_bits b n i :
  i ∈ set_bits b n <-> 0 <= i < Z.of_nat n /\ bit_at b i = true.
Proof.
  unfold set_bits. rewrite list_elem_of_filter, elem_of_seqZ. split.
  - intros (? & ?). split; [lia|done].
  - intros (? & ?). split; [done|lia].
Qed.

Lemma set_bits_lookup b g i : forall n,
  nth_set b g i -> i < Z.of_nat n -> set_bits b n !! Z.to_nat g = Some i.
Proof.
  intros n (Hi & Hb & Hc). induction n as [|n IH]; intros Hn; [lia|].
  rewrite set_bits_S. destruct (Z_lt_le_dec i (Z.of_nat n)) as [Hlt|Hge].
  - apply lookup_app_l_Some. by apply IH.
  - assert (i = Z.of_nat n) as -> by lia. rewrite Hb.
    rewrite Nat2Z.id in Hc. pose proof (length_set_bits b n) as Hl.
    rewrite lookup_app_r by lia.
    replace (Z.to_nat g - length (set_bits b n))%nat with 0%nat by lia. done.
Qed.

Lemma set_bits_sorted b n :
  StronglySorted
    (fun i j => 0 <= i < j /\ bit_at b i = true /\ bit_at b j = true)
    (set_bits b n).
Proof.
  induction n as [|n IH]; [constructor|]. rewrite set_bits_S.
  apply StronglySorted_app_2; [|done|].
  - intros x1 x2 H1 H2. apply elem_of_set_bits in H1 as (? & ?).
    destruct (bit_at b (Z.of_nat n)) eqn:E; [|by apply elem_of_nil in H2].
    apply list_elem_of_singleton in H2 as ->. split; [lia|done].
  - destruct (bit_at b (Z.of_nat n)); repeat constructor.
Qed.

Section Selection.
Context {T : Type} `{FloatT T}.
Hypothesis SWO : strict_weak_order T.

Local Abbreviation nonnan := (fun e : T * Z => isnan (fst e) = false).

Lemma window_samples_elem feeds win (e : T * Z) :
  e ∈ window_samples feeds win <->
  e ∈ feeds /\ win (snd e) = true /\ isnan (fst e) = false.
Proof. unfold window_samples. rewrite list_elem_of_filter. tauto. Qed.

(** A set bit of the window is the rank of a sample in the window. *)
Lemma tracked_bit feeds win (r : WindowRank.t T) i :
  ranked feeds r -> tracks feeds win r ->
  bit_at (Window.buf (WindowRank.window r)) i = true ->
  exists e, WindowRank.sorted r !! Z.to_nat i = Some e /\
    e ∈ window_samples feeds win /\ 0 <= i < WindowRank.size r.
Proof.
  intros (_ & _ & _ & R2 & _) (_ & Hbits) Hb.
  apply Hbits in Hb as (v & s & Hin & Hw & Hn & Hr).
  destruct (R2 v s Hin Hn) as (i' & Hi' & Hir & Hs).
  assert (i' = i) as -> by congruence.
  exists (v, s). split; [done|]. split; [|done]. by apply window_samples_elem.
Qed.

Lemma selected_sorted feeds win (r : WindowRank.t T) :
  ranked feeds r -> tracks feeds win r ->
  selected r = sort_pairs (window_samples feeds win).
Proof.
  intros Hrk Htr. pose proof Hrk as ((Hnd & _) & _ & _ & R2 & _ & R4).
  pose proof Htr as (_ & Hbits).
  assert (Hmem : forall e, e ∈ selected r <-> e ∈ window_samples feeds win).
  { intros e. unfold selected. rewrite list_elem_of_fmap. split.
    - intros (i & -> & Hi). apply elem_of_set_bits in Hi as (_ & Hb).
      destruct (tracked_bit feeds win r i Hrk Htr Hb) as (e & He & Hin & _).
      by rewrite (nth_lookup_Some _ _ _ _ He).
    - intros He. apply window_samples_elem in He as (Hin & Hw & Hn).
      destruct e as (v & s). cbn [fst snd] in *.
      destruct (R2 v s Hin Hn) as (i & Hi & Hir & Hs).
      assert (Hb : bit_at (Window.buf (WindowRank.window r)) i = true).
      { apply Hbits. by exists v, s. }
      exists i. split; [by rewrite (nth_lookup_Some _ _ _ _ Hs)|].
      apply elem_of_set_bits. split; [|done].
      apply bit_at_range in Hb. lia. }
  assert (Hnn : Forall nonnan (window_samples feeds win)).
  { apply Forall_forall. intros e He. by apply window_samples_elem in He as (_ & _ & ?). }
  apply (sorted_unique SWO).
  - apply Forall_forall. intros e He. apply Hmem in He.
    rewrite Forall_forall in Hnn. by apply Hnn.
  - by rewrite sort_pairs_perm.
  - unfold selected.
    eapply StronglySorted_fmap; [|apply set_bits_sorted].
    intros i j (Hij & Hbi & Hbj). cbn beta.
    destruct (tracked_bit feeds win r i Hrk Htr Hbi) as (e1 & He1 & _ & Hi).
    destruct (tracked_bit feeds win r j Hrk Htr Hbj) as (e2 & He2 & _ & Hj).
    rewrite (nth_lookup_Some _ _ _ _ He1), (nth_lookup_Some _ _ _ _ He2).
    apply (R4 i j); (done || lia).
  - apply sorted_strict; [|by apply sort_pairs_sorted].
    rewrite sort_pairs_perm. unfold window_samples. by apply NoDup_slots_filter.
  - intros e. rewrite Hmem. by rewrite sort_pairs_perm.
Qed.

End Selection.

(** *** [WindowRank::get_med] *)

Lemma median_goals_odd n :
  1 <= n -> Z.even n = false ->
  Z.quot (n - 0) 2 = Z.quot (n - 1) 2 /\ 0 <= Z.quot (n - 1) 2 < n.
Proof.
  intros Hn He. rewrite !Z.quot_div_nonneg by lia. rewrite Z.sub_0_r.
  rewrite <- Z.negb_odd in He. apply negb_false_iff, Z.odd_spec in He as (k & ->).
  replace (2 * k + 1 - 1) with (k * 2) by lia.
  replace (2 * k + 1) with (1 + k * 2) by lia.
  rewrite Z.div_add, Z.div_mul by lia. change (1 / 2) with 0. lia.
Qed.

Section GetMed.
Context {T : Type} `{FloatT T}.
Hypothesis SWO : strict_weak_order T.

Lemma window_size_samples feeds win (r : WindowRank.t T) :
  ranked feeds r -> tracks feeds win r ->
  Window.size (WindowRank.window r)
    = Z.of_nat (length (window_samples feeds win)).
Proof.
  intros Hrk Htr. pose proof Htr as (Hinv & _).
  rewrite (Window_inv_size _ Hinv), <- count_set_all, <- length_set_bits.
  rewrite <- (Permutation_length (sort_pairs_perm (window_samples feeds win))).
  rewrite <- (selected_sorted SWO feeds win r Hrk Htr).
  unfold selected. by rewrite length_fmap.
Qed.

(** The sample that [find] selects: the entry of [sorted] at the
    returned index is the [goal]-th smallest sample of the window. *)
Lemma find_sample cfg fuel feeds win (r : WindowRank.t T) w goal :
  ranked feeds r -> tracks feeds win r ->
  Window_inv w -> Window.buf w = Window.buf (WindowRank.window r) ->
  Window.words w = Window.words (WindowRank.window r) ->
  0 <= goal < Window.size (WindowRank.window r) ->
  (Z.to_nat (Window.words w) <= fuel)%nat ->
  exists i w' e, Window.find cfg fuel goal w = Ok (i, w') /\
    Window_inv w' /\ Window.buf w' = Window.buf (WindowRank.window r) /\
    Window.words w' = Window.words (WindowRank.window r) /\
    nth_set (Window.buf (WindowRank.window r)) goal i /\
    rd (WindowRank.sorted r) i = Ok e /\
    WindowRank.sorted r !! Z.to_nat i = Some e /\
    sort_pairs (window_samples feeds win) !! Z.to_nat goal = Some e /\
    e ∈ window_samples feeds win.
Proof.
  intros Hrk Htr Hinv Hbuf Hws Hg Hf. pose proof Htr as (Hinv0 & _).
  destruct (find_spec cfg fuel goal w Hinv) as (i & w' & Hfind & Hinv' & Hb' & Hw' & Hnth & Hi);
    [|done|].
  { rewrite (Window_inv_size _ Hinv), Hbuf, <- (Window_inv_size _ Hinv0). done. }
  rewrite Hbuf in Hnth, Hb'. rewrite Hws in Hw', Hi.
  pose proof Hnth as (Hi0 & Hbit & _).
  destruct (tracked_bit feeds win r i Hrk Htr Hbit) as (e & He & Hin & _).
  exists i, w', e. split; [done|]. split; [done|]. split; [done|].
  split; [done|]. split; [done|]. split; [by apply rd_Ok|]. split; [done|].
  split; [|done].
  rewrite <- (selected_sorted SWO feeds win r Hrk Htr). unfold selected.
  rewrite list_lookup_fmap.
  rewrite (set_bits_lookup _ goal i); [cbn; by rewrite (nth_lookup_Some _ _ _ _ He)|done|].
  destruct Hinv0 as (Hlen & _). lia.
Qed.

Lemma nth_fst_lookup (l : list (T * Z)) k e :
  l !! k = Some e -> nth k (fst <$> l) quiet_NaN = fst e.
Proof.
  intros Hk. apply nth_lookup_Some. by rewrite list_lookup_fmap, Hk.
Qed.

Lemma get_med_spec cfg fuel feeds win (r : WindowRank.t T) :
  ranked feeds r -> tracks feeds win r ->
  (Z.to_nat (Window.words (WindowRank.window r)) <= fuel)%nat ->
  let total := Window.size (WindowRank.window r) in
  let W := window_samples feeds win in
  total = Z.of_nat (length W) /\
  (total = 0 -> WindowRank.get_med cfg fuel r = Ok (quiet_NaN, r)) /\
  (total <> 0 ->
     exists med1 w1 e1,
       Window.find cfg fuel (Z.quot (total - 1) 2) (WindowRank.window r)
         = Ok (med1, w1) /\
       WindowRank.sorted r !! Z.to_nat med1 = Some e1 /\ e1 ∈ W /\
       if Z.odd total
       then WindowRank.get_med cfg fuel r
              = Ok (fst e1, WindowRank.set_window r w1)
       else exists med2 w2 e2,
         Window.find cfg fuel (Z.quot (total - 0) 2) w1 = Ok (med2, w2) /\
         WindowRank.sorted r !! Z.to_nat med2 = Some e2 /\ e2 ∈ W /\
         WindowRank.get_med cfg fuel r
           = Ok (fdiv2 (fadd (fst e1) (fst e2)), WindowRank.set_window r w2)) /\
  exists r', WindowRank.get_med cfg fuel r
               = Ok (middle (fst <$> sort_pairs W), r') /\
    same_table r r' /\ tracks feeds win r'.
Proof.
  intros Hrk Htr Hf total W.
  pose proof (window_size_samples feeds win r Hrk Htr) as Htot. fold total W in Htot.
  pose proof Htr as (Hinv & Hbits).
  assert (HlenS : Z.of_nat (length (fst <$> sort_pairs W)) = total).
  { rewrite length_fmap, (Permutation_length (sort_pairs_perm W)). lia. }
  assert (Hzero : total = 0 -> WindowRank.get_med cfg fuel r = Ok (quiet_NaN, r)).
  { intros Hz. unfold WindowRank.get_med. fold total. by rewrite Hz. }
  split; [done|]. split; [done|].
  destruct (Z.eq_dec total 0) as [Hz|Hnz].
  { split; [done|]. exists r. split; [|split; [apply same_table_refl|done]].
    rewrite (Hzero Hz). unfold middle. rewrite HlenS, Hz. done. }
  assert (Htr' : forall w', Window_inv w' ->
            Window.buf w' = Window.buf (WindowRank.window r) ->
            Window.words w' = Window.words (WindowRank.window r) ->
            same_table r (WindowRank.set_window r w') /\
            tracks feeds win (WindowRank.set_window r w')).
  { intros w' Hinv' Hb' Hw'. split.
    - unfold same_table. cbn. rewrite Hb'. done.
    - split; [done|]. cbn [WindowRank.window WindowRank.set_window WindowRank.rank].
      intros i. rewrite Hb'. apply Hbits. }
  assert (1 <= total) as Hpos by lia.
  destruct (Z.even total) eqn:Heven.
  - (* two middle elements *)
    assert (2 <= total) as H2.
    { destruct (Z.eq_dec total 1) as [E|]; [by rewrite E in Heven|lia]. }
    destruct (median_goals total H2 Heven) as (Hg1 & Hg2).
    destruct (find_sample cfg fuel feeds win r (WindowRank.window r)
                (Z.quot (total - 1) 2) Hrk Htr Hinv eq_refl eq_refl)
      as (i1 & w1 & e1 & Hf1 & Hinv1 & Hb1 & Hw1 & Hn1 & Hrd1 & Hs1 & Hl1 & Hin1);
      [fold total; lia|done|].
    destruct (find_sample cfg fuel feeds win r w1
                (Z.quot (total - 0) 2) Hrk Htr Hinv1 Hb1 Hw1)
      as (i2 & w2 & e2 & Hf2 & Hinv2 & Hb2 & Hw2 & Hn2 & Hrd2 & Hs2 & Hl2 & Hin2);
      [fold total; lia|by rewrite Hw1|].
    assert (Hlt : i1 < i2).
    { apply (nth_set_mono _ _ _ _ _ Hn1 Hn2). lia. }
    assert (Hget : WindowRank.get_med cfg fuel r
              = Ok (fdiv2 (fadd (fst e1) (fst e2)), WindowRank.set_window r w2)).
    { unfold WindowRank.get_med. fold total.
      destruct (Z.eqb_spec total 0); [lia|]. rewrite Hf1.
      cbn [mbind result_bind]. rewrite Hrd1. cbn [mbind result_bind].
      destruct (Z.eqb_spec (Z.quot (total - 0) 2) (Z.quot (total - 1) 2)); [lia|].
      cbn [negb]. rewrite Hf2. cbn [mbind result_bind].
      rewrite assert_true by lia. cbn [mbind result_bind]. rewrite Hrd2. done. }
    split.
    + intros _. exists i1, w1, e1. split; [done|]. split; [done|]. split; [done|].
      rewrite <- Z.negb_even, Heven. cbn [negb].
      exists i2, w2, e2. done.
    + exists (WindowRank.set_window r w2). split; [|by apply Htr'].
      rewrite Hget. f_equal. f_equal. unfold middle. rewrite HlenS.
      destruct (Z.eqb_spec total 0); [lia|]. rewrite Heven.
      rewrite Z.quot_div_nonneg in Hl1 by lia.
      rewrite Z.quot_div_nonneg, Z.sub_0_r in Hl2 by lia.
      cbv zeta. unfold W.
      by rewrite (nth_fst_lookup _ _ _ Hl1), (nth_fst_lookup _ _ _ Hl2).
  - (* one middle element *)
    destruct (median_goals_odd total Hpos Heven) as (Hgeq & Hg1).
    destruct (find_sample cfg fuel feeds win r (WindowRank.window r)
                (Z.quot (total - 1) 2) Hrk Htr Hinv eq_refl eq_refl)
      as (i1 & w1 & e1 & Hf1 & Hinv1 & Hb1 & Hw1 & Hn1 & Hrd1 & Hs1 & Hl1 & Hin1);
      [fold total; lia|done|].
    assert (Hget : WindowRank.get_med cfg fuel r
              = Ok (fst e1, WindowRank.set_window r w1)).
    { unfold WindowRank.get_med. fold total.
      destruct (Z.eqb_spec total 0); [lia|]. rewrite Hf1.
      cbn [mbind result_bind]. rewrite Hrd1. cbn [mbind result_bind].
      rewrite Hgeq, Z.eqb_refl. done. }
    split.
    + intros _. exists i1, w1, e1. split; [done|]. split; [done|]. split; [done|].
      rewrite <- Z.negb_even, Heven. done.
    + exists (WindowRank.set_window r w1). split; [|by apply Htr'].
      rewrite Hget. f_equal. f_equal. unfold middle. rewrite HlenS.
      destruct (Z.eqb_spec total 0); [lia|]. rewrite Heven.
      rewrite Z.quot_div_nonneg in Hl1 by lia.
      cbv zeta. unfold W.
      by rewrite (nth_fst_lookup _ _ _ Hl1).
Qed.

End GetMed.

(** *** The states of a rank table in use *)

Section RankState.
Context {T : Type} `{FloatT T}.
Variable std_sort : list (T * Z) -> list (T * Z).
Hypothesis SWO : strict_weak_order T.
Hypothesis SORT : sort_contract std_sort.

Lemma WindowRank_make_shape cfg bb (r : WindowRank.t T) :
  1 <= bb -> WindowRank.make cfg bb = Ok r -> shape r /\ WindowRank.bb r = bb.
Proof.
  intros Hbb. unfold WindowRank.make.
  destruct (Window.make cfg bb) as [w|] eqn:Hw; [|done].
  cbn [mbind result_bind mret result_ret]. intros [= <-].
  destruct (make_spec cfg bb w Hbb Hw) as (_ & Hw1 & Hcap & Hbuf).
  unfold shape. cbn. rewrite !length_replicate, Hbuf, length_replicate.
  repeat split; lia.
Qed.

Lemma init_start_shape (r : WindowRank.t T) : shape r -> shape (WindowRank.init_start r).
Proof. done. Qed.



End RankState.


(** *** The example instance *)

Lemma qlt_spec (a b : Q) : Example.qlt a b = true <-> (a < b)%Q.
Proof.
  unfold Example.qlt. rewrite negb_true_iff, <- not_true_iff_false, Qle_bool_iff.
  split; [apply Qnot_le_lt|apply Qlt_not_le].
Qed.

Lemma optQ_strict_weak_order : strict_weak_order (option Q).
Proof.
  split; [|split].
  - intros [a|] _; [|done]. cbn. apply not_true_iff_false.
    rewrite qlt_spec. apply Qlt_irrefl.
  - intros [a|] [b|] [c|] Ha Hb Hc; cbn in *; try done. rewrite !qlt_spec.
    apply Qlt_trans.
  - intros [a|] [b|] [c|] Ha Hb Hc; cbn in *; try done. rewrite !qlt_spec. intros Hac.
    destruct (Qlt_le_dec a b) as [?|Hba]; [by left|right].
    by apply (Qle_lt_trans _ a).
Qed.



(** *** The driver's validation *)

Lemma Dim_make_fault cfg b size h f :
  Dim.make cfg b size h = Fault f -> f = AssertionFailed /\ NDEBUG cfg = false.
Proof.
  unfold Dim.make, assert.
  repeat match goal with
         | |- context [if ?c then _ else _] => destruct c
         end; cbn; intros Hf; (discriminate Hf || by injection Hf as <-).
Qed.

Lemma Dim_make_too_large cfg b size h :
  NDEBUG cfg = false -> b <= 2 * h + 1 ->
  Dim.make cfg b size h = Fault AssertionFailed.
Proof.
  intros Hd Hb. unfold Dim.make, assert. cbn [Dim.h].
  destruct (Z.ltb_spec (2 * h + 1) b); [lia|]. by rewrite Hd.
Qed.

Section DriverFacts.
Context {T : Type} `{FloatT T}.
Variable std_sort : list (T * Z) -> list (T * Z).
Variable cfg : Build.

Lemma median_filter_2d_thrown fuel x y hx hy blockhint (in_ out_ : list T) :
  let b := if blockhint =? 0 then choose_blocksize_2d (Z.max hx hy) else blockhint in
  2 * hx + 1 > b \/ 2 * hy + 1 > b ->
  median_filter_2d std_sort cfg fuel x y hx hy blockhint in_ out_
    = Thrown invalid_argument out_.
Proof.
  intros b Hb. unfold median_filter_2d, median_filter_impl_2d. fold b.
  destruct (Z.gtb_spec (2 * hx + 1) b), (Z.gtb_spec (2 * hy + 1) b); (done || lia).
Qed.

Lemma median_filter_2d_not_thrown fuel x y hx hy blockhint (in_ out_ : list T) :
  let b := if blockhint =? 0 then choose_blocksize_2d (Z.max hx hy) else blockhint in
  2 * hx + 1 <= b -> 2 * hy + 1 <= b ->
  median_filter_2d std_sort cfg fuel x y hx hy blockhint in_ out_ =
    match run_blocks std_sort cfg fuel x y hx hy b in_ out_ with
    | Ok out' => Returned out'
    | Fault f => Aborted f
    end.
Proof.
  intros b Hx Hy. unfold median_filter_2d, median_filter_impl_2d. fold b.
  destruct (Z.gtb_spec (2 * hx + 1) b), (Z.gtb_spec (2 * hy + 1) b); (done || lia).
Qed.

Lemma run_blocks_boundary fuel x y hx hy b (in_ out_ : list T) :
  NDEBUG cfg = false -> b <= 2 * hx + 1 \/ b <= 2 * hy + 1 ->
  run_blocks std_sort cfg fuel x y hx hy b in_ out_ = Fault AssertionFailed.
Proof.
  intros Hd Hb. unfold run_blocks.
  destruct (Dim.make cfg b x hx) as [dx|f] eqn:Ex.
  - destruct Hb as [Hb|Hb]; [by rewrite Dim_make_too_large in Ex|].
    cbn [mbind result_bind]. by rewrite Dim_make_too_large.
  - apply Dim_make_fault in Ex as (-> & _). done.
Qed.

End DriverFacts.

(** C3: [median_filter_2d] throws exactly when [2 hx + 1 > b] or
    [2 hy + 1 > b] for the resolved block size [b], and then leaves the
    output buffer as it was.  On the boundary [2 hx + 1 = b] or
    [2 hy + 1 = b], which the claim counts as an invalid window and
    which the constructor of [Dim] asserts against, it does not throw:
    a build with assertions ends on the failed assertion, a build
    without them runs the filter. *)
Theorem window_check_off_by_one :
  (forall (T : Type) (F : FloatT T) (std_sort : list (T * Z) -> list (T * Z))
          cfg fuel x y hx hy blockhint (in_ out_ : list T),
     let b := if blockhint =? 0 then choose_blocksize_2d (Z.max hx hy)
              else blockhint in
     let o := median_filter_2d std_sort cfg fuel x y hx hy blockhint in_ out_ in
     (raised o = Some invalid_argument <-> 2 * hx + 1 > b \/ 2 * hy + 1 > b) /\
     (2 * hx + 1 > b \/ 2 * hy + 1 > b -> o = Thrown invalid_argument out_) /\
     (Z.max (2 * hx + 1) (2 * hy + 1) = b -> NDEBUG cfg = false ->
      o = Aborted AssertionFailed)) /\
  Example.filter2d Example.debug 5 1 1 0 3 (Example.q <$> [1; 5; 2; 4; 3])
    = Aborted AssertionFailed /\
  Example.filter2d Example.release 5 1 1 0 3 (Example.q <$> [1; 5; 2; 4; 3])
    = Returned [Example.q 3; Example.q 2; Example.q 4; Example.q 3; Some (7 # 2)%Q].
Proof.
  split; [|split; vm_compute; reflexivity].
  intros T F std_sort cfg fuel x y hx hy blockhint in_ out_ b o.
  assert (Hthrow : 2 * hx + 1 > b \/ 2 * hy + 1 > b -> o = Thrown invalid_argument out_).
  { intros Hb. by apply median_filter_2d_thrown. }
  split; [|split; [exact Hthrow|]].
  - split; [|by intros Hb; rewrite Hthrow].
    intros Hr. destruct (Z_le_gt_dec (2 * hx + 1) b); [|lia].
    destruct (Z_le_gt_dec (2 * hy + 1) b); [|lia]. exfalso.
    unfold o in Hr. rewrite median_filter_2d_not_thrown in Hr by done.
    by destruct (run_blocks _ _ _ _ _ _ _ _ _ _).
  - intros Hmax Hd. unfold o.
    rewrite median_filter_2d_not_thrown by (fold b; lia). fold b.
    rewrite run_blocks_boundary; [done|done|lia].
Qed.

(** C4: [median_filter_2d] has no check of [X] and [Y].  Whenever the
    window fits the block size it raises nothing, whatever [X] and [Y]
    are, and goes on to the blocks.  On an empty image ([X = 0] or
    [Y = 0]) the one block has an empty interior [[b0, b1) = [0, 0)],
    and the traversal starts at [b0] all the same: a build with
    assertions fails [assert(v < b1)] in [BDim::w0], a build without
    them computes the median of an empty window and writes it to
    [out[0]], outside the empty output buffer. *)
Theorem empty_image_not_rejected :
  (forall (T : Type) (F : FloatT T) (std_sort : list (T * Z) -> list (T * Z))
          cfg fuel x y hx hy blockhint (in_ out_ : list T),
     let b := if blockhint =? 0 then choose_blocksize_2d (Z.max hx hy)
              else blockhint in
     2 * hx + 1 <= b /\ 2 * hy + 1 <= b ->
     raised (median_filter_2d std_sort cfg fuel x y hx hy blockhint in_ out_)
       = None) /\
  (Example.filter2d Example.debug 0 1 0 0 0 [] = Aborted AssertionFailed /\
   Example.filter2d Example.release 0 1 0 0 0 [] = Aborted OutOfBounds) /\
  (Example.filter2d Example.debug 1 0 0 0 0 [] = Aborted AssertionFailed /\
   Example.filter2d Example.release 1 0 0 0 0 [] = Aborted OutOfBounds) /\
  (exists d, Dim.make Example.debug 8 0 0 = Ok d /\
     BDim.b0 (BDim.set 0 (BDim.make d)) = 0 /\
     BDim.b1 (BDim.set 0 (BDim.make d)) = 0 /\
     BDim.w0 Example.debug 0 (BDim.set 0 (BDim.make d)) = Fault AssertionFailed) /\
  wr_at (@nil (option Q)) 0 None = Fault OutOfBounds.
Proof.
  split; [|split; [|split; [|split]]].
  - intros T F std_sort cfg fuel x y hx hy blockhint in_ out_ b (Hx & Hy).
    rewrite median_filter_2d_not_thrown by done.
    by destruct (run_blocks _ _ _ _ _ _ _ _ _ _).
  - split; vm_compute; reflexivity.
  - split; vm_compute; reflexivity.
  - eexists. split; [vm_compute; reflexivity|]. repeat split.
  - reflexivity.
Qed.

(** *** Ascending lists of indices *)

Lemma sorted_Z_unique (l1 : list Z) : forall l2,
  StronglySorted Z.lt l1 -> StronglySorted Z.lt l2 ->
  (forall x, x ∈ l1 <-> x ∈ l2) -> l1 = l2.
Proof.
  induction l1 as [|a l1 IH]; intros [|b l2] Hs1 Hs2 Hm.
  - done.
  - exfalso. eapply elem_of_nil, Hm. left.
  - exfalso. eapply elem_of_nil, Hm. left.
  - apply StronglySorted_inv in Hs1 as (Hs1 & Hal).
    apply StronglySorted_inv in Hs2 as (Hs2 & Hbl).
    rewrite Forall_forall in Hal, Hbl.
    assert (a = b) as <-.
    { assert (a ∈ b :: l2) as Hab by (apply Hm; left).
      assert (b ∈ a :: l1) as Hba by (apply Hm; left).
      apply elem_of_cons in Hab as [?|Hab]; [done|].
      apply elem_of_cons in Hba as [?|Hba]; [done|].
      pose proof (Hal _ Hba). pose proof (Hbl _ Hab). lia. }
    f_equal. apply IH; [done|done|]. intros x. split; intros Hx.
    + assert (x ∈ a :: l2) as Hx' by (apply Hm; by right).
      apply elem_of_cons in Hx' as [->|?]; [|done]. pose proof (Hal _ Hx). lia.
    + assert (x ∈ a :: l1) as Hx' by (apply Hm; by right).
      apply elem_of_cons in Hx' as [->|?]; [|done]. pose proof (Hbl _ Hx). lia.
Qed.

Lemma filter_seqZ_sorted (P : Z -> Prop) `{!forall x, Decision (P x)} (N : Z) :
  forall n : nat, Z.of_nat n <= N ->
  StronglySorted (fun i j => 0 <= i < j /\ j < N)
    (filter P (seqZ 0 (Z.of_nat n))).
Proof.
  induction n as [|n IH]; intros Hn; [constructor|].
  rewrite seqZ_S, filter_app. apply StronglySorted_app_2; [|apply IH; lia|].
  - intros x1 x2 H1 H2. apply list_elem_of_filter in H1 as (_ & H1).
    apply list_elem_of_filter in H2 as (_ & H2).
    apply elem_of_seqZ in H1. apply list_elem_of_singleton in H2. lia.
  - rewrite filter_cons, filter_nil. destruct (decide _); repeat constructor.
Qed.

Lemma filter_fmap_comm {A B : Type} (f : A -> B) (P : B -> Prop)
    `{!forall x, Decision (P x)} (l : list A) :
  filter P (f <$> l) = f <$> filter (fun a => P (f a)) l.
Proof.
  induction l as [|a l IH]; [done|]. rewrite fmap_cons, !filter_cons.
  destruct (decide (P (f a))); by rewrite IH.
Qed.

(** *** The stable sort of the values and the sort of the pairs *)

Section Stable.
Context {T : Type} `{FloatT T}.

Lemma insert_pair_fst (a : T * Z) l :
  Forall (fun b => snd a < snd b) l ->
  fst <$> insert_pair a l = insert_sorted (fst a) (fst <$> l).
Proof.
  induction l as [|b l IH]; intros Hl; [done|].
  apply Forall_cons in Hl as (Hb & Hl). cbn [insert_pair insert_sorted fmap list_fmap].
  unfold pair_lt. destruct (Z.ltb_spec (snd b) (snd a)); [lia|].
  rewrite andb_false_r, orb_false_r.
  destruct (flt (fst b) (fst a)); [|done]. cbn [fmap list_fmap]. f_equal.
  by apply IH.
Qed.

Lemma sort_pairs_stable (l : list (T * Z)) :
  StronglySorted (fun a b => snd a < snd b) l ->
  fst <$> sort_pairs l = sort_ref (fst <$> l).
Proof.
  induction 1 as [|a l Hs IH Ha]; [done|].
  unfold sort_pairs, sort_ref in *. cbn [foldr fmap list_fmap].
  rewrite insert_pair_fst; [by rewrite IH|].
  fold (sort_pairs l). by rewrite sort_pairs_perm.
Qed.

End Stable.

(** *** Tiles *)

Lemma tile_ok_set b d i bd :
  Dim_valid b d -> BDim.dim bd = d -> 0 <= i < Dim.count d ->
  tile_ok b (Dim.size d) (Dim.h d) (BDim.set i bd).
Proof.
  intros Hv Hd Hi.
  pose proof (BDim_set_bounds b d i bd Hv Hd Hi) as (H1 & H2 & H3 & H4 & H5).
  assert (Hdim : BDim.dim (BDim.set i bd) = d) by done.
  unfold tile_ok. rewrite Hdim. pose proof Hv as (_ & Hh & _).
  do 8 (split; [done || lia|]).
  intros v Hin.
  destruct (BDim_window_clip Example.debug b d i bd v Hv Hd Hi Hin)
    as (lo & hi & Hlo & Hhi & _ & _ & E1 & E2).
  assert (Hw0 : BDim.w0 Example.debug v (BDim.set i bd) = Ok (Z.max 0 (v - Dim.h d))).
  { unfold BDim.w0. rewrite !assert_true by lia. by rewrite Hdim. }
  assert (Hw1 : BDim.w1 Example.debug v (BDim.set i bd)
                = Ok (Z.min (v + 1 + Dim.h d) (BDim.size (BDim.set i bd)))).
  { unfold BDim.w1. rewrite !assert_true by lia. by rewrite Hdim. }
  rewrite Hw0 in Hlo. rewrite Hw1 in Hhi.
  injection Hlo as <-. injection Hhi as <-. split; [exact E1|exact E2].
Qed.

Lemma tile_w0 cfg b N h bd v :
  tile_ok b N h bd -> BDim.b0 bd <= v < BDim.b1 bd ->
  BDim.w0 cfg v bd = Ok (Z.max 0 (v - h)).
Proof.
  intros (_ & <- & _) Hv. unfold BDim.w0. by rewrite !assert_true by lia.
Qed.

Lemma tile_w1 cfg b N h bd v :
  tile_ok b N h bd -> BDim.b0 bd <= v < BDim.b1 bd ->
  BDim.w1 cfg v bd = Ok (Z.min (v + 1 + h) (BDim.size bd)).
Proof.
  intros (_ & <- & _) Hv. unfold BDim.w1. by rewrite !assert_true by lia.
Qed.

(** *** Slots and cells *)

Lemma pack_mod sx x y : 0 <= x < sx -> (y * sx + x) mod sx = x.
Proof. intros Hx. rewrite Z.add_comm, Z.mod_add by lia. apply Z.mod_small. lia. Qed.

Lemma pack_div sx x y : 0 <= x < sx -> (y * sx + x) / sx = y.
Proof.
  intros Hx. rewrite Z.add_comm, Z.div_add by lia. rewrite Z.div_small by lia. lia.
Qed.

Lemma slot_split sx s : 0 < sx -> s = s / sx * sx + s mod sx /\ 0 <= s mod sx < sx.
Proof.
  intros Hsx. pose proof (Z.div_mod s sx ltac:(lia)).
  pose proof (Z.mod_pos_bound s sx ltac:(lia)). lia.
Qed.

Lemma slot_div_range sx sy s : 0 < sx -> 0 <= s < sx * sy -> 0 <= s / sx < sy.
Proof.
  intros Hsx Hs. split; [apply Z.div_pos; lia|].
  apply Z.div_lt_upper_bound; lia.
Qed.

(** *** [MedCalc2D::calc_rank] *)

Lemma seqZ_snoc n : 0 <= n -> seqZ 0 (n + 1) = seqZ 0 n ++ [n].
Proof.
  intros Hn. replace (n + 1) with (Z.of_nat (S (Z.to_nat n))) by lia.
  rewrite seqZ_S, Z2Nat.id by lia. done.
Qed.

Section CalcRank.
Context {T : Type} `{FloatT T}.
Variable std_sort : list (T * Z) -> list (T * Z).
Hypothesis SWO : strict_weak_order T.
Hypothesis SORT : sort_contract std_sort.
Variables b X Y hx hy : Z.
Variable inp : list T.

Lemma at_block_coord (mc : MedCalc2D.t T) x y :
  at_block b X Y hx hy inp mc ->
  0 <= x < BDim.size (MedCalc2D.bx mc) -> 0 <= y < BDim.size (MedCalc2D.by_ mc) ->
  0 <= MedCalc2D.coord mc x y < X * Y /\
  MedCalc2D.coord mc x y mod X = x + BDim.start (MedCalc2D.bx mc) /\
  MedCalc2D.coord mc x y / X = y + BDim.start (MedCalc2D.by_ mc).
Proof.
  intros (Tx & Ty & _) Hx Hy.
  destruct Tx as (Sx & _ & _ & Hox & Hsx & Hex & _).
  destruct Ty as (Sy & _ & _ & Hoy & Hsy & Hey & _).
  unfold MedCalc2D.coord. rewrite Sx.
  set (ox := BDim.start (MedCalc2D.bx mc)) in *.
  set (oy := BDim.start (MedCalc2D.by_ mc)) in *.
  split; [nia|]. split; [apply pack_mod; lia|apply pack_div; lia].
Qed.

Lemma feeds_prefix_valid (mc : MedCalc2D.t T) m :
  at_block b X Y hx hy inp mc ->
  0 <= m <= BDim.size (MedCalc2D.bx mc) * BDim.size (MedCalc2D.by_ mc) ->
  valid_feeds (b * b) (feed_of mc <$> seqZ 0 m).
Proof.
  intros (Tx & Ty & _) Hm.
  destruct Tx as (_ & _ & _ & _ & Hsx & _). destruct Ty as (_ & _ & _ & _ & Hsy & _).
  split.
  - rewrite <- list_fmap_compose.
    rewrite (list_fmap_ext _ id (seqZ 0 m)) by done.
    rewrite list_fmap_id. apply NoDup_seqZ.
  - apply Forall_fmap, Forall_forall. intros s Hs. apply elem_of_seqZ in Hs.
    cbn. nia.
Qed.

Lemma calc_rank_spec (mc : MedCalc2D.t T) :
  at_block b X Y hx hy inp mc ->
  exists r, MedCalc2D.calc_rank std_sort mc = Ok (MedCalc2D.set_wr mc r) /\
    shape r /\ WindowRank.bb r = b * b /\ ranked (block_feeds mc) r.
Proof.
  intros Hat. pose proof Hat as (Tx & Ty & Hin & Hlen & Hout & Hsh & Hbb).
  pose proof Tx as (_ & _ & _ & _ & Hsx & _).
  pose proof Ty as (_ & _ & _ & _ & Hsy & _).
  set (sx := BDim.size (MedCalc2D.bx mc)) in *.
  set (sy := BDim.size (MedCalc2D.by_ mc)) in *.
  set (r0 := WindowRank.init_start (MedCalc2D.wr mc)).
  assert (Hsh0 : shape r0) by done.
  assert (Hbb0 : WindowRank.bb r0 = b * b) by done.
  unfold MedCalc2D.calc_rank. fold r0 sx sy.
  destruct (for_range_ind
    (fun y r => fed (feed_of mc <$> seqZ 0 (y * sx)) r0 r) 0 sy
    (fun y r => for_range 0 sx (fun x r =>
        v ← rd (MedCalc2D.inp mc) (MedCalc2D.coord mc x y);
        WindowRank.init_feed v (MedCalc2D.pack mc x y) r) r) r0)
    as (r1 & Hloop & Hfed).
  - lia.
  - apply init_start_fed.
  - intros y r Hy Hfed.
    destruct (for_range_ind
      (fun x r => fed (feed_of mc <$> seqZ 0 (y * sx + x)) r0 r) 0 sx
      (fun x r =>
        v ← rd (MedCalc2D.inp mc) (MedCalc2D.coord mc x y);
        WindowRank.init_feed v (MedCalc2D.pack mc x y) r) r)
      as (r' & Hloop' & Hfed').
    + lia.
    + by rewrite Z.add_0_r.
    + intros x r' Hx Hfed'.
      destruct (at_block_coord mc x y Hat Hx Hy) as (Hc & _).
      destruct (rd_in_range (MedCalc2D.inp mc) (MedCalc2D.coord mc x y))
        as (v & -> & Hv); [rewrite Hin; lia|].
      cbn [mbind result_bind].
      assert (Hfeed : feed_of mc (y * sx + x) = (v, MedCalc2D.pack mc x y)).
      { unfold feed_of. fold sx. rewrite pack_mod, pack_div by lia.
        by rewrite (nth_lookup_Some _ _ _ _ Hv). }
      assert (Hsnoc : feed_of mc <$> seqZ 0 (y * sx + (x + 1)) =
                (feed_of mc <$> seqZ 0 (y * sx + x)) ++ [(v, MedCalc2D.pack mc x y)]).
      { rewrite Z.add_assoc, seqZ_snoc, fmap_app by nia. cbn. by rewrite Hfeed. }
      rewrite Hsnoc.
      apply (init_feed_fed _ (v, MedCalc2D.pack mc x y) r0 r' Hsh0 Hfed').
      rewrite <- Hsnoc, Hbb0. apply feeds_prefix_valid; [done|]. fold sx sy. nia.
    + exists r'. split; [done|].
      by replace ((y + 1) * sx) with (y * sx + sx) by lia.
  - rewrite Hloop. cbn [mbind result_bind].
    assert (Hfeeds : feed_of mc <$> seqZ 0 (sy * sx) = block_feeds mc).
    { unfold block_feeds. fold sx sy. by rewrite (Z.mul_comm sy sx). }
    rewrite Hfeeds in Hfed.
    destruct (init_finish_ranked std_sort SORT (block_feeds mc) r0 r1 Hsh0 Hfed)
      as (r2 & -> & Hrk & Hsh2 & _ & Hbb2).
    { rewrite Hbb0, <- Hfeeds. apply feeds_prefix_valid; [done|]. fold sx sy. lia. }
    cbn [mbind result_bind mret result_ret]. exists r2.
    split; [done|]. split; [done|]. split; [by rewrite Hbb2|done].
Qed.

End CalcRank.

(** *** [MedCalc2D::update_block] *)

(** Case analysis on the comparisons of a goal. *)
Ltac cases_cmp :=
  repeat match goal with
         | |- context [?a <=? ?b] => destruct (Z.leb_spec a b)
         | |- context [?a <? ?b] => destruct (Z.ltb_spec a b)
         | |- context [?a =? ?b] => destruct (Z.eqb_spec a b)
         end.

Section UpdateBlock.
Context {T : Type} `{FloatT T}.
Variable cfg : Build.
Variables b X Y hx hy : Z.
Variable inp : list T.

Lemma tracks_ext feeds win win' (r : WindowRank.t T) :
  (forall v s, (v, s) ∈ feeds -> win s = win' s) ->
  tracks feeds win r -> tracks feeds win' r.
Proof.
  intros Hext (Hinv & Hbits). split; [done|]. intros i. rewrite Hbits.
  split; intros (v & s & Hin & Hw & Hn & Hr); exists v, s;
    (split; [done|]; split; [|done]);
    [rewrite <- (Hext v s)|rewrite (Hext v s)]; done.
Qed.

Lemma block_feeds_elem (mc : MedCalc2D.t T) s :
  0 <= s < BDim.size (MedCalc2D.bx mc) * BDim.size (MedCalc2D.by_ mc) ->
  feed_of mc s ∈ block_feeds mc.
Proof.
  intros Hs. unfold block_feeds. apply list_elem_of_fmap_2, elem_of_seqZ. lia.
Qed.

Lemma update_block_spec (mc : MedCalc2D.t T) win op x0 x1 y0 y1 :
  at_block b X Y hx hy inp mc ->
  ranked (block_feeds mc) (MedCalc2D.wr mc) ->
  tracks (block_feeds mc) win (MedCalc2D.wr mc) ->
  op = 1 \/ op = -1 ->
  0 <= x0 <= x1 -> x1 <= BDim.size (MedCalc2D.bx mc) ->
  0 <= y0 <= y1 -> y1 <= BDim.size (MedCalc2D.by_ mc) ->
  (forall s, rect_win (BDim.size (MedCalc2D.bx mc)) x0 x1 y0 y1 s = true ->
             win s = (op =? -1)) ->
  exists r,
    MedCalc2D.update_block cfg op x0 x1 y0 y1 mc = Ok (MedCalc2D.set_wr mc r) /\
    same_table (MedCalc2D.wr mc) r /\
    tracks (block_feeds mc)
      (fun s => xorb (win s)
                  (rect_win (BDim.size (MedCalc2D.bx mc)) x0 x1 y0 y1 s)) r.
Proof.
  intros Hat Hrk Htr Hop Hx0 Hx1 Hy0 Hy1 Hwin.
  pose proof Hat as (Tx & Ty & _ & _ & _ & Hsh & _).
  pose proof Tx as (_ & _ & _ & _ & Hsx & _).
  pose proof Ty as (_ & _ & _ & _ & Hsy & _).
  set (sx := BDim.size (MedCalc2D.bx mc)) in *.
  set (sy := BDim.size (MedCalc2D.by_ mc)) in *.
  set (feeds := block_feeds mc) in *.
  set (row := fun (y k s : Z) =>
         rect_win sx x0 x1 y0 y s ||
         ((s / sx =? y) && (x0 <=? s mod sx) && (s mod sx <? k))).
  unfold MedCalc2D.update_block.
  destruct (for_range_ind
    (fun y r => same_table (MedCalc2D.wr mc) r /\
       tracks feeds (fun s => xorb (win s) (rect_win sx x0 x1 y0 y s)) r)
    y0 y1
    (fun y r => for_range x0 x1
       (fun x r => WindowRank.update cfg op (MedCalc2D.pack mc x y) r) r)
    (MedCalc2D.wr mc)) as (r1 & Hloop & Hst & Htr1).
  - lia.
  - split; [apply same_table_refl|]. apply (tracks_ext feeds win); [|done].
    intros v s _. unfold rect_win. cases_cmp; cbn; try lia; by destruct (win s).
  - intros y r Hy (Hst & Htr').
    destruct (for_range_ind
      (fun x r => same_table (MedCalc2D.wr mc) r /\
         tracks feeds (fun s => xorb (win s) (row y x s)) r)
      x0 x1
      (fun x r => WindowRank.update cfg op (MedCalc2D.pack mc x y) r) r)
      as (r' & Hloop' & Hst' & Htr'').
    + lia.
    + split; [done|]. revert Htr'. apply tracks_ext. intros v s _.
      unfold row, rect_win. cases_cmp; cbn; try lia; done.
    + intros x r' Hx (Hst' & Htr'').
      set (slot := MedCalc2D.pack mc x y).
      assert (Hslot : slot = y * sx + x) by done.
      assert (Hsm : slot mod sx = x) by (rewrite Hslot; apply pack_mod; lia).
      assert (Hsd : slot / sx = y) by (rewrite Hslot; apply pack_div; lia).
      assert (Hrow : row y x slot = false).
      { unfold row, rect_win. rewrite Hsm, Hsd. cases_cmp; cbn; (done || lia). }
      assert (Hw : win slot = (op =? -1)).
      { apply Hwin. unfold rect_win. rewrite Hsm, Hsd. cases_cmp; cbn; (done || lia). }
      destruct (update_tracks cfg feeds (fun s => xorb (win s) (row y x s)) r' op
                  (fst (feed_of mc slot)) slot)
        as (r'' & Hup & Hst'' & Htr''' & _).
      * by apply (same_table_shape (MedCalc2D.wr mc)).
      * by apply (same_table_ranked feeds (MedCalc2D.wr mc)).
      * exact Htr''.
      * apply block_feeds_elem. fold sx sy. nia.
      * cbn beta. rewrite Hrow, Hw, xorb_false_r.
        destruct Hop as [-> | ->]; [by left|by right].
      * exists r''. split; [done|].
        split; [by apply (same_table_trans _ r')|].
        revert Htr'''. apply tracks_ext. intros v s _. unfold toggle.
        destruct (Z.eqb_spec s slot) as [->|Hne].
        -- rewrite Hrow, xorb_false_r. unfold row, rect_win. rewrite Hsm, Hsd.
           destruct (win slot); cases_cmp; cbn; (done || lia).
        -- assert (Hcell : ~ (s / sx = y /\ s mod sx = x)).
           { intros (Hq & Hm). apply Hne.
             destruct (slot_split sx s ltac:(lia)) as (Hs & _). lia. }
           unfold row, rect_win. f_equal. cases_cmp; cbn; (done || lia).
    + exists r'. split; [done|]. split; [done|].
      revert Htr''. apply tracks_ext. intros v s _.
      unfold row, rect_win. f_equal. cases_cmp; cbn; (done || lia).
  - rewrite Hloop. cbn [mbind result_bind mret result_ret]. by exists r1.
Qed.

End UpdateBlock.

(** *** The samples of the window of a block and of the image *)

Lemma StronglySorted_weaken {A : Type} (R R' : A -> A -> Prop) l :
  (forall x y, R x y -> R' x y) -> StronglySorted R l -> StronglySorted R' l.
Proof.
  intros HR Hs. rewrite <- (list_fmap_id l).
  by apply (StronglySorted_fmap id R R').
Qed.

Lemma pack_range sx sy x y :
  0 <= x < sx -> 0 <= y < sy -> 0 <= y * sx + x < sx * sy.
Proof.
  intros Hx Hy. pose proof (Z.mul_le_mono_nonneg_r (y + 1) sy sx ltac:(lia) ltac:(lia)).
  pose proof (Z.mul_nonneg_nonneg y sx ltac:(lia) ltac:(lia)). lia.
Qed.

Lemma slot_order sx i j :
  0 < sx -> 0 <= i < j ->
  i / sx < j / sx \/ (i / sx = j / sx /\ i mod sx < j mod sx).
Proof.
  intros Hsx Hij.
  destruct (slot_split sx i Hsx) as (Ei & Hmi).
  destruct (slot_split sx j Hsx) as (Ej & Hmj).
  destruct (Z_lt_le_dec (i / sx) (j / sx)) as [|Hle]; [by left|right].
  destruct (Z.eq_dec (i / sx) (j / sx)) as [Heq|Hne].
  - split; [done|]. rewrite Heq in Ei. lia.
  - exfalso.
    pose proof (Z.mul_le_mono_nonneg_r (j / sx + 1) (i / sx) sx ltac:(lia) ltac:(lia)).
    lia.
Qed.

Section WindowSamples.
Context {T : Type} `{FloatT T}.
Variables b X Y hx hy : Z.
Variable inp : list T.

(** The cells of the image in the window around [(gx, gy)] are the
    cells of the block in [[x0, x1) x [y0, y1)], in the same order. *)
Lemma window_cells (mc : MedCalc2D.t T) x0 x1 y0 y1 gx gy :
  at_block b X Y hx hy inp mc ->
  0 <= x0 -> x1 <= BDim.size (MedCalc2D.bx mc) ->
  0 <= y0 -> y1 <= BDim.size (MedCalc2D.by_ mc) ->
  BDim.start (MedCalc2D.bx mc) + x0 = Z.max 0 (gx - hx) ->
  BDim.start (MedCalc2D.bx mc) + x1 = Z.min X (gx + hx + 1) ->
  BDim.start (MedCalc2D.by_ mc) + y0 = Z.max 0 (gy - hy) ->
  BDim.start (MedCalc2D.by_ mc) + y1 = Z.min Y (gy + hy + 1) ->
  filter (fun c => (Z.max 0 (gx - hx) <= c mod X < Z.min X (gx + hx + 1)) /\
                   (Z.max 0 (gy - hy) <= c / X < Z.min Y (gy + hy + 1)))
         (seqZ 0 (X * Y)) =
  (fun s => MedCalc2D.coord mc (s mod BDim.size (MedCalc2D.bx mc))
                               (s / BDim.size (MedCalc2D.bx mc))) <$>
    filter (fun s => rect_win (BDim.size (MedCalc2D.bx mc)) x0 x1 y0 y1 s = true)
      (seqZ 0 (BDim.size (MedCalc2D.bx mc) * BDim.size (MedCalc2D.by_ mc))).
Proof.
  intros Hat Hx0 Hx1 Hy0 Hy1 Ex0 Ex1 Ey0 Ey1.
  pose proof Hat as (Tx & Ty & _ & Hlen & _).
  pose proof Tx as (Sx & _ & _ & Hox & Hsx & Hex & _).
  pose proof Ty as (Sy & _ & _ & Hoy & Hsy & Hey & _).
  set (sx := BDim.size (MedCalc2D.bx mc)) in *.
  set (sy := BDim.size (MedCalc2D.by_ mc)) in *.
  set (ox := BDim.start (MedCalc2D.bx mc)) in *.
  set (oy := BDim.start (MedCalc2D.by_ mc)) in *.
  assert (HX : 0 < X) by lia. assert (HY : 0 < Y) by lia.
  apply sorted_Z_unique.
  - replace (X * Y) with (Z.of_nat (Z.to_nat (X * Y))) by nia.
    eapply StronglySorted_weaken; [|apply (filter_seqZ_sorted _ (X * Y)); nia].
    cbn beta. intros; lia.
  - replace (sx * sy) with (Z.of_nat (Z.to_nat (sx * sy))) by nia.
    eapply StronglySorted_fmap;
      [|apply (filter_seqZ_sorted _ (sx * sy)); nia].
    cbn beta. intros i j (Hij & Hj).
    destruct (slot_split sx i ltac:(lia)) as (Ei & Hmi).
    destruct (slot_split sx j ltac:(lia)) as (Ej & Hmj).
    pose proof (slot_div_range sx sy i ltac:(lia) ltac:(lia)) as Hqi.
    pose proof (slot_div_range sx sy j ltac:(lia) ltac:(lia)) as Hqj.
    unfold MedCalc2D.coord. fold ox oy. rewrite Sx.
    destruct (slot_order sx i j ltac:(lia) ltac:(lia)) as [Hq|(Hq & Hm)].
    + pose proof (Z.mul_le_mono_nonneg_r (i / sx + 1) (j / sx) X ltac:(lia) ltac:(lia)).
      lia.
    + rewrite Hq. lia.
  - intros c. rewrite list_elem_of_filter, elem_of_seqZ, list_elem_of_fmap.
    split.
    + intros ((Hcx & Hcy) & Hc).
      set (x := c mod X - ox). set (y := c / X - oy).
      assert (Hx : x0 <= x < x1) by (unfold x; lia).
      assert (Hy : y0 <= y < y1) by (unfold y; lia).
      exists (y * sx + x). rewrite pack_mod, pack_div by lia. split.
      * unfold MedCalc2D.coord. fold ox oy. rewrite Sx. unfold x, y.
        pose proof (Z.div_mod c X ltac:(lia)). lia.
      * apply list_elem_of_filter.
        split; [|apply elem_of_seqZ; pose proof (pack_range sx sy x y); lia].
        unfold rect_win. rewrite pack_mod, pack_div by lia.
        cases_cmp; cbn; (done || lia).
    + intros (s & -> & Hs). apply list_elem_of_filter in Hs as (Hw & Hs).
      apply elem_of_seqZ in Hs.
      destruct (slot_split sx s ltac:(lia)) as (Es & Hm).
      pose proof (slot_div_range sx sy s ltac:(lia) ltac:(lia)) as Hq.
      destruct (at_block_coord b X Y hx hy inp mc (s mod sx) (s / sx) Hat)
        as (Hc & Hcm & Hcd); [done|done|].
      fold ox oy in Hcm, Hcd. rewrite Hcm, Hcd.
      unfold rect_win in Hw. fold sx in Hw.
      revert Hw. cases_cmp; cbn; try done. intros _. lia.
Qed.

Lemma block_window_median (mc : MedCalc2D.t T) x0 x1 y0 y1 gx gy :
  at_block b X Y hx hy inp mc ->
  0 <= x0 -> x1 <= BDim.size (MedCalc2D.bx mc) ->
  0 <= y0 -> y1 <= BDim.size (MedCalc2D.by_ mc) ->
  BDim.start (MedCalc2D.bx mc) + x0 = Z.max 0 (gx - hx) ->
  BDim.start (MedCalc2D.bx mc) + x1 = Z.min X (gx + hx + 1) ->
  BDim.start (MedCalc2D.by_ mc) + y0 = Z.max 0 (gy - hy) ->
  BDim.start (MedCalc2D.by_ mc) + y1 = Z.min Y (gy + hy + 1) ->
  middle (fst <$> sort_pairs
            (window_samples (block_feeds mc)
               (rect_win (BDim.size (MedCalc2D.bx mc)) x0 x1 y0 y1)))
  = median_of (window_values X Y hx hy inp gx gy).
Proof.
  intros Hat Hx0 Hx1 Hy0 Hy1 Ex0 Ex1 Ey0 Ey1.
  pose proof Hat as (Tx & Ty & Hin & _).
  pose proof Tx as (_ & _ & _ & _ & Hsx & _).
  pose proof Ty as (_ & _ & _ & _ & Hsy & _).
  unfold median_of. f_equal.
  set (sx := BDim.size (MedCalc2D.bx mc)) in *.
  set (sy := BDim.size (MedCalc2D.by_ mc)) in *.
  set (win := rect_win sx x0 x1 y0 y1).
  assert (HW : window_samples (block_feeds mc) win =
               feed_of mc <$>
                 filter (fun s => win s = true /\ isnan (fst (feed_of mc s)) = false)
                   (seqZ 0 (sx * sy))).
  { unfold window_samples, block_feeds. by rewrite filter_fmap_comm. }
  rewrite HW, sort_pairs_stable.
  2: { replace (sx * sy) with (Z.of_nat (Z.to_nat (sx * sy))) by nia.
       eapply StronglySorted_fmap;
         [|apply (filter_seqZ_sorted _ (sx * sy)); nia].
       cbn. intros; lia. }
  f_equal. unfold window_values.
  rewrite (window_cells mc x0 x1 y0 y1 gx gy) by done. fold sx sy win.
  rewrite <- !list_fmap_compose, !filter_fmap_comm, list_filter_filter.
  rewrite <- Hin.
  erewrite (list_filter_iff (fun s => win s = true /\ _)); [reflexivity|].
  intros s. unfold feed_of. cbn. tauto.
Qed.

End WindowSamples.

(** *** [MedCalc2D::set_med] *)

Section SetMed.
Context {T : Type} `{FloatT T}.
Variable cfg : Build.
Hypothesis SWO : strict_weak_order T.
Variables b X Y hx hy : Z.
Variable inp : list T.

Lemma in_block_refl (mc : MedCalc2D.t T) : in_block mc mc.
Proof. unfold in_block. repeat split; try done. Qed.

Lemma in_block_at (mc0 mc : MedCalc2D.t T) :
  at_block b X Y hx hy inp mc0 -> ranked (block_feeds mc0) (MedCalc2D.wr mc0) ->
  in_block mc0 mc ->
  at_block b X Y hx hy inp mc /\ block_feeds mc = block_feeds mc0 /\
  ranked (block_feeds mc0) (MedCalc2D.wr mc) /\
  Window.words (WindowRank.window (MedCalc2D.wr mc))
    = Window.words (WindowRank.window (MedCalc2D.wr mc0)).
Proof.
  intros (Tx & Ty & Hin & Hlen & Hout & Hsh & Hbb) Hrk (Ex & Ey & Ei & Hst & Eo).
  split; [|split; [|split]].
  - unfold at_block. rewrite Ex, Ey, Ei, Eo.
    split; [done|]. split; [done|]. split; [done|]. split; [done|].
    split; [done|]. split; [by apply (same_table_shape (MedCalc2D.wr mc0))|].
    destruct Hst as (_ & _ & -> & _). done.
  - unfold block_feeds, feed_of, MedCalc2D.coord. by rewrite Ex, Ey, Ei.
  - by apply (same_table_ranked _ (MedCalc2D.wr mc0)).
  - by destruct Hst as (_ & _ & _ & _ & -> & _).
Qed.

Lemma set_med_spec fuel (mc : MedCalc2D.t T) x y :
  at_block b X Y hx hy inp mc -> ranked (block_feeds mc) (MedCalc2D.wr mc) ->
  tracks (block_feeds mc) (cell_win mc hx hy x y) (MedCalc2D.wr mc) ->
  BDim.b0 (MedCalc2D.bx mc) <= x < BDim.b1 (MedCalc2D.bx mc) ->
  BDim.b0 (MedCalc2D.by_ mc) <= y < BDim.b1 (MedCalc2D.by_ mc) ->
  (Z.to_nat (Window.words (WindowRank.window (MedCalc2D.wr mc))) <= fuel)%nat ->
  exists r,
    MedCalc2D.set_med cfg fuel x y mc =
      Ok {| MedCalc2D.wr := r; MedCalc2D.bx := MedCalc2D.bx mc;
            MedCalc2D.by_ := MedCalc2D.by_ mc; MedCalc2D.inp := MedCalc2D.inp mc;
            MedCalc2D.out :=
              <[Z.to_nat (MedCalc2D.coord mc x y) :=
                  median_at X Y hx hy inp (MedCalc2D.coord mc x y)]>
                (MedCalc2D.out mc) |} /\
    same_table (MedCalc2D.wr mc) r /\
    tracks (block_feeds mc) (cell_win mc hx hy x y) r.
Proof.
  intros Hat Hrk Htr Hx Hy Hf.
  pose proof Hat as (Tx & Ty & Hin & Hlen & Hout & Hsh & Hbb).
  pose proof Tx as (_ & _ & Hhx & Hox & Hsx & Hex & Hb0x & Hb1x & Hwx).
  pose proof Ty as (_ & _ & Hhy & Hoy & Hsy & Hey & Hb0y & Hb1y & Hwy).
  destruct (Hwx x Hx) as (Ex0 & Ex1). destruct (Hwy y Hy) as (Ey0 & Ey1).
  destruct (get_med_spec SWO cfg fuel (block_feeds mc) _ (MedCalc2D.wr mc) Hrk Htr Hf)
    as (_ & _ & _ & r & Hget & Hst & Htr').
  destruct (at_block_coord b X Y hx hy inp mc x y Hat) as (Hc & Hcm & Hcd);
    [lia|lia|].
  exists r. split; [|done].
  unfold MedCalc2D.set_med. rewrite Hget. cbn [mbind result_bind].
  rewrite (proj2 (wr_at_Ok _ _ _ _)) by (split; [lia|done]).
  cbn [mbind result_bind mret result_ret]. do 3 f_equal.
  unfold cell_win, median_at. rewrite Hcm, Hcd.
  apply (block_window_median b X Y hx hy inp mc);
    [exact Hat|apply Z.le_max_l|apply Z.le_min_r|apply Z.le_max_l|apply Z.le_min_r|..].
  - rewrite Ex0. f_equal. lia.
  - rewrite Ex1. f_equal. lia.
  - rewrite Ey0. f_equal. lia.
  - rewrite Ey1. f_equal. lia.
Qed.

(** Writing the median of one more cell. *)
Lemma out_done_step (mc : MedCalc2D.t T) (P P' : Z -> Z -> Prop) out0 out x y :
  at_block b X Y hx hy inp mc ->
  0 <= x < BDim.size (MedCalc2D.bx mc) -> 0 <= y < BDim.size (MedCalc2D.by_ mc) ->
  Z.of_nat (length out) = X * Y ->
  (forall x' y', P' x' y' <-> P x' y' \/ (x' = x /\ y' = y)) ->
  out_done X Y hx hy inp (BDim.start (MedCalc2D.bx mc))
    (BDim.start (MedCalc2D.by_ mc)) P out0 out ->
  out_done X Y hx hy inp (BDim.start (MedCalc2D.bx mc))
    (BDim.start (MedCalc2D.by_ mc)) P' out0
    (<[Z.to_nat (MedCalc2D.coord mc x y) :=
         median_at X Y hx hy inp (MedCalc2D.coord mc x y)]> out).
Proof.
  intros Hat Hx Hy Hlen HP Hdone c Hc.
  destruct (at_block_coord b X Y hx hy inp mc x y Hat Hx Hy) as (Hc0 & Hcm & Hcd).
  pose proof Hat as (Tx & _). destruct Tx as (_ & _ & _ & _ & Hsx & Hex & _).
  destruct (Z.eq_dec c (MedCalc2D.coord mc x y)) as [->|Hne].
  - rewrite Hcm, Hcd, list_lookup_insert_eq by lia. split; [done|].
    intros Hn. exfalso. apply Hn, HP. right. lia.
  - rewrite list_lookup_insert_ne by lia.
    assert (Hcell : ~ (c mod X - BDim.start (MedCalc2D.bx mc) = x /\
                       c / X - BDim.start (MedCalc2D.by_ mc) = y)).
    { intros (E1 & E2). apply Hne.
      pose proof (Z.div_mod c X ltac:(lia)) as Hdm.
      pose proof (Z.div_mod (MedCalc2D.coord mc x y) X ltac:(lia)) as Hdm0.
      rewrite Hcm, Hcd in Hdm0.
      replace (c / X) with (y + BDim.start (MedCalc2D.by_ mc)) in Hdm by lia.
      lia. }
    destruct (Hdone c Hc) as (H1 & H2). split.
    + intros HP'. apply HP in HP' as [?|?]; [by apply H1|done].
    + intros HP'. apply H2. intros ?. apply HP', HP. by left.
Qed.

End SetMed.

(** *** The steps of a traversal *)

Section Steps.
Context {T : Type} `{FloatT T}.
Variable cfg : Build.
Hypothesis SWO : strict_weak_order T.
Variables b X Y hx hy : Z.
Variable inp : list T.
Variable mc0 : MedCalc2D.t T.
Hypothesis Hat0 : at_block b X Y hx hy inp mc0.
Hypothesis Hrk0 : ranked (block_feeds mc0) (MedCalc2D.wr mc0).

Local Abbreviation sx := (BDim.size (MedCalc2D.bx mc0)).
Local Abbreviation sy := (BDim.size (MedCalc2D.by_ mc0)).
Local Abbreviation ox := (BDim.start (MedCalc2D.bx mc0)).
Local Abbreviation oy := (BDim.start (MedCalc2D.by_ mc0)).
Local Abbreviation feeds := (block_feeds mc0).

Lemma update_window_spec (mc : MedCalc2D.t T) win op
    (wa wb wc wd : Build -> Z -> BDim.t -> result Z) xa xb yc yd a0 a1 c0 c1 :
  in_block mc0 mc -> tracks feeds win (MedCalc2D.wr mc) ->
  wa cfg xa (MedCalc2D.bx mc0) = Ok a0 -> wb cfg xb (MedCalc2D.bx mc0) = Ok a1 ->
  wc cfg yc (MedCalc2D.by_ mc0) = Ok c0 -> wd cfg yd (MedCalc2D.by_ mc0) = Ok c1 ->
  op = 1 \/ op = -1 ->
  0 <= a0 <= a1 -> a1 <= sx -> 0 <= c0 <= c1 -> c1 <= sy ->
  (forall s, rect_win sx a0 a1 c0 c1 s = true -> win s = (op =? -1)) ->
  exists mc1,
    MedCalc2D.update_window cfg op wa xa wb xb wc yc wd yd mc = Ok mc1 /\
    in_block mc0 mc1 /\ MedCalc2D.out mc1 = MedCalc2D.out mc /\
    tracks feeds (fun s => xorb (win s) (rect_win sx a0 a1 c0 c1 s))
      (MedCalc2D.wr mc1).
Proof.
  intros Hin Htr Ha Hb Hc Hd Hop Ha0 Ha1 Hc0 Hc1 Hwin.
  destruct (in_block_at b X Y hx hy inp mc0 mc Hat0 Hrk0 Hin)
    as (Hat & Hfeeds & Hrk & Hwords).
  pose proof Hin as (Ex & Ey & Ei & Hst & Eo).
  unfold MedCalc2D.update_window. rewrite Ex, Ey, Ha, Hb, Hc, Hd.
  cbn [mbind result_bind].
  destruct (update_block_spec cfg b X Y hx hy inp mc win op a0 a1 c0 c1 Hat)
    as (r & Hup & Hst' & Htr');
    [by rewrite Hfeeds|by rewrite Hfeeds|done|done|by rewrite Ex|done
    |by rewrite Ey|by rewrite Ex|].
  exists (MedCalc2D.set_wr mc r). split; [done|]. split; [|split; [done|]].
  - unfold in_block. cbn. split; [done|]. split; [done|]. split; [done|].
    split; [by apply (same_table_trans _ (MedCalc2D.wr mc))|done].
  - cbn [MedCalc2D.wr MedCalc2D.set_wr]. rewrite Hfeeds, Ex in Htr'. exact Htr'.
Qed.

Lemma set_med_step fuel (mc : MedCalc2D.t T) win (P P' : Z -> Z -> Prop) x y :
  in_block mc0 mc -> tracks feeds win (MedCalc2D.wr mc) ->
  (forall s, win s = cell_win mc0 hx hy x y s) ->
  out_done X Y hx hy inp ox oy P (MedCalc2D.out mc0) (MedCalc2D.out mc) ->
  BDim.b0 (MedCalc2D.bx mc0) <= x < BDim.b1 (MedCalc2D.bx mc0) ->
  BDim.b0 (MedCalc2D.by_ mc0) <= y < BDim.b1 (MedCalc2D.by_ mc0) ->
  (forall u v, P' u v <-> P u v \/ (u = x /\ v = y)) ->
  (Z.to_nat (Window.words (WindowRank.window (MedCalc2D.wr mc0))) <= fuel)%nat ->
  exists mc3,
    MedCalc2D.set_med cfg fuel x y mc = Ok mc3 /\ in_block mc0 mc3 /\
    tracks feeds (cell_win mc0 hx hy x y) (MedCalc2D.wr mc3) /\
    out_done X Y hx hy inp ox oy P' (MedCalc2D.out mc0) (MedCalc2D.out mc3).
Proof.
  intros Hin Htr Hwin Hdone Hx Hy HP Hf.
  destruct (in_block_at b X Y hx hy inp mc0 mc Hat0 Hrk0 Hin)
    as (Hat & Hfeeds & Hrk & Hwords).
  pose proof Hin as (Ex & Ey & Ei & Hst & Eo).
  pose proof Hat0 as (Tx & Ty & _ & _ & Hout0 & _).
  pose proof Tx as (_ & _ & _ & _ & Hsx & _ & Hb0x & Hb1x & _).
  pose proof Ty as (_ & _ & _ & _ & Hsy & _ & Hb0y & Hb1y & _).
  assert (Htr' : tracks (block_feeds mc) (cell_win mc hx hy x y) (MedCalc2D.wr mc)).
  { rewrite Hfeeds. unfold cell_win. rewrite Ex, Ey.
    revert Htr. apply tracks_ext. intros v s _. apply Hwin. }
  destruct (set_med_spec cfg SWO b X Y hx hy inp fuel mc x y Hat)
    as (r & Hset & Hst' & Htr'');
    [by rewrite Hfeeds|done|by rewrite Ex|by rewrite Ey|by rewrite Hwords|].
  eexists. split; [exact Hset|]. split; [|split].
  - unfold in_block. cbn. rewrite length_insert.
    split; [done|]. split; [done|]. split; [done|].
    split; [by apply (same_table_trans _ (MedCalc2D.wr mc))|done].
  - cbn [MedCalc2D.wr]. rewrite Hfeeds in Htr''. unfold cell_win in Htr''.
    rewrite Ex, Ey in Htr''. exact Htr''.
  - cbn [MedCalc2D.out].
    assert (Hc : MedCalc2D.coord mc x y = MedCalc2D.coord mc0 x y).
    { unfold MedCalc2D.coord. by rewrite Ex, Ey. }
    rewrite Hc.
    apply (out_done_step b X Y hx hy inp mc0 P P'); try done; try lia.
Qed.

End Steps.

(** *** The moves of the snake *)

(** Pointwise facts on windows: the slot is split in column and row,
    then every comparison is decided. *)
Ltac solve_win :=
  let s := fresh "s" in
  intros s; unfold cell_win, rect_win;
  match goal with
  | |- context [s mod ?sx] => generalize (s mod sx), (s / sx)
  end;
  intros; cases_cmp; cbn; try done; intros; exfalso; lia.

Lemma out_done_ext {T : Type} `{FloatT T} X Y hx hy (inp : list T) ox oy
    (P P' : Z -> Z -> Prop) out0 out :
  (forall u v, P u v <-> P' u v) ->
  out_done X Y hx hy inp ox oy P out0 out ->
  out_done X Y hx hy inp ox oy P' out0 out.
Proof.
  intros HP Hd c Hc. destruct (Hd c Hc) as (H1 & H2). split.
  - intros HP'. apply H1. by apply HP.
  - intros HP'. apply H2. intros ?. apply HP'. by apply HP.
Qed.

Section Moves.
Context {T : Type} `{FloatT T}.
Variable cfg : Build.
Hypothesis SWO : strict_weak_order T.
Variables b X Y hx hy : Z.
Variable inp : list T.
Variable mc0 : MedCalc2D.t T.
Hypothesis Hat0 : at_block b X Y hx hy inp mc0.
Hypothesis Hrk0 : ranked (block_feeds mc0) (MedCalc2D.wr mc0).
Variable ffuel : nat.
Hypothesis Hff :
  (Z.to_nat (Window.words (WindowRank.window (MedCalc2D.wr mc0))) <= ffuel)%nat.

Local Abbreviation sx := (BDim.size (MedCalc2D.bx mc0)).
Local Abbreviation sy := (BDim.size (MedCalc2D.by_ mc0)).
Local Abbreviation ox := (BDim.start (MedCalc2D.bx mc0)).
Local Abbreviation oy := (BDim.start (MedCalc2D.by_ mc0)).
Local Abbreviation b0x := (BDim.b0 (MedCalc2D.bx mc0)).
Local Abbreviation b1x := (BDim.b1 (MedCalc2D.bx mc0)).
Local Abbreviation b0y := (BDim.b0 (MedCalc2D.by_ mc0)).
Local Abbreviation b1y := (BDim.b1 (MedCalc2D.by_ mc0)).
Local Abbreviation feeds := (block_feeds mc0).
Local Abbreviation done_ := (out_done X Y hx hy inp ox oy).

Lemma step_right (mc : MedCalc2D.t T) (P P' : Z -> Z -> Prop) x y :
  in_block mc0 mc -> tracks feeds (cell_win mc0 hx hy x y) (MedCalc2D.wr mc) ->
  done_ P (MedCalc2D.out mc0) (MedCalc2D.out mc) ->
  b0x <= x -> x + 1 < b1x -> b0y <= y < b1y ->
  (forall u v, P' u v <-> P u v \/ (u = x + 1 /\ v = y)) ->
  exists mc3,
    (forall k : MedCalc2D.t T -> result (MedCalc2D.t T),
       (mc ← MedCalc2D.update_window cfg (-1) BDim.w0 x BDim.w0 (x + 1)
               BDim.w0 y BDim.w1 y mc;
        mc ← MedCalc2D.update_window cfg 1 BDim.w1 (x + 1 - 1) BDim.w1 (x + 1)
               BDim.w0 y BDim.w1 y mc;
        mc ← MedCalc2D.set_med cfg ffuel (x + 1) y mc; k mc) = k mc3) /\
    in_block mc0 mc3 /\
    tracks feeds (cell_win mc0 hx hy (x + 1) y) (MedCalc2D.wr mc3) /\
    done_ P' (MedCalc2D.out mc0) (MedCalc2D.out mc3).
Proof.
  intros Hin Htr Hdone Hx0 Hx1 Hy HP.
  pose proof Hat0 as (Tx & Ty & _).
  pose proof Tx as (_ & _ & Hhx & _ & Hsx & _ & Hb0x & Hb1x & _).
  pose proof Ty as (_ & _ & Hhy & _ & Hsy & _ & Hb0y & Hb1y & _).
  destruct (update_window_spec cfg b X Y hx hy inp mc0 Hat0 Hrk0 mc _ (-1)
              BDim.w0 BDim.w0 BDim.w0 BDim.w1 x (x + 1) y y
              _ _ _ _ Hin Htr
              (tile_w0 cfg b X hx _ x Tx ltac:(lia))
              (tile_w0 cfg b X hx _ (x + 1) Tx ltac:(lia))
              (tile_w0 cfg b Y hy _ y Ty ltac:(lia))
              (tile_w1 cfg b Y hy _ y Ty ltac:(lia)))
    as (mc1 & Hup1 & Hin1 & Hout1 & Htr1); [by right|lia|lia|lia|lia|solve_win|].
  destruct (update_window_spec cfg b X Y hx hy inp mc0 Hat0 Hrk0 mc1 _ 1
              BDim.w1 BDim.w1 BDim.w0 BDim.w1 (x + 1 - 1) (x + 1) y y
              _ _ _ _ Hin1 Htr1
              (tile_w1 cfg b X hx _ (x + 1 - 1) Tx ltac:(lia))
              (tile_w1 cfg b X hx _ (x + 1) Tx ltac:(lia))
              (tile_w0 cfg b Y hy _ y Ty ltac:(lia))
              (tile_w1 cfg b Y hy _ y Ty ltac:(lia)))
    as (mc2 & Hup2 & Hin2 & Hout2 & Htr2); [by left|lia|lia|lia|lia|solve_win|].
  destruct (set_med_step cfg SWO b X Y hx hy inp mc0 Hat0 Hrk0 ffuel mc2 _ P P'
              (x + 1) y Hin2 Htr2)
    as (mc3 & Hset & Hin3 & Htr3 & Hdone3);
    [solve_win|by rewrite Hout2, Hout1|lia|lia|done|done|].
  exists mc3. split; [|done]. intros k. rewrite Hup1. cbn [mbind result_bind].
  rewrite Hup2. cbn [mbind result_bind]. rewrite Hset. done.
Qed.

Lemma step_down (mc : MedCalc2D.t T) (P P' : Z -> Z -> Prop) x y :
  in_block mc0 mc -> tracks feeds (cell_win mc0 hx hy x y) (MedCalc2D.wr mc) ->
  done_ P (MedCalc2D.out mc0) (MedCalc2D.out mc) ->
  b0x <= x < b1x -> b0y <= y -> y + 1 < b1y ->
  (forall u v, P' u v <-> P u v \/ (u = x /\ v = y + 1)) ->
  exists mc3,
    (forall k : MedCalc2D.t T -> result (MedCalc2D.t T),
       (mc ← MedCalc2D.update_window cfg (-1) BDim.w0 x BDim.w1 x
               BDim.w0 y BDim.w0 (y + 1) mc;
        mc ← MedCalc2D.update_window cfg 1 BDim.w0 x BDim.w1 x
               BDim.w1 (y + 1 - 1) BDim.w1 (y + 1) mc;
        mc ← MedCalc2D.set_med cfg ffuel x (y + 1) mc; k mc) = k mc3) /\
    in_block mc0 mc3 /\
    tracks feeds (cell_win mc0 hx hy x (y + 1)) (MedCalc2D.wr mc3) /\
    done_ P' (MedCalc2D.out mc0) (MedCalc2D.out mc3).
Proof.
  intros Hin Htr Hdone Hx Hy0 Hy1 HP.
  pose proof Hat0 as (Tx & Ty & _).
  pose proof Tx as (_ & _ & Hhx & _ & Hsx & _ & Hb0x & Hb1x & _).
  pose proof Ty as (_ & _ & Hhy & _ & Hsy & _ & Hb0y & Hb1y & _).
  destruct (update_window_spec cfg b X Y hx hy inp mc0 Hat0 Hrk0 mc _ (-1)
              BDim.w0 BDim.w1 BDim.w0 BDim.w0 x x y (y + 1)
              _ _ _ _ Hin Htr
              (tile_w0 cfg b X hx _ x Tx ltac:(lia))
              (tile_w1 cfg b X hx _ x Tx ltac:(lia))
              (tile_w0 cfg b Y hy _ y Ty ltac:(lia))
              (tile_w0 cfg b Y hy _ (y + 1) Ty ltac:(lia)))
    as (mc1 & Hup1 & Hin1 & Hout1 & Htr1); [by right|lia|lia|lia|lia|solve_win|].
  destruct (update_window_spec cfg b X Y hx hy inp mc0 Hat0 Hrk0 mc1 _ 1
              BDim.w0 BDim.w1 BDim.w1 BDim.w1 x x (y + 1 - 1) (y + 1)
              _ _ _ _ Hin1 Htr1
              (tile_w0 cfg b X hx _ x Tx ltac:(lia))
              (tile_w1 cfg b X hx _ x Tx ltac:(lia))
              (tile_w1 cfg b Y hy _ (y + 1 - 1) Ty ltac:(lia))
              (tile_w1 cfg b Y hy _ (y + 1) Ty ltac:(lia)))
    as (mc2 & Hup2 & Hin2 & Hout2 & Htr2); [by left|lia|lia|lia|lia|solve_win|].
  destruct (set_med_step cfg SWO b X Y hx hy inp mc0 Hat0 Hrk0 ffuel mc2 _ P P'
              x (y + 1) Hin2 Htr2)
    as (mc3 & Hset & Hin3 & Htr3 & Hdone3);
    [solve_win|by rewrite Hout2, Hout1|lia|lia|done|done|].
  exists mc3. split; [|done]. intros k. rewrite Hup1. cbn [mbind result_bind].
  rewrite Hup2. cbn [mbind result_bind]. rewrite Hset. done.
Qed.

Lemma step_up (mc : MedCalc2D.t T) (P P' : Z -> Z -> Prop) x y :
  in_block mc0 mc -> tracks feeds (cell_win mc0 hx hy x y) (MedCalc2D.wr mc) ->
  done_ P (MedCalc2D.out mc0) (MedCalc2D.out mc) ->
  b0x <= x < b1x -> b0y <= y - 1 -> y < b1y ->
  (forall u v, P' u v <-> P u v \/ (u = x /\ v = y - 1)) ->
  exists mc3,
    (forall k : MedCalc2D.t T -> result (MedCalc2D.t T),
       (mc ← MedCalc2D.update_window cfg (-1) BDim.w0 x BDim.w1 x
               BDim.w1 (y - 1) BDim.w1 y mc;
        mc ← MedCalc2D.update_window cfg 1 BDim.w0 x BDim.w1 x
               BDim.w0 (y - 1) BDim.w0 (y - 1 + 1) mc;
        mc ← MedCalc2D.set_med cfg ffuel x (y - 1) mc; k mc) = k mc3) /\
    in_block mc0 mc3 /\
    tracks feeds (cell_win mc0 hx hy x (y - 1)) (MedCalc2D.wr mc3) /\
    done_ P' (MedCalc2D.out mc0) (MedCalc2D.out mc3).
Proof.
  intros Hin Htr Hdone Hx Hy0 Hy1 HP.
  pose proof Hat0 as (Tx & Ty & _).
  pose proof Tx as (_ & _ & Hhx & _ & Hsx & _ & Hb0x & Hb1x & _).
  pose proof Ty as (_ & _ & Hhy & _ & Hsy & _ & Hb0y & Hb1y & _).
  destruct (update_window_spec cfg b X Y hx hy inp mc0 Hat0 Hrk0 mc _ (-1)
              BDim.w0 BDim.w1 BDim.w1 BDim.w1 x x (y - 1) y
              _ _ _ _ Hin Htr
              (tile_w0 cfg b X hx _ x Tx ltac:(lia))
              (tile_w1 cfg b X hx _ x Tx ltac:(lia))
              (tile_w1 cfg b Y hy _ (y - 1) Ty ltac:(lia))
              (tile_w1 cfg b Y hy _ y Ty ltac:(lia)))
    as (mc1 & Hup1 & Hin1 & Hout1 & Htr1); [by right|lia|lia|lia|lia|solve_win|].
  destruct (update_window_spec cfg b X Y hx hy inp mc0 Hat0 Hrk0 mc1 _ 1
              BDim.w0 BDim.w1 BDim.w0 BDim.w0 x x (y - 1) (y - 1 + 1)
              _ _ _ _ Hin1 Htr1
              (tile_w0 cfg b X hx _ x Tx ltac:(lia))
              (tile_w1 cfg b X hx _ x Tx ltac:(lia))
              (tile_w0 cfg b Y hy _ (y - 1) Ty ltac:(lia))
              (tile_w0 cfg b Y hy _ (y - 1 + 1) Ty ltac:(lia)))
    as (mc2 & Hup2 & Hin2 & Hout2 & Htr2); [by left|lia|lia|lia|lia|solve_win|].
  destruct (set_med_step cfg SWO b X Y hx hy inp mc0 Hat0 Hrk0 ffuel mc2 _ P P'
              x (y - 1) Hin2 Htr2)
    as (mc3 & Hset & Hin3 & Htr3 & Hdone3);
    [solve_win|by rewrite Hout2, Hout1|lia|lia|done|done|].
  exists mc3. split; [|done]. intros k. rewrite Hup1. cbn [mbind result_bind].
  rewrite Hup2. cbn [mbind result_bind]. rewrite Hset. done.
Qed.

End Moves.

(** *** [MedCalc2D::medians] *)

Section Traversal.
Context {T : Type} `{FloatT T}.
Variable cfg : Build.
Hypothesis SWO : strict_weak_order T.
Variables b X Y hx hy : Z.
Variable inp : list T.
Variable mc0 : MedCalc2D.t T.
Hypothesis Hat0 : at_block b X Y hx hy inp mc0.
Hypothesis Hrk0 : ranked (block_feeds mc0) (MedCalc2D.wr mc0).
Variable ffuel : nat.
Hypothesis Hff :
  (Z.to_nat (Window.words (WindowRank.window (MedCalc2D.wr mc0))) <= ffuel)%nat.

Local Abbreviation sx := (BDim.size (MedCalc2D.bx mc0)).
Local Abbreviation sy := (BDim.size (MedCalc2D.by_ mc0)).
Local Abbreviation ox := (BDim.start (MedCalc2D.bx mc0)).
Local Abbreviation oy := (BDim.start (MedCalc2D.by_ mc0)).
Local Abbreviation b0x := (BDim.b0 (MedCalc2D.bx mc0)).
Local Abbreviation b1x := (BDim.b1 (MedCalc2D.bx mc0)).
Local Abbreviation b0y := (BDim.b0 (MedCalc2D.by_ mc0)).
Local Abbreviation b1y := (BDim.b1 (MedCalc2D.by_ mc0)).
Local Abbreviation feeds := (block_feeds mc0).
Local Abbreviation done_ := (out_done X Y hx hy inp ox oy).

Lemma clear_step (mc : MedCalc2D.t T) :
  in_block mc0 mc ->
  exists mc1, MedCalc2D.clear_wr mc = Ok mc1 /\ in_block mc0 mc1 /\
    MedCalc2D.out mc1 = MedCalc2D.out mc /\
    tracks feeds (fun _ => false) (MedCalc2D.wr mc1).
Proof.
  intros Hin.
  destruct (in_block_at b X Y hx hy inp mc0 mc Hat0 Hrk0 Hin)
    as (Hat & Hfeeds & Hrk & Hwords).
  pose proof Hin as (Ex & Ey & Ei & Hst & Eo).
  pose proof Hat as (_ & _ & _ & _ & _ & Hsh & _).
  destruct (clear_tracks feeds (MedCalc2D.wr mc) Hsh) as (r & Hc & Hst' & Htr & _).
  exists (MedCalc2D.set_wr mc r). unfold MedCalc2D.clear_wr. rewrite Hc.
  split; [done|]. split; [|done].
  split; [done|]. split; [done|]. split; [done|].
  split; [|done]. cbn. by apply (same_table_trans _ (MedCalc2D.wr mc)).
Qed.

Lemma first_cell (mc : MedCalc2D.t T) (P P' : Z -> Z -> Prop) x y :
  in_block mc0 mc -> tracks feeds (fun _ => false) (MedCalc2D.wr mc) ->
  done_ P (MedCalc2D.out mc0) (MedCalc2D.out mc) ->
  b0x <= x < b1x -> b0y <= y < b1y ->
  (forall u v, P' u v <-> P u v \/ (u = x /\ v = y)) ->
  exists mc3,
    (forall k : MedCalc2D.t T -> result (MedCalc2D.t T),
       (mc ← MedCalc2D.update_window cfg 1 BDim.w0 x BDim.w1 x
               BDim.w0 y BDim.w1 y mc;
        mc ← MedCalc2D.set_med cfg ffuel x y mc; k mc) = k mc3) /\
    in_block mc0 mc3 /\
    tracks feeds (cell_win mc0 hx hy x y) (MedCalc2D.wr mc3) /\
    done_ P' (MedCalc2D.out mc0) (MedCalc2D.out mc3).
Proof.
  intros Hin Htr Hdone Hx Hy HP.
  pose proof Hat0 as (Tx & Ty & _).
  pose proof Tx as (_ & _ & Hhx & _ & Hsx & _ & Hb0x & Hb1x & _).
  pose proof Ty as (_ & _ & Hhy & _ & Hsy & _ & Hb0y & Hb1y & _).
  destruct (update_window_spec cfg b X Y hx hy inp mc0 Hat0 Hrk0 mc _ 1
              BDim.w0 BDim.w1 BDim.w0 BDim.w1 x x y y
              _ _ _ _ Hin Htr
              (tile_w0 cfg b X hx _ x Tx ltac:(lia))
              (tile_w1 cfg b X hx _ x Tx ltac:(lia))
              (tile_w0 cfg b Y hy _ y Ty ltac:(lia))
              (tile_w1 cfg b Y hy _ y Ty ltac:(lia)))
    as (mc1 & Hup1 & Hin1 & Hout1 & Htr1); [by left|lia|lia|lia|lia|done|].
  destruct (set_med_step cfg SWO b X Y hx hy inp mc0 Hat0 Hrk0 ffuel mc1 _ P P'
              x y Hin1 Htr1)
    as (mc3 & Hset & Hin3 & Htr3 & Hdone3);
    [done|by rewrite Hout1|lia|lia|done|done|].
  exists mc3. split; [|done]. intros k. rewrite Hup1. cbn [mbind result_bind].
  rewrite Hset. done.
Qed.

Lemma snake_spec fuel : forall (x y : Z) (down : bool) (mc : MedCalc2D.t T),
  in_block mc0 mc ->
  tracks feeds (cell_win mc0 hx hy x y) (MedCalc2D.wr mc) ->
  done_ (fun u v => b0y <= v < b1y /\ b0x <= u /\
           (u < x \/ (u = x /\ if down then v <= y else y <= v)))
        (MedCalc2D.out mc0) (MedCalc2D.out mc) ->
  b0x <= x < b1x -> b0y <= y < b1y ->
  (b1x - 1 - x) * (b1y - b0y) + (if down then b1y - 1 - y else y - b0y)
    < Z.of_nat fuel ->
  exists mc', MedCalc2D.snake cfg ffuel fuel x y down mc = Ok mc' /\
    in_block mc0 mc' /\
    done_ (fun u v => b0x <= u < b1x /\ b0y <= v < b1y)
      (MedCalc2D.out mc0) (MedCalc2D.out mc').
Proof.
  induction fuel as [|fuel IH]; intros x y down mc Hin Htr Hdone Hx Hy Hm.
  { exfalso.
    assert (0 <= (b1x - 1 - x) * (b1y - b0y)) by (apply Z.mul_nonneg_nonneg; lia).
    destruct down; lia. }
  pose proof Hin as (Ex & Ey & _). cbn [MedCalc2D.snake]. rewrite Ex, Ey.
  destruct down.
  - destruct (Z.eqb_spec (y + 1) b1y) as [Hr|Hr]; cbn [negb andb].
    + destruct (Z.eqb_spec (x + 1) b1x) as [Hl|Hl].
      * exists mc. split; [done|]. split; [done|].
        eapply out_done_ext; [|exact Hdone]. intros u v; cbv beta iota; lia.
      * destruct (step_right cfg SWO b X Y hx hy inp mc0 Hat0 Hrk0 ffuel Hff mc _
                    (fun u v => b0y <= v < b1y /\ b0x <= u /\
                       (u < x + 1 \/ (u = x + 1 /\
                          if false then v <= y else y <= v)))
                    x y Hin Htr Hdone)
          as (mc3 & Hch & Hin3 & Htr3 & Hd3);
          [lia|lia|lia|intros u v; cbv beta iota; lia|].
        rewrite Hch. apply IH; [done|done|done|lia|lia|lia].
    + destruct (step_down cfg SWO b X Y hx hy inp mc0 Hat0 Hrk0 ffuel Hff mc _
                  (fun u v => b0y <= v < b1y /\ b0x <= u /\
                     (u < x \/ (u = x /\
                        if true then v <= y + 1 else y + 1 <= v)))
                  x y Hin Htr Hdone)
        as (mc3 & Hch & Hin3 & Htr3 & Hd3);
        [lia|lia|lia|intros u v; cbv beta iota; lia|].
      rewrite Hch. apply IH; [done|done|done|lia|lia|lia].
  - destruct (Z.eqb_spec y b0y) as [Hr|Hr]; cbn [negb andb].
    + destruct (Z.eqb_spec (x + 1) b1x) as [Hl|Hl].
      * exists mc. split; [done|]. split; [done|].
        eapply out_done_ext; [|exact Hdone]. intros u v; cbv beta iota; lia.
      * destruct (step_right cfg SWO b X Y hx hy inp mc0 Hat0 Hrk0 ffuel Hff mc _
                    (fun u v => b0y <= v < b1y /\ b0x <= u /\
                       (u < x + 1 \/ (u = x + 1 /\
                          if true then v <= y else y <= v)))
                    x y Hin Htr Hdone)
          as (mc3 & Hch & Hin3 & Htr3 & Hd3);
          [lia|lia|lia|intros u v; cbv beta iota; lia|].
        rewrite Hch. apply IH; [done|done|done|lia|lia|lia].
    + destruct (step_up cfg SWO b X Y hx hy inp mc0 Hat0 Hrk0 ffuel Hff mc _
                  (fun u v => b0y <= v < b1y /\ b0x <= u /\
                     (u < x \/ (u = x /\
                        if false then v <= y - 1 else y - 1 <= v)))
                  x y Hin Htr Hdone)
        as (mc3 & Hch & Hin3 & Htr3 & Hd3);
        [lia|lia|lia|intros u v; cbv beta iota; lia|].
      rewrite Hch. apply IH; [done|done|done|lia|lia|lia].
Qed.

Lemma out_done_init (P : Z -> Z -> Prop) (out0 : list T) :
  (forall u v, ~ P u v) -> done_ P out0 out0.
Proof. intros HP c Hc. split; [|done]. intros HPc. by apply HP in HPc. Qed.

Lemma medians_snake_spec :
  (b1x - b0x) * (b1y - b0y) <= Z.of_nat ffuel ->
  exists mc', MedCalc2D.medians_snake cfg ffuel mc0 = Ok mc' /\
    in_block mc0 mc' /\
    done_ (fun u v => b0x <= u < b1x /\ b0y <= v < b1y)
      (MedCalc2D.out mc0) (MedCalc2D.out mc').
Proof.
  intros Hfuel.
  pose proof Hat0 as (Tx & Ty & _).
  pose proof Tx as (_ & _ & Hhx & _ & Hsx & _ & Hb0x & Hb1x & _).
  pose proof Ty as (_ & _ & Hhy & _ & Hsy & _ & Hb0y & Hb1y & _).
  destruct (clear_step mc0 (in_block_refl mc0)) as (mc1 & Hc & Hin1 & Hout1 & Htr1).
  pose proof Hin1 as (Ex & Ey & _).
  unfold MedCalc2D.medians_snake. rewrite Hc. cbn [mbind result_bind].
  cbv zeta. rewrite Ex, Ey.
  destruct (first_cell mc1 (fun _ _ => False)
              (fun u v => b0y <= v < b1y /\ b0x <= u /\
                 (u < b0x \/ (u = b0x /\ if true then v <= b0y else b0y <= v)))
              b0x b0y Hin1 Htr1)
    as (mc3 & Hch & Hin3 & Htr3 & Hd3);
    [rewrite Hout1; apply (out_done_init (fun _ _ => False)); tauto|lia|lia
    |intros u v; cbv beta iota; lia|].
  rewrite Hch. apply snake_spec; [done|done|done|lia|lia|lia].
Qed.

Lemma medians_naive_spec :
  exists mc', MedCalc2D.medians_naive cfg ffuel mc0 = Ok mc' /\
    in_block mc0 mc' /\
    done_ (fun u v => b0x <= u < b1x /\ b0y <= v < b1y)
      (MedCalc2D.out mc0) (MedCalc2D.out mc').
Proof.
  pose proof Hat0 as (Tx & Ty & _).
  pose proof Tx as (_ & _ & Hhx & _ & Hsx & _ & Hb0x & Hb1x & _).
  pose proof Ty as (_ & _ & Hhy & _ & Hsy & _ & Hb0y & Hb1y & _).
  unfold MedCalc2D.medians_naive.
  destruct (for_range_ind
              (fun y mc => in_block mc0 mc /\
                 done_ (fun u v => b0x <= u < b1x /\ b0y <= v < y)
                   (MedCalc2D.out mc0) (MedCalc2D.out mc))
              b0y b1y
              (fun y mc =>
                 for_range (BDim.b0 (MedCalc2D.bx mc)) (BDim.b1 (MedCalc2D.bx mc))
                   (fun x mc =>
                      mc ← MedCalc2D.clear_wr mc;
                      mc ← MedCalc2D.update_window cfg 1 BDim.w0 x BDim.w1 x
                             BDim.w0 y BDim.w1 y mc;
                      MedCalc2D.set_med cfg ffuel x y mc) mc) mc0)
    as (mc' & Hrun & Hin' & Hd'); [lia| | |].
  - split; [apply in_block_refl|]. apply out_done_init. intros u v; cbv beta; lia.
  - intros y mc Hy (Hin & Hd). pose proof Hin as (Ex & Ey & _). rewrite Ex.
    destruct (for_range_ind
                (fun x mc => in_block mc0 mc /\
                   done_ (fun u v => b0x <= u < b1x /\ b0y <= v /\
                            (v < y \/ (v = y /\ u < x)))
                     (MedCalc2D.out mc0) (MedCalc2D.out mc))
                b0x b1x
                (fun x mc =>
                   mc ← MedCalc2D.clear_wr mc;
                   mc ← MedCalc2D.update_window cfg 1 BDim.w0 x BDim.w1 x
                          BDim.w0 y BDim.w1 y mc;
                   MedCalc2D.set_med cfg ffuel x y mc) mc)
      as (mc2 & Hrun2 & Hin2 & Hd2); [lia| | |].
    + split; [done|]. eapply out_done_ext; [|exact Hd]. intros u v; cbv beta; lia.
    + intros x mc1 Hx (Hin1 & Hd1).
      destruct (clear_step mc1 Hin1) as (mc2 & Hc & Hin2 & Hout2 & Htr2).
      rewrite Hc. cbn [mbind result_bind].
      destruct (first_cell mc2
                  (fun u v => b0x <= u < b1x /\ b0y <= v /\
                     (v < y \/ (v = y /\ u < x)))
                  (fun u v => b0x <= u < b1x /\ b0y <= v /\
                     (v < y \/ (v = y /\ u < x + 1)))
                  x y Hin2 Htr2)
        as (mc3 & Hch & Hin3 & Htr3 & Hd3);
        [rewrite Hout2; exact Hd1|lia|lia|intros u v; cbv beta; lia|].
      exists mc3. split; [|done].
      rewrite <- (Hch (fun mc => Ok mc)).
      destruct (MedCalc2D.update_window cfg 1 BDim.w0 x BDim.w1 x
                  BDim.w0 y BDim.w1 y mc2) as [m|]; cbn [mbind result_bind];
        [|done].
      by destruct (MedCalc2D.set_med cfg ffuel x y m).
    + exists mc2. split; [done|]. split; [done|].
      eapply out_done_ext; [|exact Hd2]. intros u v; cbv beta; lia.
  - exists mc'. rewrite <- Hrun. split; [|done]. by destruct Hat0.
Qed.

Lemma medians_spec :
  (b1x - b0x) * (b1y - b0y) <= Z.of_nat ffuel ->
  exists mc', MedCalc2D.medians cfg ffuel mc0 = Ok mc' /\
    in_block mc0 mc' /\
    done_ (fun u v => b0x <= u < b1x /\ b0y <= v < b1y)
      (MedCalc2D.out mc0) (MedCalc2D.out mc').
Proof.
  intros Hfuel. unfold MedCalc2D.medians. destruct (NAIVE cfg).
  - apply medians_naive_spec.
  - by apply medians_snake_spec.
Qed.

End Traversal.

(** *** [MedCalc2D::run] *)

Lemma for_each_preserves {St : Type} (Q : St -> Prop) l
    (body : Z -> St -> result St) :
  (forall i s s', body i s = Ok s' -> Q s -> Q s') ->
  forall s s', Q s -> for_each l body s = Ok s' -> Q s'.
Proof.
  intros Hbody. induction l as [|i l IH]; intros s s' HQ; cbn.
  - by intros [= <-].
  - destruct (body i s) as [s1|] eqn:E; cbn; [|done].
    apply IH. by apply (Hbody i s).
Qed.

Lemma BDim_set_dim i bd d :
  BDim.dim bd = d -> BDim.set i bd = BDim.set i (BDim.make d).
Proof. intros <-. done. Qed.

Section CalcRankWindow.
Context {T : Type} `{FloatT T}.
Variable std_sort : list (T * Z) -> list (T * Z).

Lemma init_feed_window (v : T) s r r' :
  WindowRank.init_feed v s r = Ok r' ->
  WindowRank.window r' = WindowRank.window r.
Proof.
  unfold WindowRank.init_feed. destruct (isnan v).
  - destruct (wr_at _ _ _); cbn; [|done]. by intros [= <-].
  - destruct (wr_at _ _ _); cbn; [|done]. by intros [= <-].
Qed.

Lemma init_finish_window (r r' : WindowRank.t T) :
  WindowRank.init_finish std_sort r = Ok r' ->
  WindowRank.window r' = WindowRank.window r.
Proof.
  unfold WindowRank.init_finish.
  destruct (WindowRank.sort_prefix _ _ _); cbn; [|done].
  destruct (for_range _ _ _ _); cbn; [|done]. by intros [= <-].
Qed.

Lemma calc_rank_window (mc mc' : MedCalc2D.t T) :
  MedCalc2D.calc_rank std_sort mc = Ok mc' ->
  WindowRank.window (MedCalc2D.wr mc') = WindowRank.window (MedCalc2D.wr mc).
Proof.
  unfold MedCalc2D.calc_rank. cbv zeta.
  destruct (for_range 0 (BDim.size (MedCalc2D.by_ mc)) _ _) as [r1|] eqn:E1;
    cbn [mbind result_bind]; [|done].
  destruct (WindowRank.init_finish std_sort r1) as [r2|] eqn:E2;
    cbn [mbind result_bind mret result_ret]; [|done].
  intros [= <-]. cbn [MedCalc2D.wr MedCalc2D.set_wr].
  rewrite (init_finish_window _ _ E2).
  revert E1. unfold for_range.
  apply (for_each_preserves
           (fun r => WindowRank.window r = WindowRank.window (MedCalc2D.wr mc)));
    [|done].
  intros y r r' E HQ. revert E. unfold for_range.
  apply (for_each_preserves
           (fun r => WindowRank.window r = WindowRank.window (MedCalc2D.wr mc)));
    [|done].
  intros x ra rb. destruct (rd _ _) as [v|]; cbn [mbind result_bind]; [|done].
  intros E3 <-. by apply init_feed_window in E3.
Qed.

End CalcRankWindow.

Section Run.
Context {T : Type} `{FloatT T}.
Variable std_sort : list (T * Z) -> list (T * Z).
Hypothesis SORT : sort_contract std_sort.
Hypothesis SWO : strict_weak_order T.
Variable cfg : Build.
Variable b : Z.
Variables dx dy : Dim.t.
Hypothesis Hvx : Dim_valid b dx.
Hypothesis Hvy : Dim_valid b dy.
Variable inp : list T.
Variable fuel : nat.
Hypothesis Hfuel : b * b <= Z.of_nat fuel.

Local Abbreviation X := (Dim.size dx).
Local Abbreviation Y := (Dim.size dy).
Local Abbreviation hx := (Dim.h dx).
Local Abbreviation hy := (Dim.h dy).

Lemma run_spec (mc : MedCalc2D.t T) i j :
  between_blocks b dx dy inp mc ->
  0 <= i < Dim.count dx -> 0 <= j < Dim.count dy ->
  exists mc', MedCalc2D.run std_sort cfg fuel i j mc = Ok mc' /\
    between_blocks b dx dy inp mc' /\
    forall c, 0 <= c < X * Y ->
      (interior dx i (c mod X) /\ interior dy j (c / X) ->
         MedCalc2D.out mc' !! Z.to_nat c = Some (median_at X Y hx hy inp c)) /\
      (~ (interior dx i (c mod X) /\ interior dy j (c / X)) ->
         MedCalc2D.out mc' !! Z.to_nat c = MedCalc2D.out mc !! Z.to_nat c).
Proof.
  intros (Dx & Dy & Hinp & Hlen & Hout & Hsh & Hbb & Hwords) Hi Hj.
  unfold MedCalc2D.run. cbv zeta.
  set (mcs := {| MedCalc2D.wr := MedCalc2D.wr mc;
                 MedCalc2D.bx := BDim.set i (MedCalc2D.bx mc);
                 MedCalc2D.by_ := BDim.set j (MedCalc2D.by_ mc);
                 MedCalc2D.inp := MedCalc2D.inp mc;
                 MedCalc2D.out := MedCalc2D.out mc |}).
  pose proof (tile_ok_set b dx i (MedCalc2D.bx mc) Hvx Dx Hi) as Tx.
  pose proof (tile_ok_set b dy j (MedCalc2D.by_ mc) Hvy Dy Hj) as Ty.
  assert (Hats : at_block b X Y hx hy inp mcs) by done.
  destruct (calc_rank_spec std_sort SORT b X Y hx hy inp mcs Hats)
    as (r & Hcr & Hshr & Hbbr & Hrk).
  pose proof (calc_rank_window std_sort _ _ Hcr) as Hwin.
  rewrite Hcr. cbn [mbind result_bind].
  set (mc1 := MedCalc2D.set_wr mcs r) in *.
  assert (Hat1 : at_block b X Y hx hy inp mc1) by done.
  assert (Hrk1 : ranked (block_feeds mc1) (MedCalc2D.wr mc1)) by done.
  pose proof Tx as (_ & _ & _ & _ & Hsx & _ & Hb0x & Hb1x & _).
  pose proof Ty as (_ & _ & _ & _ & Hsy & _ & Hb0y & Hb1y & _).
  destruct (medians_spec cfg SWO b X Y hx hy inp mc1 Hat1 Hrk1 fuel)
    as (mc' & Hmed & Hin & Hdone).
  { cbn [mc1 MedCalc2D.wr MedCalc2D.set_wr] in Hwin |- *. rewrite Hwin.
    cbn [mcs MedCalc2D.wr]. lia. }
  { etrans; [|exact Hfuel].
    apply Z.mul_le_mono_nonneg; cbn [mc1 mcs MedCalc2D.bx MedCalc2D.by_ MedCalc2D.set_wr]; lia. }
  exists mc'. split; [done|].
  destruct Hin as (Ex & Ey & Ei & Hst & Eo).
  split.
  - unfold between_blocks. rewrite Ex, Ey, Ei.
    split; [done|]. split; [done|]. split; [done|]. split; [done|].
    split; [by rewrite Eo|].
    split; [by apply (same_table_shape (MedCalc2D.wr mc1))|].
    destruct Hst as (_ & _ & -> & _ & -> & _).
    split; [done|]. cbn [mc1 MedCalc2D.wr MedCalc2D.set_wr] in Hwin |- *.
    rewrite Hwin. done.
  - intros c Hc. destruct (Hdone c Hc) as (H1 & H2).
    assert (Hiff : interior dx i (c mod X) /\ interior dy j (c / X) <->
              (BDim.b0 (MedCalc2D.bx mc1)
                 <= c mod X - BDim.start (MedCalc2D.bx mc1)
                 < BDim.b1 (MedCalc2D.bx mc1)) /\
              (BDim.b0 (MedCalc2D.by_ mc1)
                 <= c / X - BDim.start (MedCalc2D.by_ mc1)
                 < BDim.b1 (MedCalc2D.by_ mc1))).
    { unfold interior. cbv zeta.
      cbn [mc1 mcs MedCalc2D.bx MedCalc2D.by_ MedCalc2D.set_wr].
      rewrite (BDim_set_dim i _ dx Dx), (BDim_set_dim j _ dy Dy). lia. }
    split.
    + intros Hint. apply H1. by apply Hiff.
    + intros Hint. rewrite H2; [done|]. intros HP. apply Hint. by apply Hiff.
Qed.

End Run.

(** *** The driver's loops over the blocks *)

Lemma WindowRank_make_ok {T : Type} `{FloatT T} cfg bb :
  1 <= bb ->
  exists r : WindowRank.t T, WindowRank.make cfg bb = Ok r /\ shape r /\
    WindowRank.bb r = bb /\ Window.words (WindowRank.window r) <= bb.
Proof.
  intros Hbb.
  destruct (Window.make cfg bb) as [w|] eqn:Hw.
  - destruct (make_spec cfg bb w Hbb Hw) as (Hwords & _).
    unfold WindowRank.make. rewrite Hw. cbn [mbind result_bind mret result_ret].
    eexists. split; [done|].
    match goal with |- shape ?r /\ _ =>
      destruct (WindowRank_make_shape cfg bb r Hbb) as (Hsh & Hb)
    end.
    { unfold WindowRank.make. by rewrite Hw. }
    split; [done|]. split; [done|]. cbn [WindowRank.window]. rewrite Hwords.
    apply Z.div_le_upper_bound; lia.
  - exfalso. revert Hw. unfold Window.make, Window.get_words.
    by rewrite assert_true by lia.
Qed.

Lemma median_filter_ref_lookup {T : Type} `{FloatT T} X Y hx hy (in_ : list T) c :
  0 <= c < X * Y ->
  median_filter_ref X Y hx hy in_ !! Z.to_nat c
    = Some (median_at X Y hx hy in_ c).
Proof.
  intros Hc. unfold median_filter_ref. rewrite list_lookup_fmap.
  rewrite (lookup_seqZ_lt 0 (X * Y) (Z.to_nat c)) by lia. cbn.
  unfold median_at. do 4 f_equal; lia.
Qed.

Section Blocks.
Context {T : Type} `{FloatT T}.
Variable std_sort : list (T * Z) -> list (T * Z).
Hypothesis SORT : sort_contract std_sort.
Hypothesis SWO : strict_weak_order T.
Variable cfg : Build.

Lemma run_blocks_spec fuel X Y hx hy b (in_ out_ : list T) :
  1 <= X -> 1 <= Y -> 0 <= hx -> 0 <= hy ->
  2 * hx + 1 < b -> 2 * hy + 1 < b ->
  Z.of_nat (length in_) = X * Y -> Z.of_nat (length out_) = X * Y ->
  b * b <= Z.of_nat fuel ->
  run_blocks std_sort cfg fuel X Y hx hy b in_ out_
    = Ok (median_filter_ref X Y hx hy in_).
Proof.
  intros HX HY Hhx Hhy Hbx Hby Hin Hout Hfuel.
  unfold run_blocks.
  destruct (Dim_make_ok cfg b X hx Hbx HX) as (Ex & _).
  destruct (Dim_make_ok cfg b Y hy Hby HY) as (Ey & _).
  destruct (Dim_make_valid cfg b X hx _ Hbx HX Hhx Ex) as (Hvx & Sx & Hx).
  destruct (Dim_make_valid cfg b Y hy _ Hby HY Hhy Ey) as (Hvy & Sy & Hy).
  rewrite Ex, Ey. cbn [mbind result_bind].
  set (dx := {| Dim.size := X; Dim.h := hx; Dim.step := Dim.calc_step b hx;
                Dim.count := Dim.calc_count b X hx |}) in *.
  set (dy := {| Dim.size := Y; Dim.h := hy; Dim.step := Dim.calc_step b hy;
                Dim.count := Dim.calc_count b Y hy |}) in *.
  destruct (WindowRank_make_ok (T := T) cfg (b * b)) as (r & Hr & Hsh & Hbb & Hw);
    [nia|].
  unfold MedCalc2D.make. rewrite Hr. cbn [mbind result_bind mret result_ret].
  set (mc0 := {| MedCalc2D.wr := r; MedCalc2D.bx := BDim.make dx;
                 MedCalc2D.by_ := BDim.make dy; MedCalc2D.inp := in_;
                 MedCalc2D.out := out_ |}).
  pose proof Hvx as (_ & _ & _ & _ & Hcx & _).
  pose proof Hvy as (_ & _ & _ & _ & Hcy & _).
  destruct (for_range_ind
              (fun j mc => between_blocks b dx dy in_ mc /\
                 forall c, 0 <= c < X * Y -> covered dx dy 0 j c ->
                   MedCalc2D.out mc !! Z.to_nat c
                     = Some (median_at X Y hx hy in_ c))
              0 (Dim.count dy)
              (fun by__ mc =>
                 for_range 0 (Dim.count dx)
                   (fun bx_ mc => MedCalc2D.run std_sort cfg fuel bx_ by__ mc) mc)
              mc0)
    as (mc' & Hrun & Hbt & Hcov); [lia| | |].
  - split.
    + unfold between_blocks. cbn [mc0 MedCalc2D.bx MedCalc2D.by_ MedCalc2D.inp
        MedCalc2D.out MedCalc2D.wr]. rewrite Hbb. done.
    + intros c Hc (i' & j' & Hi' & Hj' & Hlt & _). lia.
  - intros j mc Hj (Hbt & Hcov).
    destruct (for_range_ind
                (fun i mc => between_blocks b dx dy in_ mc /\
                   forall c, 0 <= c < X * Y -> covered dx dy i j c ->
                     MedCalc2D.out mc !! Z.to_nat c
                       = Some (median_at X Y hx hy in_ c))
                0 (Dim.count dx)
                (fun bx_ mc => MedCalc2D.run std_sort cfg fuel bx_ j mc) mc)
      as (mc2 & Hrun2 & Hbt2 & Hcov2); [lia|done| |].
    + intros i mc1 Hi (Hbt1 & Hcov1).
      destruct (run_spec std_sort SORT SWO cfg b dx dy Hvx Hvy in_ fuel Hfuel
                  mc1 i j Hbt1 Hi Hj) as (mc3 & Hrun3 & Hbt3 & Hout3).
      exists mc3. split; [done|]. split; [done|].
      intros c Hc Hcv. destruct (Hout3 c Hc) as (H1 & H2).
      assert (Hdec : (interior dx i (c mod X) /\ interior dy j (c / X)) \/
                     ~ (interior dx i (c mod X) /\ interior dy j (c / X))).
      { unfold interior. cbv zeta. lia. }
      destruct Hdec as [Hint|Hint]; [by apply H1|].
      rewrite (H2 Hint). apply Hcov1; [done|].
      destruct Hcv as (i' & j' & Hi' & Hj' & Hlt & Hix & Hiy).
      exists i', j'. split; [done|]. split; [done|]. split; [|done].
      destruct Hlt as [Hlt|(-> & Hlt)]; [by left|]. right. split; [done|].
      destruct (Z.eq_dec i' i) as [->|Hne]; [|lia].
      exfalso. by apply Hint.
    + exists mc2. split; [done|]. split; [done|].
      intros c Hc (i' & j' & Hi' & Hj' & Hlt & Hix & Hiy).
      apply Hcov2; [done|]. exists i', j'. do 2 (split; [done|]).
      split; [lia|done].
  - rewrite Hrun. cbn [mbind result_bind mret result_ret]. f_equal.
    destruct Hbt as (_ & _ & _ & _ & Hlen & _).
    destruct (axis_partition_valid b dx Hvx) as (Hpx & _).
    destruct (axis_partition_valid b dy Hvy) as (Hpy & _).
    apply list_eq. intros n.
    destruct (Z.lt_ge_cases (Z.of_nat n) (X * Y)) as [Hn|Hn].
    + replace n with (Z.to_nat (Z.of_nat n)) by lia.
      rewrite median_filter_ref_lookup by lia.
      apply Hcov; [lia|].
      assert (Hm : 0 <= Z.of_nat n mod X < X) by (apply Z.mod_pos_bound; lia).
      assert (Hd : 0 <= Z.of_nat n / X < Y).
      { split; [apply Z.div_pos; lia|apply Z.div_lt_upper_bound; lia]. }
      apply (Hpx (Z.of_nat n mod X)) in Hm as (i & Hi & Hix).
      apply (Hpy (Z.of_nat n / X)) in Hd as (j & Hj & Hjy).
      exists i, j. split; [done|]. split; [done|]. split; [lia|done].
    + rewrite !lookup_ge_None_2; [done| |].
      * unfold median_filter_ref. rewrite length_fmap, length_seqZ. lia.
      * cbn [Dim.size dx dy] in Hlen. lia.
Qed.

Lemma median_filter_2d_spec fuel X Y hx hy blockhint (in_ out_ : list T) :
  let b := if blockhint =? 0 then choose_blocksize_2d (Z.max hx hy) else blockhint in
  1 <= X -> 1 <= Y -> 0 <= hx -> 0 <= hy ->
  2 * hx + 1 < b -> 2 * hy + 1 < b ->
  Z.of_nat (length in_) = X * Y -> Z.of_nat (length out_) = X * Y ->
  b * b <= Z.of_nat fuel ->
  median_filter_2d std_sort cfg fuel X Y hx hy blockhint in_ out_
    = Returned (median_filter_ref X Y hx hy in_).
Proof.
  intros b HX HY Hhx Hhy Hbx Hby Hin Hout Hfuel.
  rewrite median_filter_2d_not_thrown by (fold b; lia). fold b.
  by rewrite run_blocks_spec.
Qed.

End Blocks.


(** ** The filter against the sort-based reference *)

Lemma median_filter_ref_cell {T : Type} `{FloatT T} X Y hx hy (in_ : list T) x y :
  0 <= x < X -> 0 <= y < Y ->
  median_filter_ref X Y hx hy in_ !! Z.to_nat (y * X + x)
    = Some (median_of (window_values X Y hx hy in_ x y)).
Proof.
  intros Hx Hy. rewrite median_filter_ref_lookup by nia. unfold median_at.
  rewrite pack_mod, pack_div by lia. done.
Qed.

(** C1: for an image of positive dimensions [X] by [Y], radii
    [hx, hy >= 0] and a block size [b] (the hint, or
    [4 (max hx hy + 2)] for the hint 0) with [2 hx + 1 < b] and
    [2 hy + 1 < b], for every element type on which [operator<] is a
    strict weak order away from NaN and every [std::sort] that meets
    its contract, in every build: [median_filter_2d] returns, and the
    output it has written is the image [median_filter_ref] of the
    sort-based reference, [X * Y] cells of which cell [(x, y)] is the
    median (NaNs excluded; the mean of the lower and the upper middle
    for an even count; the quiet NaN for none) of the input cells in
    the clipped window
    [[max(0,x-hx), min(X,x+hx+1)) x [max(0,y-hy), min(Y,y+hy+1))],
    taken from a stable sort of the cells in row-major order. *)
Theorem median_filter_2d_correct (T : Type) (F : FloatT T)
    (std_sort : list (T * Z) -> list (T * Z)) cfg fuel X Y hx hy blockhint
    (in_ out_ : list T) :
  strict_weak_order T -> sort_contract std_sort ->
  let b := if blockhint =? 0 then choose_blocksize_2d (Z.max hx hy)
           else blockhint in
  1 <= X -> 1 <= Y -> 0 <= hx -> 0 <= hy ->
  2 * hx + 1 < b -> 2 * hy + 1 < b ->
  Z.of_nat (length in_) = X * Y -> Z.of_nat (length out_) = X * Y ->
  b * b <= Z.of_nat fuel ->
  median_filter_2d std_sort cfg fuel X Y hx hy blockhint in_ out_
    = Returned (median_filter_ref X Y hx hy in_) /\
  Z.of_nat (length (median_filter_ref X Y hx hy in_)) = X * Y /\
  forall x y, 0 <= x < X -> 0 <= y < Y ->
    median_filter_ref X Y hx hy in_ !! Z.to_nat (y * X + x)
      = Some (median_of (window_values X Y hx hy in_ x y)).
Proof.
  intros SWO SORT b HX HY Hhx Hhy Hbx Hby Hin Hout Hfuel.
  split; [by apply median_filter_2d_spec|]. split.
  - unfold median_filter_ref. rewrite length_fmap, length_seqZ. nia.
  - intros x y. apply median_filter_ref_cell.
Qed.

Lemma median_filter_2d_correct_witness :
  let in_ := [Example.q 3; Example.q 1; None; Example.q 4; Example.q 1;
              Example.q 5; Example.q 9; Example.q 2; None; Example.q 6] in
  median_filter_2d sort_pairs Example.debug 16 5 2 1 0 4 in_ (replicate 10 None)
    = Returned (median_filter_ref 5 2 1 0 in_) /\
  Z.of_nat (length (median_filter_ref 5 2 1 0 in_)) = 5 * 2 /\
  forall x y, 0 <= x < 5 -> 0 <= y < 2 ->
    median_filter_ref 5 2 1 0 in_ !! Z.to_nat (y * 5 + x)
      = Some (median_of (window_values 5 2 1 0 in_ x y)).
Proof.
  intros in_.
  apply (median_filter_2d_correct (option Q) Example.optQ_float sort_pairs
           Example.debug 16%nat 5 2 1 0 4 in_ (replicate 10 None)).
  - apply optQ_strict_weak_order.
  - apply sort_pairs_contract. apply optQ_strict_weak_order.
  - lia.
  - lia.
  - lia.
  - lia.
  - cbn. lia.
  - cbn. lia.
  - reflexivity.
  - reflexivity.
  - cbn. lia.
Defined.

(** C2: on the same image, radii and block size (as in C1), in builds
    that differ only in [NAIVE], the filter with the snake traversal of
    [MedCalc2D::medians] and the filter with the naive traversal both
    return, and they return the same output array. *)
Theorem snake_equals_naive (T : Type) (F : FloatT T)
    (std_sort : list (T * Z) -> list (T * Z)) ndebug avx2 fuel X Y hx hy
    blockhint (in_ out_ : list T) :
  strict_weak_order T -> sort_contract std_sort ->
  let b := if blockhint =? 0 then choose_blocksize_2d (Z.max hx hy)
           else blockhint in
  1 <= X -> 1 <= Y -> 0 <= hx -> 0 <= hy ->
  2 * hx + 1 < b -> 2 * hy + 1 < b ->
  Z.of_nat (length in_) = X * Y -> Z.of_nat (length out_) = X * Y ->
  b * b <= Z.of_nat fuel ->
  exists out,
    median_filter_2d std_sort {| NDEBUG := ndebug; NAIVE := false; AVX2 := avx2 |}
      fuel X Y hx hy blockhint in_ out_ = Returned out /\
    median_filter_2d std_sort {| NDEBUG := ndebug; NAIVE := true; AVX2 := avx2 |}
      fuel X Y hx hy blockhint in_ out_ = Returned out.
Proof.
  intros SWO SORT b HX HY Hhx Hhy Hbx Hby Hin Hout Hfuel.
  exists (median_filter_ref X Y hx hy in_).
  split; by apply median_filter_2d_spec.
Qed.

Lemma snake_equals_naive_witness :
  let in_ := [Example.q 3; Example.q 1; None; Example.q 4; Example.q 1;
              Example.q 5; Example.q 9; Example.q 2; None; Example.q 6] in
  exists out,
    median_filter_2d sort_pairs {| NDEBUG := false; NAIVE := false; AVX2 := false |}
      16 5 2 1 0 4 in_ (replicate 10 None) = Returned out /\
    median_filter_2d sort_pairs {| NDEBUG := false; NAIVE := true; AVX2 := false |}
      16 5 2 1 0 4 in_ (replicate 10 None) = Returned out.
Proof.
  intros in_.
  apply (snake_equals_naive (option Q) Example.optQ_float sort_pairs
           false false 16%nat 5 2 1 0 4 in_ (replicate 10 None)).
  - apply optQ_strict_weak_order.
  - apply sort_pairs_contract. apply optQ_strict_weak_order.
  - lia.
  - lia.
  - lia.
  - lia.
  - cbn. lia.
  - cbn. lia.
  - reflexivity.
  - reflexivity.
  - cbn. lia.
Defined.


(** * Further properties of the code *)

(** ** Bits and the window *)

(** X1: [findnth64] does not depend on the build: for a 64-bit word
    [x] with more than [n] set bits, the [_pdep_u64] version and the
    loop over [x &= x - 1] return the same index, which is that of the
    [n]-th set bit of [x] (counting from 0). *)
Theorem findnth64_builds_agree x n :
  is_u64 x -> 0 <= n < popcnt64 x ->
  exists j, 0 <= j < 64 /\ nth_set_bit x n j /\
    forall cfg, findnth64 cfg x n = Ok j.
Proof.
  intros Hx Hn.
  destruct (findnth64_spec Example.debug x n Hx Hn) as (j & _ & Hj & Hnth).
  exists j. split; [done|]. split; [done|]. intros cfg.
  destruct (findnth64_spec cfg x n Hx Hn) as (j' & Hf & _ & Hnth').
  by rewrite (nth_set_bit_unique x n j j').
Qed.

Lemma findnth64_builds_agree_witness :
  exists j, 0 <= j < 64 /\ nth_set_bit 44 1 j /\
    forall cfg, findnth64 cfg 44 1 = Ok j.
Proof.
  apply (findnth64_builds_agree 44 1).
  - unfold is_u64. lia.
  - vm_compute. split; [discriminate|reflexivity].
Defined.

(** X2: the constructor of [Window] followed by [clear]: for
    [bb >= 1] slots, in every build, the window has [(bb + 63) / 64]
    words, which hold at least [bb] bits; after [clear] every bit is
    clear, the size is 0, the cursor [p] is [words / 2], and the
    invariant of [half] holds. *)
Theorem Window_make_clear cfg bb :
  1 <= bb ->
  exists w0 w, Window.make cfg bb = Ok w0 /\ Window.clear w0 = Ok w /\
    Window.words w = (bb + 63) / 64 /\ bb <= 64 * Window.words w /\
    Window.size w = 0 /\ Window.p w = Window.words w / 2 /\
    Window_inv w /\ forall s, bit_at (Window.buf w) s = false.
Proof.
  intros Hbb.
  destruct (Window.make cfg bb) as [w0|] eqn:Hmk.
  - destruct (make_spec cfg bb w0 Hbb Hmk) as (Hwords & Hw1 & Hcap & Hbuf).
    destruct (clear_spec w0) as (w & Hcl & Hinv & Hw & _ & Hsz & Hbits); [done| |].
    { rewrite Hbuf, length_replicate. lia. }
    exists w0, w. split; [done|]. split; [done|]. rewrite Hw.
    split; [done|]. split; [done|]. split; [done|]. split; [|done].
    revert Hcl. unfold Window.clear.
    destruct (for_range _ _ _ _); cbn [mbind result_bind mret result_ret]; [|done].
    intros [= <-]. cbn [Window.p Window.words]. apply Z.quot_div_nonneg; lia.
  - exfalso. revert Hmk. unfold Window.make, Window.get_words.
    by rewrite assert_true by lia.
Qed.

Lemma Window_make_clear_witness :
  exists w0 w, Window.make Example.release 130 = Ok w0 /\ Window.clear w0 = Ok w /\
    Window.words w = (130 + 63) / 64 /\ 130 <= 64 * Window.words w /\
    Window.size w = 0 /\ Window.p w = Window.words w / 2 /\
    Window_inv w /\ forall s, bit_at (Window.buf w) s = false.
Proof. apply (Window_make_clear Example.release 130). lia. Defined.

(** X3: [Window::update] on a window whose invariant holds, at a slot
    [s] of the buffer, inserting ([op = 1]) a bit that is clear or
    removing ([op = -1]) one that is set: it returns, flips bit [s] and
    no other, changes the size by [op], and keeps the invariant. *)
Theorem Window_update_toggles cfg op s w :
  Window_inv w -> 0 <= s < 64 * Window.words w -> valid_update op s w ->
  exists w', Window.update cfg op s w = Ok w' /\ Window_inv w' /\
    Window.words w' = Window.words w /\
    Window.size w' = Window.size w + op /\
    forall s', bit_at (Window.buf w') s' =
               if s' =? s then negb (bit_at (Window.buf w) s)
               else bit_at (Window.buf w) s'.
Proof. apply update_spec. Qed.

Lemma Window_update_toggles_witness :
  exists w', Window.update Example.debug 1 6 Example.window4 = Ok w' /\
    Window_inv w' /\
    Window.words w' = Window.words Example.window4 /\
    Window.size w' = Window.size Example.window4 + 1 /\
    forall s', bit_at (Window.buf w') s' =
               if s' =? 6 then negb (bit_at (Window.buf Example.window4) 6)
               else bit_at (Window.buf Example.window4) s'.
Proof.
  apply (Window_update_toggles Example.debug 1 6 Example.window4).
  - apply (Window_reachable_inv Example.debug), window4_reachable.
  - cbn. lia.
  - left. split; reflexivity.
Defined.

(** X4: in a build with assertions, [Window::update] at a slot of the
    buffer fails its assertion when it is asked to insert a bit that is
    set or to remove a bit that is clear. *)
Theorem Window_update_invalid_asserts cfg op s w :
  NDEBUG cfg = false ->
  Z.of_nat (length (Window.buf w)) = Window.words w ->
  0 <= s < 64 * Window.words w ->
  (op = 1 /\ bit_at (Window.buf w) s = true) \/
  (op = -1 /\ bit_at (Window.buf w) s = false) ->
  Window.update cfg op s w = Fault AssertionFailed.
Proof.
  intros Hd Hlen Hs Hop.
  pose proof (Z.div_mod s 64 ltac:(lia)) as Hdm.
  pose proof (Z.mod_pos_bound s 64 ltac:(lia)) as Hmb.
  assert (0 <= s / 64 < Window.words w) as Hi.
  { split; [apply Z.div_pos; lia|apply Z.div_lt_upper_bound; lia]. }
  destruct (rd_in_range (Window.buf w) (s / 64)) as (x & Hrd & Hx); [lia|].
  assert (Hbit : bit_at (Window.buf w) s = Z.testbit x (s mod 64)).
  { rewrite bit_at_split, Hx by lia. done. }
  rewrite Hbit in Hop.
  unfold Window.update.
  rewrite assert_true by (destruct Hop as [(-> & _)|(-> & _)]; done).
  cbn [mbind result_bind]. unfold Window.WORD_MASK, Window.WORD_SIZE, Window.WORD_SHIFT.
  rewrite Z.shiftr_div_pow2 by lia. change (2 ^ 6) with 64.
  change (Z.shiftl 1 6 - 1) with (Z.ones 6). rewrite Z.land_ones by lia.
  change (2 ^ 6) with 64. rewrite Hrd. cbn [mbind result_bind].
  unfold ONE64, wrap64. rewrite Z.shiftl_1_l.
  pose proof (pow2_u64 (s mod 64) ltac:(lia)) as Hpow.
  rewrite Z.mod_small by exact Hpow.
  rewrite land_pow2_eqb by lia.
  unfold assert. rewrite Hd.
  destruct Hop as [(-> & ->)|(-> & ->)]; done.
Qed.

Lemma Window_update_invalid_asserts_witness :
  Window.update Example.debug 1 5 Example.window4 = Fault AssertionFailed.
Proof.
  apply (Window_update_invalid_asserts Example.debug 1 5 Example.window4).
  - reflexivity.
  - reflexivity.
  - cbn. lia.
  - left. split; reflexivity.
Defined.

(** ** The window of a cell inside its tile *)

(** X5: [BDim::w0] and [BDim::w1] on tile [i] of an axis of [size]
    cells with radius [h] and block size [b], [2 h + 1 < b]: for a
    coordinate [v] of the interior [[b0, b1)] of the tile they return
    the bounds [lo <= v < hi] of a window that lies inside the tile
    and that is, in coordinates of the image, the window of radius [h]
    around the cell clipped to the image; for a coordinate outside the
    interior, a build with assertions fails the assertion. *)
Theorem BDim_window_in_tile cfg b size h d i v :
  2 * h + 1 < b -> 1 <= size -> 0 <= h ->
  Dim.make cfg b size h = Ok d -> 0 <= i < Dim.count d ->
  let bd := BDim.set i (BDim.make d) in
  (BDim.b0 bd <= v < BDim.b1 bd ->
   exists lo hi,
     BDim.w0 cfg v bd = Ok lo /\ BDim.w1 cfg v bd = Ok hi /\
     0 <= lo <= v /\ v < hi <= BDim.size bd /\
     BDim.start bd + lo = Z.max 0 (BDim.start bd + v - h) /\
     BDim.start bd + hi = Z.min size (BDim.start bd + v + h + 1)) /\
  (~ (BDim.b0 bd <= v < BDim.b1 bd) -> NDEBUG cfg = false ->
   BDim.w0 cfg v bd = Fault AssertionFailed /\
   BDim.w1 cfg v bd = Fault AssertionFailed).
Proof.
  intros Hb Hs Hh Hmk Hi bd.
  destruct (Dim_make_valid cfg b size h d Hb Hs Hh Hmk) as (Hv & Es & Eh).
  split.
  - intros Hin.
    destruct (BDim_window_clip cfg b d i (BDim.make d) v Hv eq_refl Hi Hin)
      as (lo & hi & H1 & H2 & H3 & H4 & H5 & H6).
    exists lo, hi. rewrite <- Es, <- Eh. done.
  - intros Hout Hd. unfold BDim.w0, BDim.w1, assert. rewrite Hd.
    destruct (Z.leb_spec (BDim.b0 bd) v); [|done].
    destruct (Z.ltb_spec v (BDim.b1 bd)); [lia|done].
Qed.

Lemma BDim_window_in_tile_witness :
  let d := {| Dim.size := 5; Dim.h := 1; Dim.step := 2; Dim.count := 2 |} in
  let bd := BDim.set 1 (BDim.make d) in
  (BDim.b0 bd <= 1 < BDim.b1 bd ->
   exists lo hi,
     BDim.w0 Example.debug 1 bd = Ok lo /\ BDim.w1 Example.debug 1 bd = Ok hi /\
     0 <= lo <= 1 /\ 1 < hi <= BDim.size bd /\
     BDim.start bd + lo = Z.max 0 (BDim.start bd + 1 - 1) /\
     BDim.start bd + hi = Z.min 5 (BDim.start bd + 1 + 1 + 1)) /\
  (~ (BDim.b0 bd <= 1 < BDim.b1 bd) -> NDEBUG Example.debug = false ->
   BDim.w0 Example.debug 1 bd = Fault AssertionFailed /\
   BDim.w1 Example.debug 1 bd = Fault AssertionFailed).
Proof.
  intros d.
  apply (BDim_window_in_tile Example.debug 4 5 1 d 1 1).
  - lia.
  - lia.
  - lia.
  - reflexivity.
  - cbn. lia.
Defined.

(** ** The rank table *)

(** X6: the initialisation of a [WindowRank] of [bb >= 1] slots with
    pairs (value, slot) whose slots are distinct and below [bb]:
    the constructor, [init_start], the calls of [init_feed] and
    [init_finish] all return; [size] is then the number of values that
    are not NaN; [rank] maps the slot of every NaN to [NAN_MARKER] and
    the slot of every other value to the index of its pair in
    [sorted]; and [sorted[0..size)] is strictly ascending in the order
    of the pairs. *)
Theorem WindowRank_init_ranks (T : Type) (F : FloatT T)
    (std_sort : list (T * Z) -> list (T * Z)) cfg bb (feeds : list (T * Z)) :
  sort_contract std_sort -> 1 <= bb -> valid_feeds bb feeds ->
  exists r0 r1 r2,
    WindowRank.make cfg bb = Ok r0 /\
    feed_list feeds (WindowRank.init_start r0) = Ok r1 /\
    WindowRank.init_finish std_sort r1 = Ok r2 /\
    WindowRank.size r2
      = Z.of_nat (length (filter (fun e => isnan (fst e) = false) feeds)) /\
    (forall v s, (v, s) ∈ feeds -> isnan v = true ->
       WindowRank.rank r2 !! Z.to_nat s = Some WindowRank.NAN_MARKER) /\
    (forall v s, (v, s) ∈ feeds -> isnan v = false ->
       exists i, WindowRank.rank r2 !! Z.to_nat s = Some i /\
         0 <= i < WindowRank.size r2 /\
         WindowRank.sorted r2 !! Z.to_nat i = Some (v, s)) /\
    (forall i j e1 e2, 0 <= i < j -> j < WindowRank.size r2 ->
       WindowRank.sorted r2 !! Z.to_nat i = Some e1 ->
       WindowRank.sorted r2 !! Z.to_nat j = Some e2 -> pair_lt e1 e2 = true).
Proof.
  intros SORT Hbb Hv.
  destruct (WindowRank_make_ok (T := T) cfg bb Hbb) as (r0 & Hmk & Hsh & Ebb & _).
  pose proof (init_start_shape r0 Hsh) as Hsh0.
  destruct (feed_list_fed (WindowRank.init_start r0) feeds [] _ Hsh0
              (init_start_fed _)) as (r1 & Hr1 & Hfed).
  { cbn [app WindowRank.init_start WindowRank.bb]. by rewrite Ebb. }
  cbn [app] in Hfed.
  destruct (init_finish_ranked std_sort SORT feeds _ r1 Hsh0 Hfed)
    as (r2 & Hr2 & Hrk & _).
  { cbn [WindowRank.init_start WindowRank.bb]. by rewrite Ebb. }
  exists r0, r1, r2. split; [done|]. split; [done|]. split; [done|].
  destruct Hrk as (_ & _ & R1 & R2 & _ & R4).
  split; [|done].
  destruct Hfed as (_ & _ & _ & _ & Hsz & _). rewrite <- Hsz.
  revert Hr2. unfold WindowRank.init_finish.
  destruct (WindowRank.sort_prefix _ _ _); cbn [mbind result_bind]; [|done].
  destruct (for_range _ _ _ _); cbn [mbind result_bind mret result_ret]; [|done].
  by intros [= <-].
Qed.

Lemma WindowRank_init_ranks_witness :
  exists r0 r1 r2,
    WindowRank.make Example.debug 4 = Ok r0 /\
    feed_list Example.feeds4 (WindowRank.init_start r0) = Ok r1 /\
    WindowRank.init_finish sort_pairs r1 = Ok r2 /\
    WindowRank.size r2
      = Z.of_nat (length (filter (fun e => isnan (fst e) = false) Example.feeds4)) /\
    (forall v s, (v, s) ∈ Example.feeds4 -> isnan v = true ->
       WindowRank.rank r2 !! Z.to_nat s = Some WindowRank.NAN_MARKER) /\
    (forall v s, (v, s) ∈ Example.feeds4 -> isnan v = false ->
       exists i, WindowRank.rank r2 !! Z.to_nat s = Some i /\
         0 <= i < WindowRank.size r2 /\
         WindowRank.sorted r2 !! Z.to_nat i = Some (v, s)) /\
    (forall i j e1 e2, 0 <= i < j -> j < WindowRank.size r2 ->
       WindowRank.sorted r2 !! Z.to_nat i = Some e1 ->
       WindowRank.sorted r2 !! Z.to_nat j = Some e2 -> pair_lt e1 e2 = true).
Proof.
  apply (WindowRank_init_ranks (option Q) Example.optQ_float sort_pairs
           Example.debug 4 Example.feeds4).
  - apply sort_pairs_contract. apply optQ_strict_weak_order.
  - lia.
  - split.
    + cbn. compute_done.
    + cbn. repeat constructor; cbn; lia.
Defined.





(** ** The filter *)

Section FilterFacts.
Context {T : Type} `{FloatT T}.

Lemma window_values_radius_0 X Y (in_ : list T) x y :
  0 <= x < X -> 0 <= y < Y ->
  window_values X Y 0 0 in_ x y = [nth (Z.to_nat (y * X + x)) in_ quiet_NaN].
Proof.
  intros Hx Hy. unfold window_values.
  assert (E : filter (fun c => (Z.max 0 (x - 0) <= c mod X < Z.min X (x + 0 + 1)) /\
                               (Z.max 0 (y - 0) <= c / X < Z.min Y (y + 0 + 1)))
                (seqZ 0 (X * Y)) = [y * X + x]); [|by rewrite E].
  apply sorted_Z_unique.
  - replace (X * Y) with (Z.of_nat (Z.to_nat (X * Y))) by nia.
    eapply StronglySorted_weaken; [|apply (filter_seqZ_sorted _ (X * Y)); nia].
    intros a c; cbv beta; lia.
  - repeat constructor.
  - intros c. rewrite list_elem_of_filter, elem_of_seqZ, list_elem_of_singleton.
    split.
    + intros ((Hm & Hd) & Hc).
      pose proof (Z.div_mod c X ltac:(lia)). nia.
    + intros ->. rewrite pack_mod, pack_div by lia. nia.
Qed.

Lemma median_of_singleton (v : T) :
  median_of [v] = if isnan v then quiet_NaN else v.
Proof.
  unfold median_of. rewrite filter_cons, filter_nil.
  destruct (isnan v) eqn:E; case_decide; try done.
Qed.

Lemma median_of_all_nan (l : list T) :
  Forall (fun v => isnan v = true) l -> median_of l = quiet_NaN.
Proof.
  intros Hl. unfold median_of.
  assert (E : filter (fun v => isnan v = false) l = []); [|by rewrite E].
  induction Hl as [|v l Hv _ IH]; [done|].
  rewrite filter_cons. case_decide; [congruence|done].
Qed.

Lemma window_values_elem X Y hx hy (in_ : list T) x y v :
  Z.of_nat (length in_) = X * Y ->
  v ∈ window_values X Y hx hy in_ x y -> v ∈ in_.
Proof.
  intros Hlen Hv. unfold window_values in Hv.
  apply list_elem_of_fmap in Hv as (c & -> & Hc).
  apply list_elem_of_filter in Hc as (_ & Hc). apply elem_of_seqZ in Hc.
  apply list_elem_of_In, nth_In. lia.
Qed.

End FilterFacts.

(** X9: the block size does not show in the result: for an image of
    positive dimensions, radii [hx, hy >= 0] and two block hints whose
    block sizes [b] (the hint, or [4 (max hx hy + 2)] for the hint 0)
    both have [2 hx + 1 < b] and [2 hy + 1 < b], the two calls of
    [median_filter_2d] return the same output. *)
Theorem block_size_independence (T : Type) (F : FloatT T)
    (std_sort : list (T * Z) -> list (T * Z)) cfg fuel X Y hx hy hint1 hint2
    (in_ out_ : list T) :
  strict_weak_order T -> sort_contract std_sort ->
  let b1 := if hint1 =? 0 then choose_blocksize_2d (Z.max hx hy) else hint1 in
  let b2 := if hint2 =? 0 then choose_blocksize_2d (Z.max hx hy) else hint2 in
  1 <= X -> 1 <= Y -> 0 <= hx -> 0 <= hy ->
  2 * hx + 1 < b1 -> 2 * hy + 1 < b1 -> 2 * hx + 1 < b2 -> 2 * hy + 1 < b2 ->
  Z.of_nat (length in_) = X * Y -> Z.of_nat (length out_) = X * Y ->
  b1 * b1 <= Z.of_nat fuel -> b2 * b2 <= Z.of_nat fuel ->
  exists out,
    median_filter_2d std_sort cfg fuel X Y hx hy hint1 in_ out_ = Returned out /\
    median_filter_2d std_sort cfg fuel X Y hx hy hint2 in_ out_ = Returned out.
Proof.
  intros SWO SORT b1 b2 HX HY Hhx Hhy H1x H1y H2x H2y Hin Hout Hf1 Hf2.
  exists (median_filter_ref X Y hx hy in_).
  split; by apply median_filter_2d_spec.
Qed.

Lemma block_size_independence_witness :
  let in_ := [Example.q 3; Example.q 1; None; Example.q 4; Example.q 1;
              Example.q 5; Example.q 9; Example.q 2; None; Example.q 6] in
  exists out,
    median_filter_2d sort_pairs Example.release 144 5 2 1 0 4 in_ (replicate 10 None)
      = Returned out /\
    median_filter_2d sort_pairs Example.release 144 5 2 1 0 0 in_ (replicate 10 None)
      = Returned out.
Proof.
  intros in_.
  apply (block_size_independence (option Q) Example.optQ_float sort_pairs
           Example.release 144%nat 5 2 1 0 4 0 in_ (replicate 10 None)).
  - apply optQ_strict_weak_order.
  - apply sort_pairs_contract. apply optQ_strict_weak_order.
  - lia.
  - lia.
  - lia.
  - lia.
  - unfold choose_blocksize_2d. cbn. lia.
  - unfold choose_blocksize_2d. cbn. lia.
  - unfold choose_blocksize_2d. cbn. lia.
  - unfold choose_blocksize_2d. cbn. lia.
  - reflexivity.
  - reflexivity.
  - unfold choose_blocksize_2d. cbn. lia.
  - unfold choose_blocksize_2d. cbn. lia.
Defined.

(** X10: with the radii [hx = hy = 0] the filter copies the image,
    except that every NaN comes out as the quiet NaN of [T]: each
    output cell is the input cell when that is not NaN. *)
Theorem radius_zero_copies (T : Type) (F : FloatT T)
    (std_sort : list (T * Z) -> list (T * Z)) cfg fuel X Y blockhint
    (in_ out_ : list T) :
  strict_weak_order T -> sort_contract std_sort ->
  let b := if blockhint =? 0 then choose_blocksize_2d (Z.max 0 0)
           else blockhint in
  1 <= X -> 1 <= Y -> 1 < b ->
  Z.of_nat (length in_) = X * Y -> Z.of_nat (length out_) = X * Y ->
  b * b <= Z.of_nat fuel ->
  median_filter_2d std_sort cfg fuel X Y 0 0 blockhint in_ out_
    = Returned ((fun v => if isnan v then quiet_NaN else v) <$> in_).
Proof.
  intros SWO SORT b HX HY Hb Hin Hout Hfuel.
  rewrite median_filter_2d_spec by (done || fold b; lia). f_equal.
  apply list_eq. intros n.
  destruct (Z.lt_ge_cases (Z.of_nat n) (X * Y)) as [Hn|Hn].
  - replace n with (Z.to_nat (Z.of_nat n)) at 1 by lia.
    rewrite median_filter_ref_lookup by lia. unfold median_at.
    assert (Hm : 0 <= Z.of_nat n mod X < X) by (apply Z.mod_pos_bound; lia).
    assert (Hd : 0 <= Z.of_nat n / X < Y).
    { split; [apply Z.div_pos; lia|apply Z.div_lt_upper_bound; lia]. }
    rewrite window_values_radius_0, median_of_singleton by done.
    replace (Z.of_nat n / X * X + Z.of_nat n mod X) with (Z.of_nat n)
      by (pose proof (Z.div_mod (Z.of_nat n) X ltac:(lia)); lia).
    rewrite Nat2Z.id, list_lookup_fmap.
    destruct (lookup_lt_is_Some_2 in_ n ltac:(lia)) as (v & Hv).
    rewrite Hv. cbn. by rewrite (nth_lookup_Some _ _ _ _ Hv).
  - rewrite !lookup_ge_None_2; [done| |].
    + rewrite length_fmap. lia.
    + unfold median_filter_ref. rewrite length_fmap, length_seqZ. lia.
Qed.

Lemma radius_zero_copies_witness :
  let in_ := [Example.q 3; None; Example.q 1; Example.q 2] in
  median_filter_2d sort_pairs Example.debug 64 2 2 0 0 0 in_ (replicate 4 None)
    = Returned ((fun v => if isnan v then quiet_NaN else v) <$> in_).
Proof.
  intros in_.
  apply (radius_zero_copies (option Q) Example.optQ_float sort_pairs
           Example.debug 64%nat 2 2 0 in_ (replicate 4 None)).
  - apply optQ_strict_weak_order.
  - apply sort_pairs_contract. apply optQ_strict_weak_order.
  - lia.
  - lia.
  - unfold choose_blocksize_2d. cbn. lia.
  - reflexivity.
  - reflexivity.
  - unfold choose_blocksize_2d. cbn. lia.
Defined.

(** X11: an image of NaNs gives an image of quiet NaNs, whatever the
    radii and the block size (valid as above). *)
Theorem all_nan_image (T : Type) (F : FloatT T)
    (std_sort : list (T * Z) -> list (T * Z)) cfg fuel X Y hx hy blockhint
    (in_ out_ : list T) :
  strict_weak_order T -> sort_contract std_sort ->
  let b := if blockhint =? 0 then choose_blocksize_2d (Z.max hx hy)
           else blockhint in
  1 <= X -> 1 <= Y -> 0 <= hx -> 0 <= hy ->
  2 * hx + 1 < b -> 2 * hy + 1 < b ->
  Z.of_nat (length in_) = X * Y -> Z.of_nat (length out_) = X * Y ->
  b * b <= Z.of_nat fuel ->
  Forall (fun v => isnan v = true) in_ ->
  median_filter_2d std_sort cfg fuel X Y hx hy blockhint in_ out_
    = Returned (replicate (Z.to_nat (X * Y)) quiet_NaN).
Proof.
  intros SWO SORT b HX HY Hhx Hhy Hbx Hby Hin Hout Hfuel Hnan.
  rewrite median_filter_2d_spec by done. f_equal.
  apply list_eq. intros n.
  destruct (Z.lt_ge_cases (Z.of_nat n) (X * Y)) as [Hn|Hn].
  - replace n with (Z.to_nat (Z.of_nat n)) at 1 by lia.
    rewrite median_filter_ref_lookup by lia. unfold median_at.
    rewrite lookup_replicate_2 by lia. f_equal.
    apply median_of_all_nan, Forall_forall. intros v Hv.
    rewrite Forall_forall in Hnan. apply Hnan.
    eapply window_values_elem; [exact Hin|exact Hv].
  - rewrite !lookup_ge_None_2; [done| |].
    + rewrite length_replicate. lia.
    + unfold median_filter_ref. rewrite length_fmap, length_seqZ. lia.
Qed.

Lemma all_nan_image_witness :
  median_filter_2d sort_pairs Example.debug 144 3 2 1 1 0
      (replicate 6 (@None Q)) (replicate 6 (Example.q 7))
    = Returned (replicate (Z.to_nat (3 * 2)) quiet_NaN).
Proof.
  apply (all_nan_image (option Q) Example.optQ_float sort_pairs
           Example.debug 144%nat 3 2 1 1 0 (replicate 6 None)
           (replicate 6 (Example.q 7))).
  - apply optQ_strict_weak_order.
  - apply sort_pairs_contract. apply optQ_strict_weak_order.
  - lia.
  - lia.
  - lia.
  - lia.
  - unfold choose_blocksize_2d. cbn. lia.
  - unfold choose_blocksize_2d. cbn. lia.
  - reflexivity.
  - reflexivity.
  - unfold choose_blocksize_2d. cbn. lia.
  - by apply Forall_replicate.
Defined.

(** X12: [MedCalc2D::run(i, j)] on a calculator fresh from its
    constructor, for a valid image, radii and block size: it returns,
    and it has written the medians of exactly the cells in the interior
    of block [(i, j)]; every other cell of the output is as it was. *)
Theorem run_writes_interior (T : Type) (F : FloatT T)
    (std_sort : list (T * Z) -> list (T * Z)) cfg fuel X Y hx hy b i j
    (in_ out_ : list T) :
  strict_weak_order T -> sort_contract std_sort ->
  1 <= X -> 1 <= Y -> 0 <= hx -> 0 <= hy ->
  2 * hx + 1 < b -> 2 * hy + 1 < b ->
  Z.of_nat (length in_) = X * Y -> Z.of_nat (length out_) = X * Y ->
  b * b <= Z.of_nat fuel ->
  0 <= i < Dim.calc_count b X hx -> 0 <= j < Dim.calc_count b Y hy ->
  exists dx dy mc mc',
    Dim.make cfg b X hx = Ok dx /\ Dim.make cfg b Y hy = Ok dy /\
    MedCalc2D.make cfg b dx dy in_ out_ = Ok mc /\
    MedCalc2D.run std_sort cfg fuel i j mc = Ok mc' /\
    forall x y, 0 <= x < X -> 0 <= y < Y ->
      (interior dx i x /\ interior dy j y ->
         MedCalc2D.out mc' !! Z.to_nat (y * X + x)
           = Some (median_of (window_values X Y hx hy in_ x y))) /\
      (~ (interior dx i x /\ interior dy j y) ->
         MedCalc2D.out mc' !! Z.to_nat (y * X + x)
           = out_ !! Z.to_nat (y * X + x)).
Proof.
  intros SWO SORT HX HY Hhx Hhy Hbx Hby Hin Hout Hfuel Hi Hj.
  destruct (Dim_make_ok cfg b X hx Hbx HX) as (Ex & _).
  destruct (Dim_make_ok cfg b Y hy Hby HY) as (Ey & _).
  destruct (Dim_make_valid cfg b X hx _ Hbx HX Hhx Ex) as (Hvx & Sx & Hx).
  destruct (Dim_make_valid cfg b Y hy _ Hby HY Hhy Ey) as (Hvy & Sy & Hy).
  set (dx := {| Dim.size := X; Dim.h := hx; Dim.step := Dim.calc_step b hx;
                Dim.count := Dim.calc_count b X hx |}) in *.
  set (dy := {| Dim.size := Y; Dim.h := hy; Dim.step := Dim.calc_step b hy;
                Dim.count := Dim.calc_count b Y hy |}) in *.
  destruct (WindowRank_make_ok (T := T) cfg (b * b)) as (r & Hr & Hsh & Hbb & Hw);
    [nia|].
  set (mc := {| MedCalc2D.wr := r; MedCalc2D.bx := BDim.make dx;
                MedCalc2D.by_ := BDim.make dy; MedCalc2D.inp := in_;
                MedCalc2D.out := out_ |}).
  assert (Hbt : between_blocks b dx dy in_ mc).
  { unfold between_blocks. cbn [mc MedCalc2D.bx MedCalc2D.by_ MedCalc2D.inp
      MedCalc2D.out MedCalc2D.wr]. rewrite Hbb. done. }
  destruct (run_spec std_sort SORT SWO cfg b dx dy Hvx Hvy in_ fuel Hfuel
              mc i j Hbt Hi Hj) as (mc' & Hrun & _ & Hcells).
  exists dx, dy, mc, mc'. split; [done|]. split; [done|].
  split; [unfold MedCalc2D.make; by rewrite Hr|]. split; [done|].
  intros x y Hx' Hy'.
  destruct (Hcells (y * X + x)) as (H1 & H2); [cbn [Dim.size dx dy]; nia|].
  cbn [Dim.size Dim.h dx dy] in H1, H2. fold dx dy in H1, H2.
  unfold median_at in H1. rewrite pack_mod, pack_div in H1, H2 by lia.
  done.
Qed.

Lemma run_writes_interior_witness :
  let in_ := [Example.q 3; Example.q 1; None; Example.q 4; Example.q 1;
              Example.q 5; Example.q 9; Example.q 2; None; Example.q 6] in
  let out_ := replicate 10 (Example.q 0) in
  exists dx dy mc mc',
    Dim.make Example.debug 4 5 1 = Ok dx /\ Dim.make Example.debug 4 2 0 = Ok dy /\
    MedCalc2D.make Example.debug 4 dx dy in_ out_ = Ok mc /\
    MedCalc2D.run sort_pairs Example.debug 16 1 0 mc = Ok mc' /\
    forall x y, 0 <= x < 5 -> 0 <= y < 2 ->
      (interior dx 1 x /\ interior dy 0 y ->
         MedCalc2D.out mc' !! Z.to_nat (y * 5 + x)
           = Some (median_of (window_values 5 2 1 0 in_ x y))) /\
      (~ (interior dx 1 x /\ interior dy 0 y) ->
         MedCalc2D.out mc' !! Z.to_nat (y * 5 + x)
           = out_ !! Z.to_nat (y * 5 + x)).
Proof.
  intros in_ out_.
  apply (run_writes_interior (option Q) Example.optQ_float sort_pairs
           Example.debug 16%nat 5 2 1 0 4 1 0 in_ out_).
  - apply optQ_strict_weak_order.
  - apply sort_pairs_contract. apply optQ_strict_weak_order.
  - lia.
  - lia.
  - lia.
  - lia.
  - lia.
  - lia.
  - reflexivity.
  - reflexivity.
  - cbn. lia.
  - vm_compute. split; [discriminate|reflexivity].
  - vm_compute. split; [discriminate|reflexivity].
Defined.
